(** * ACTS connectivity tests: tolerance-band comparators and the SCPI socket link

    A shallow embedding of
    - [WifiRvrTest.pass_fail_check] (acts/tests/google/wifi/WifiRvrTest.py),
    - [CoexPerformanceBaseTest.get_throughput_limits], [total_attenuation] and
      [throughput_pass_fail_check]
      (acts/framework/acts/test_utils/coex/CoexPerformanceBaseTest.py),
    - [SocketInstrument._send], [_recv] and [_query]
      (acts/framework/acts/controllers/gnssinst_lib/abstract_inst.py).

    Python numbers (attenuations in dB, throughputs in Mbps, tolerances) are
    read as exact rationals [Q]; rounding of binary floating point is outside
    the model.  Exceptions are values of [exn], carried by the error monad
    [res]. *)

From Stdlib Require Import QArith Qabs Qminmax ZArith List Bool Arith Lia String Ascii.
From Stdlib Require Import Sorting.Permutation Sorting.Sorted Lqa Qround.
Import ListNotations.

Local Open Scope Q_scope.

(** ** Python built-ins used by the code *)

Module Py.

(** Exceptions the modelled code can raise.  [TestFailure] and [TestPass]
    are the signals raised by [asserts.fail] and [asserts.explicit_pass];
    [TestFailure] keeps the three values formatted into the message. *)
Inductive exn : Type :=
| FileNotFoundError
| JSONDecodeError
| KeyError
| IndexError
| TypeError
| AttributeError
| UnicodeError
| SocketTimeout
| SocketError
| TestFailure (current_att current_throughput : Q) (allowed : Q * Q)
| TestPass.

Inductive res (A : Type) : Type :=
| Ret (a : A)
| Raise (e : exn).
Arguments Ret {A} a.
Arguments Raise {A} e.

Definition bind {A B} (m : res A) (f : A -> res B) : res B :=
  match m with
  | Ret a => f a
  | Raise e => Raise e
  end.

(** [x < y] on numbers. *)
Definition Qltb (x y : Q) : bool := negb (Qle_bool y x).

(** [max(a, b)]: the first argument unless the second is strictly larger. *)
Definition max (a b : Q) : Q := if Qltb a b then b else a.

(** [abs(x)]. *)
Definition abs (x : Q) : Q := Qabs x.

(** [enumerate(l)]. *)
Fixpoint enumerate_from {A} (start : nat) (l : list A) : list (nat * A) :=
  match l with
  | [] => []
  | x :: xs => (start, x) :: enumerate_from (S start) xs
  end.

Definition enumerate {A} (l : list A) : list (nat * A) := enumerate_from 0 l.

(** [sorted(l, key=key)] and [l.sort()].  Python's sort is stable, and a
    stable sort has one possible result: each element is placed after the
    elements of strictly smaller key and before the later elements of
    equal or larger key. *)
Fixpoint insert_by {A} (key : A -> Q) (x : A) (l : list A) : list A :=
  match l with
  | [] => [x]
  | y :: ys =>
      if Qltb (key y) (key x) then y :: insert_by key x ys else x :: y :: ys
  end.

Fixpoint sorted {A} (key : A -> Q) (l : list A) : list A :=
  match l with
  | [] => []
  | x :: xs => insert_by key x (sorted key xs)
  end.

Definition sort (l : list Q) : list Q := sorted (fun x => x) l.

(** [l[i]] for [i >= 0]. *)
Definition getitem {A} (l : list A) (i : nat) : res A :=
  match nth_error l i with
  | Some a => Ret a
  | None => Raise IndexError
  end.

(** [l[-1]]. *)
Definition getlast {A} (l : list A) : res A :=
  match l with
  | [] => Raise IndexError
  | x :: xs => Ret (last xs x)
  end.

(** [d[key]] on a dict read from JSON, where the key may be absent. *)
Definition getkey {A} (field : option A) : res A :=
  match field with
  | Some a => Ret a
  | None => Raise KeyError
  end.

(** [obj.attr] where the attribute may never have been set. *)
Definition getattr {A} (attribute : option A) : res A :=
  match attribute with
  | Some a => Ret a
  | None => Raise AttributeError
  end.

(** A list comprehension whose element expression can raise. *)
Fixpoint comprehension {A B} (f : A -> res B) (l : list A) : res (list B) :=
  match l with
  | [] => Ret []
  | x :: xs =>
      bind (f x) (fun y => bind (comprehension f xs) (fun ys => Ret (y :: ys)))
  end.

(** [sub in s] on strings. *)
Fixpoint contains (sub s : string) : bool :=
  String.prefix sub s ||
  match s with
  | EmptyString => false
  | String _ s' => contains sub s'
  end.

(** What [open(path)] followed by [json.load] yields. *)
Inductive file (A : Type) : Type :=
| Missing
| Malformed
| Json (content : A).
Arguments Missing {A}.
Arguments Malformed {A}.
Arguments Json {A} content.

Definition load {A} (f : file A) : res A :=
  match f with
  | Missing => Raise FileNotFoundError
  | Malformed => Raise JSONDecodeError
  | Json content => Ret content
  end.

End Py.

Import Py.

Declare Scope res_scope.
Delimit Scope res_scope with res.
Notation "x <- m ;; k" := (bind m (fun x => k))
  (at level 61, m at next level, right associativity) : res_scope.
Notation "m ;;; k" := (bind m (fun _ => k))
  (at level 61, right associativity) : res_scope.

(** ** Parts shared by the two comparators *)

Module Nearest.

(** [att_distances = [abs(current_att - a) for a in reference_attenuation]] *)
Definition att_distances (current_att : Q) (reference : list Q) : list Q :=
  map (fun a => Py.abs (current_att - a)) reference.

(** [sorted_distances = sorted(enumerate(att_distances), key=lambda x: x[1])] *)
Definition sorted_distances (dists : list Q) : list (nat * Q) :=
  sorted snd (enumerate dists).

(** [closest_indeces = [dist[0] for dist in sorted_distances[0:k]]] *)
Definition closest_indeces (k : nat) (dists : list Q) : list nat :=
  map fst (firstn k (sorted_distances dists)).

(** [max(abs_tolerance, v * pct_tolerance / 100)] *)
Definition margin (abs_tolerance pct_tolerance v : Q) : Q :=
  Py.max abs_tolerance (v * pct_tolerance / inject_Z 100).

(** [max(v - max(abs_tolerance, v * pct_tolerance / 100), 0)] *)
Definition lower_of (abs_tolerance pct_tolerance v : Q) : Q :=
  Py.max (v - margin abs_tolerance pct_tolerance v) 0.

(** [v + max(abs_tolerance, v * pct_tolerance / 100)] *)
Definition upper_of (abs_tolerance pct_tolerance v : Q) : Q :=
  v + margin abs_tolerance pct_tolerance v.

End Nearest.

(** ** WifiRvrTest.pass_fail_check *)

Module WifiRvrTest.
Import Nearest.
Local Open Scope res_scope.

(** [self.test_params], the keys read by [pass_fail_check]. *)
Record test_params : Type := {
  abs_tolerance : Q;
  pct_tolerance : Q
}.

(** [rvr_result], built by [rvr_test_func]. *)
Record rvr_result : Type := {
  attenuation : list Q;
  fixed_attenuation : Q;
  throughput_receive : list Q
}.

(** The golden file's JSON object; a key may be absent. *)
Record gldn_results : Type := {
  gldn_attenuation_key : option (list Q);
  gldn_fixed_attenuation_key : option Q;
  gldn_throughput_receive_key : option (list Q)
}.

(** [[att + gldn_results["fixed_attenuation"]
      for att in gldn_results["attenuation"]]] *)
Definition gldn_attenuation (g : gldn_results) : res (list Q) :=
  atts <- getkey (gldn_attenuation_key g) ;;
  comprehension
    (fun att =>
       fixed <- getkey (gldn_fixed_attenuation_key g) ;;
       Ret (att + fixed))
    atts.

(** [[gldn_results["throughput_receive"][index] for index in closest_indeces]],
    then [closest_throughputs.sort()]. *)
Definition closest_throughputs (g : gldn_results) (indeces : list nat)
  : res (list Q) :=
  l <- comprehension
         (fun index =>
            thr <- getkey (gldn_throughput_receive_key g) ;;
            getitem thr index)
         indeces ;;
  Ret (sort l).

Definition allowed_throughput_range (tp : test_params) (closest : list Q)
  : res (Q * Q) :=
  c0 <- getitem closest 0 ;;
  c1 <- getitem closest 1 ;;
  Ret (lower_of (abs_tolerance tp) (pct_tolerance tp) c0,
       upper_of (abs_tolerance tp) (pct_tolerance tp) c1).

(** The condition of the [if] guarding [asserts.fail]. *)
Definition beyond_limits (tp : test_params) (range : Q * Q) (current : Q)
  : bool :=
  let throughput_distance := (current - fst range, current - snd range) in
  Qltb (fst throughput_distance) (- abs_tolerance tp)
  || Qltb (abs_tolerance tp) (snd throughput_distance).

(** The allowed range of one sweep point. *)
Definition point_range (tp : test_params) (g : gldn_results)
    (gldn_att : list Q) (r : rvr_result) (idx : nat) : res (Q * (Q * Q)) :=
  att <- getitem (attenuation r) idx ;;
  let current_att := att + fixed_attenuation r in
  let indeces := closest_indeces 2 (att_distances current_att gldn_att) in
  closest <- closest_throughputs g indeces ;;
  range <- allowed_throughput_range tp closest ;;
  Ret (current_att, range).

(** One iteration of the [for] loop. *)
Definition check_point (tp : test_params) (g : gldn_results)
    (gldn_att : list Q) (r : rvr_result) (idx : nat) (current : Q)
  : res unit :=
  cr <- point_range tp g gldn_att r idx ;;
  let '(current_att, range) := cr in
  if beyond_limits tp range current
  then Raise (TestFailure current_att current range)
  else Ret tt.

Fixpoint check_points (tp : test_params) (g : gldn_results)
    (gldn_att : list Q) (r : rvr_result) (points : list (nat * Q))
  : res unit :=
  match points with
  | [] => Ret tt
  | (idx, current) :: rest =>
      check_point tp g gldn_att r idx current ;;;
      check_points tp g gldn_att r rest
  end.

(** [pass_fail_check(self, rvr_result)]; [gldn_file] is what opening and
    parsing [gldn_path] gives.  The method always ends by raising a
    signal or an error. *)
Definition pass_fail_check (tp : test_params) (gldn_file : file gldn_results)
    (r : rvr_result) : res unit :=
  g <- load gldn_file ;;
  gldn_att <- gldn_attenuation g ;;
  check_points tp g gldn_att r (enumerate (throughput_receive r)) ;;;
  Raise TestPass.

End WifiRvrTest.

(** ** CoexPerformanceBaseTest: throughput limits and the pass/fail check *)

Module CoexPerformanceBaseTest.
Import Nearest.
Local Open Scope res_scope.

(** [self.test_params], the keys read by the check.
    [has_fixed_attenuation] is ["fixed_attenuation" in self.test_params]. *)
Record test_params : Type := {
  abs_tolerance : Q;
  pct_tolerance : Q;
  failure_count_tolerance : Z;
  has_fixed_attenuation : bool
}.

(** [self.rvr[bt_atten]], filled by [set_attenuation_and_run_iperf]. *)
Record rvr_entry : Type := {
  attenuation : list Q;
  fixed_attenuation : Q;
  throughput_received : list Q
}.

(** [performance_results[str(bt_atten)]], read from the baseline file;
    a key may be absent. *)
Record performance_dict : Type := {
  perf_attenuation_key : option (list Q);
  perf_fixed_attenuation_key : option Q;
  perf_throughput_received_key : option (list Q)
}.

(** The baseline file's JSON object.  Its keys are [str(bt_atten)]; [str]
    is one-to-one on integers, so the object is keyed by the integer. *)
Definition performance_results : Type := Z -> option performance_dict.

(** [throughput_limits[bt_atten]]. *)
Record limits : Type := {
  limits_attenuation : list Q;
  lower_limit : list Q;
  upper_limit : list Q
}.

(** The attributes of [self] the check reads.  [performance_files_list]
    is [None] when [setup_class] never set the attribute. *)
Record self : Type := {
  params : test_params;
  current_test_name : string;
  performance_files_list : option (list string);
  bt_atten_range : list Z;
  rvr : Z -> option rvr_entry
}.

(** The files on disk, by path. *)
Definition filesystem : Type := string -> file performance_results.

(** [d[k] = v] on a dict. *)
Definition setitem {V} (d : Z -> option V) (k : Z) (v : V) : Z -> option V :=
  fun k' => if Z.eqb k' k then Some v else d k'.

(** [total_attenuation(self, performance_dict)]: [None] when the test
    parameters have no ["fixed_attenuation"]. *)
Definition total_attenuation (tp : test_params) (pd : performance_dict)
  : res (option (list Q)) :=
  if has_fixed_attenuation tp then
    atts <- getkey (perf_attenuation_key pd) ;;
    total_atten <- comprehension
                     (fun att =>
                        fixed <- getkey (perf_fixed_attenuation_key pd) ;;
                        Ret (att + fixed))
                     atts ;;
    Ret (Some total_atten)
  else Ret None.

(** Iterating over [performance_attenuation], which may be [None]. *)
Definition iterate (performance_attenuation : option (list Q)) : res (list Q) :=
  match performance_attenuation with
  | Some l => Ret l
  | None => Raise TypeError
  end.

Definition closest_throughputs (pd : performance_dict) (indeces : list nat)
  : res (list Q) :=
  l <- comprehension
         (fun index =>
            thr <- getkey (perf_throughput_received_key pd) ;;
            getitem thr index)
         indeces ;;
  Ret (sort l).

(** One iteration of the inner loop of [get_throughput_limits]: the values
    appended to [attenuation], [lower_limit] and [upper_limit]. *)
Definition point_limits (tp : test_params) (pd : performance_dict)
    (performance_attenuation : option (list Q)) (e : rvr_entry) (idx : nat)
  : res (Q * (Q * Q)) :=
  att <- getitem (attenuation e) idx ;;
  let current_att := att + fixed_attenuation e in
  reference <- iterate performance_attenuation ;;
  let indeces := closest_indeces 3 (att_distances current_att reference) in
  closest <- closest_throughputs pd indeces ;;
  c0 <- getitem closest 0 ;;
  clast <- getlast closest ;;
  Ret (current_att,
       (lower_of (abs_tolerance tp) (pct_tolerance tp) c0,
        upper_of (abs_tolerance tp) (pct_tolerance tp) clast)).

(** The body of the outer loop for one [bt_atten]. *)
Definition group_limits (s : self) (results : performance_results)
    (bt_atten : Z) : res limits :=
  pd <- getkey (results bt_atten) ;;
  performance_attenuation <- total_attenuation (params s) pd ;;
  e <- getkey (rvr s bt_atten) ;;
  rows <- comprehension
            (fun point =>
               point_limits (params s) pd performance_attenuation e (fst point))
            (enumerate (throughput_received e)) ;;
  Ret {| limits_attenuation := map fst rows;
         lower_limit := map (fun row => fst (snd row)) rows;
         upper_limit := map (fun row => snd (snd row)) rows |}.

Fixpoint limits_loop (s : self) (results : performance_results)
    (range : list Z) (throughput_limits : Z -> option limits)
  : res (Z -> option limits) :=
  match range with
  | [] => Ret throughput_limits
  | bt_atten :: rest =>
      l <- group_limits s results bt_atten ;;
      limits_loop s results rest (setitem throughput_limits bt_atten l)
  end.

(** [get_throughput_limits(self, performance_path)] *)
Definition get_throughput_limits (s : self) (fs : filesystem)
    (performance_path : string) : res (Z -> option limits) :=
  results <- load (fs performance_path) ;;
  limits_loop s results (bt_atten_range s) (fun _ => None).

(** Records written to [self.log] by [throughput_pass_fail_check]. *)
Inductive log_record : Type :=
| InfoBeyondLimits (current_att current_throughput lower upper : Q)
| ErrorTestFailed (failure_count : Z)
| InfoTestPassed (failure_count : Z)
| WarningNoPerformanceFile.

(** A computation that logs and may raise: the records logged so far are
    kept when an exception is raised. *)
Definition logged (A : Type) : Type := (list log_record * res A)%type.

Definition lbind {A B} (m : logged A) (f : A -> logged B) : logged B :=
  match snd m with
  | Ret a => (fst m ++ fst (f a), snd (f a))
  | Raise e => (fst m, Raise e)
  end.

Definition lift {A} (m : res A) : logged A := ([], m).

(** The condition of the [if] that counts a point as a failure. *)
Definition outside_limits (lower upper current : Q) : bool :=
  Qltb current lower || Qltb upper current.

(** One iteration of the inner loop of the check: the new [failure_count].
    [group] is [throughput_limits[bt_atten]]. *)
Definition check_point (e : rvr_entry) (group : option limits)
    (failure_count : Z) (idx : nat) (current : Q) : logged Z :=
  lbind (lift (getitem (attenuation e) idx)) (fun att =>
  let current_att := att + fixed_attenuation e in
  lbind (lift (l <- getkey group ;; getitem (lower_limit l) idx)) (fun lower =>
  lbind (lift (l <- getkey group ;; getitem (upper_limit l) idx)) (fun upper =>
  if outside_limits lower upper current
  then ([InfoBeyondLimits current_att current lower upper],
        Ret (failure_count + 1)%Z)
  else ([], Ret failure_count)))).

Fixpoint check_points (e : rvr_entry) (group : option limits)
    (failure_count : Z) (points : list (nat * Q)) : logged Z :=
  match points with
  | [] => ([], Ret failure_count)
  | (idx, current) :: rest =>
      lbind (check_point e group failure_count idx current)
        (fun failure_count' => check_points e group failure_count' rest)
  end.

(** The loop over [self.bt_atten_range]; [Some false] is [return False],
    [None] is falling off the end of the loop. *)
Fixpoint check_groups (s : self) (throughput_limits : Z -> option limits)
    (failure_count : Z) (range : list Z) : logged (option bool) :=
  match range with
  | [] => ([], Ret None)
  | bt_atten :: rest =>
      lbind (lift (getkey (rvr s bt_atten))) (fun e =>
      lbind (check_points e (throughput_limits bt_atten) failure_count
               (enumerate (throughput_received e))) (fun failure_count' =>
      if (failure_count' >=? failure_count_tolerance (params s))%Z
      then ([ErrorTestFailed failure_count'], Ret (Some false))
      else lbind ([InfoTestPassed failure_count'], Ret tt) (fun _ =>
           check_groups s throughput_limits failure_count' rest)))
  end.

(** The body of the [try]. *)
Definition try_body (s : self) (fs : filesystem) : logged (option bool) :=
  lbind (lift (getattr (performance_files_list s))) (fun files =>
  let performance_path :=
    filter (fun file_name => contains (current_test_name s) file_name) files in
  lbind (lift (getitem performance_path 0)) (fun performance_path =>
  lbind (lift (get_throughput_limits s fs performance_path))
    (fun throughput_limits =>
  check_groups s throughput_limits 0%Z (bt_atten_range s)))).

(** [throughput_pass_fail_check(self)]: the records logged and the value
    returned ([Some false] for [False], [None] for [None]).  Every
    exception of the body is caught and logged as a warning. *)
Definition throughput_pass_fail_check (s : self) (fs : filesystem)
  : list log_record * option bool :=
  let body := try_body s fs in
  match snd body with
  | Ret value => (fst body, value)
  | Raise _ => (fst body ++ [WarningNoPerformanceFile], None)
  end.

End CoexPerformanceBaseTest.

(** ** SocketInstrument: the SCPI link over a stream socket *)

Module SocketInstrument.

(** A Python [str]: its code points. *)
Definition str : Type := list N.

Definition of_string (s : string) : str :=
  map N_of_ascii (list_ascii_of_string s).

(** A text encoding, [self._codefmt]: [s.encode(codefmt)] and
    [b.decode(codefmt)], [None] where Python raises a [UnicodeError]. *)
Record codec : Type := {
  encode : str -> option (list Byte.byte);
  decode : list Byte.byte -> option str
}.

(** *** UTF-8 *)

Definition utf8_encode_char (c : N) : option (list N) :=
  (if c <? 128 then Some [c]
   else if c <? 2048 then Some [192 + c / 64; 128 + c mod 64]
   else if c <? 65536 then
     if (55296 <=? c) && (c <? 57344) then None
     else Some [224 + c / 4096; 128 + (c / 64) mod 64; 128 + c mod 64]
   else if c <? 1114112 then
     Some [240 + c / 262144; 128 + (c / 4096) mod 64;
           128 + (c / 64) mod 64; 128 + c mod 64]
   else None)%N.

Fixpoint bytes_of (l : list N) : option (list Byte.byte) :=
  match l with
  | [] => Some []
  | n :: ns =>
      match Byte.of_N n, bytes_of ns with
      | Some b, Some bs => Some (b :: bs)
      | _, _ => None
      end
  end.

Fixpoint utf8_encode (s : str) : option (list Byte.byte) :=
  match s with
  | [] => Some []
  | c :: cs =>
      match utf8_encode_char c with
      | Some l =>
          match bytes_of l, utf8_encode cs with
          | Some bs, Some rest => Some (bs ++ rest)
          | _, _ => None
          end
      | None => None
      end
  end.

(** A continuation byte in the range [lo, hi]. *)
Definition continuation (lo hi : N) (b : Byte.byte) : option N :=
  let n := Byte.to_N b in
  if ((lo <=? n) && (n <=? hi))%N then Some (n - 128)%N else None.

Definition prepend (c : option N) (rest : option str) : option str :=
  match c, rest with
  | Some c, Some rest => Some (c :: rest)
  | _, _ => None
  end.

Fixpoint utf8_decode (bs : list Byte.byte) : option str :=
  match bs with
  | [] => Some []
  | b0 :: r0 =>
      let n0 := Byte.to_N b0 in
      if (n0 <? 128)%N then prepend (Some n0) (utf8_decode r0)
      else if (n0 <? 194)%N then None
      else if (n0 <? 224)%N then
        match r0 with
        | b1 :: r1 =>
            match continuation 128 191 b1 with
            | Some c1 => prepend (Some ((n0 - 192) * 64 + c1)%N) (utf8_decode r1)
            | None => None
            end
        | _ => None
        end
      else if (n0 <? 240)%N then
        match r0 with
        | b1 :: b2 :: r2 =>
            let lo := if (n0 =? 224)%N then 160%N else 128%N in
            let hi := if (n0 =? 237)%N then 159%N else 191%N in
            match continuation lo hi b1, continuation 128 191 b2 with
            | Some c1, Some c2 =>
                prepend (Some ((n0 - 224) * 4096 + c1 * 64 + c2)%N)
                  (utf8_decode r2)
            | _, _ => None
            end
        | _ => None
        end
      else if (n0 <? 245)%N then
        match r0 with
        | b1 :: b2 :: b3 :: r3 =>
            let lo := if (n0 =? 240)%N then 144%N else 128%N in
            let hi := if (n0 =? 244)%N then 143%N else 191%N in
            match continuation lo hi b1, continuation 128 191 b2,
                  continuation 128 191 b3 with
            | Some c1, Some c2, Some c3 =>
                prepend
                  (Some ((n0 - 240) * 262144 + c1 * 4096 + c2 * 64 + c3)%N)
                  (utf8_decode r3)
            | _, _, _ => None
            end
        | _ => None
        end
      else None
  end.

Definition utf_8 : codec := {| encode := utf8_encode; decode := utf8_decode |}.

(** *** The socket *)

(** What the network does when [recv] is called: some bytes have arrived,
    nothing arrives within the timeout, or the socket layer fails. *)
Inductive arrival : Type :=
| Segment (data : list Byte.byte)
| Stall
| Fault.

(** What the peer does once everything in flight was read: it has closed
    the connection, or it stays connected and sends nothing more. *)
Inductive peer_end : Type :=
| Closed
| Silent.

(** How a [sendall] ends. *)
Inductive delivery : Type :=
| Delivered
| SendStall
| SendFault.

Inductive call : Type :=
| CallSendall (data : list Byte.byte)
| CallRecv (bufsize : nat).

(** A connected socket: the script the network will follow, and the calls
    made so far, oldest first. *)
Record socket : Type := {
  incoming : list arrival;
  peer : peer_end;
  deliveries : list delivery;
  calls : list call
}.

(** [sock.recv(bufsize)]: at most [bufsize] of the bytes that arrived; the
    rest stays queued.  At end of stream it returns no bytes. *)
Definition recv (bufsize : nat) (sk : socket) : res (list Byte.byte) * socket :=
  let called := calls sk ++ [CallRecv bufsize] in
  match incoming sk with
  | Segment data :: rest =>
      let queued :=
        match skipn bufsize data with
        | [] => rest
        | unread => Segment unread :: rest
        end in
      (Ret (firstn bufsize data),
       {| incoming := queued; peer := peer sk;
          deliveries := deliveries sk; calls := called |})
  | Stall :: rest =>
      (Raise SocketTimeout,
       {| incoming := rest; peer := peer sk;
          deliveries := deliveries sk; calls := called |})
  | Fault :: rest =>
      (Raise SocketError,
       {| incoming := rest; peer := peer sk;
          deliveries := deliveries sk; calls := called |})
  | [] =>
      (match peer sk with
       | Closed => Ret []
       | Silent => Raise SocketTimeout
       end,
       {| incoming := []; peer := peer sk;
          deliveries := deliveries sk; calls := called |})
  end.

(** [sock.sendall(data)]; beyond the script every send is delivered. *)
Definition sendall (data : list Byte.byte) (sk : socket) : res unit * socket :=
  let called := calls sk ++ [CallSendall data] in
  let after := {| incoming := incoming sk; peer := peer sk;
                  deliveries := tl (deliveries sk); calls := called |} in
  match deliveries sk with
  | SendStall :: _ => (Raise SocketTimeout, after)
  | SendFault :: _ => (Raise SocketError, after)
  | _ => (Ret tt, after)
  end.

(** *** The instrument *)

(** The argument of [SocketInstrumentError]. *)
Inductive errmsg : Type :=
| TimeoutSending (cmd : str)
| ErrorSending (cmd : str)
| TimeoutReceiving
| ErrorReceiving.

(** Records written to [self._logger]. *)
Inductive log_record : Type :=
| DebugSent (cmd : str)
| DebugReceived (resp : str)
| LoggedException (msg : errmsg)
| LoggedOther (e : exn).

(** What a method of the instrument raises. *)
Inductive raised : Type :=
| SocketInstrumentError (msg : errmsg)
| Reraised (e : exn).

Record instrument : Type := {
  _socket_timeout : Z;
  _socket_buffer_size : nat;
  _escseq : str;
  _codefmt : codec;
  _logger : list log_record;
  _socket : option socket
}.

(** [__init__] *)
Definition init : instrument :=
  {| _socket_timeout := 120;
     _socket_buffer_size := 1024;
     _escseq := [10%N];
     _codefmt := utf_8;
     _logger := [];
     _socket := None |}.

Definition with_socket (inst : instrument) (sk : option socket) : instrument :=
  {| _socket_timeout := _socket_timeout inst;
     _socket_buffer_size := _socket_buffer_size inst;
     _escseq := _escseq inst;
     _codefmt := _codefmt inst;
     _logger := _logger inst;
     _socket := sk |}.

Definition logging (inst : instrument) (r : log_record) : instrument :=
  {| _socket_timeout := _socket_timeout inst;
     _socket_buffer_size := _socket_buffer_size inst;
     _escseq := _escseq inst;
     _codefmt := _codefmt inst;
     _logger := _logger inst ++ [r];
     _socket := _socket inst |}.

(** The [except] clauses shared by [_send] and [_recv]. *)
Definition handle {A} (on_timeout on_error : errmsg) (e : exn)
    (inst : instrument) : (A + raised) * instrument :=
  match e with
  | SocketTimeout =>
      (inr (SocketInstrumentError on_timeout),
       logging inst (LoggedException on_timeout))
  | SocketError =>
      (inr (SocketInstrumentError on_error),
       logging inst (LoggedException on_error))
  | other => (inr (Reraised other), logging inst (LoggedOther other))
  end.

(** [_send(self, cmd)] *)
Definition _send (cmd : str) (inst : instrument) : (unit + raised) * instrument :=
  let cmd_es := cmd ++ _escseq inst in
  match _socket inst with
  | None => handle (TimeoutSending cmd) (ErrorSending cmd) AttributeError inst
  | Some sk =>
      match encode (_codefmt inst) cmd_es with
      | None => handle (TimeoutSending cmd) (ErrorSending cmd) UnicodeError inst
      | Some data =>
          let (r, sk') := sendall data sk in
          let inst' := with_socket inst (Some sk') in
          match r with
          | Ret _ => (inl tt, logging inst' (DebugSent cmd))
          | Raise e =>
              handle (TimeoutSending cmd) (ErrorSending cmd) e inst'
          end
      end
  end.

(** The [while True] loop of [_recv]; [None] when [fuel] iterations were
    not enough to leave it. *)
Fixpoint recv_loop (fuel : nat) (bufsize : nat) (codefmt : codec)
    (resp : str) (sk : socket) : option (res str * socket) :=
  match fuel with
  | O => None
  | S fuel' =>
      let (r, sk') := recv bufsize sk in
      match r with
      | Raise e => Some (Raise e, sk')
      | Ret data =>
          match decode codefmt data with
          | None => Some (Raise UnicodeError, sk')
          | Some resp_tmp =>
              let resp' := resp ++ resp_tmp in
              if (List.length resp_tmp <? bufsize)%nat
              then Some (Ret resp', sk')
              else recv_loop fuel' bufsize codefmt resp' sk'
          end
      end
  end.

(** [s.rstrip(chars)] *)
Fixpoint lstrip (chars : str) (s : str) : str :=
  match s with
  | [] => []
  | c :: cs => if existsb (N.eqb c) chars then lstrip chars cs else s
  end.

Definition rstrip (chars : str) (s : str) : str :=
  rev (lstrip chars (rev s)).

(** [_recv(self)] *)
Definition _recv (fuel : nat) (inst : instrument)
  : option ((str + raised) * instrument) :=
  match _socket inst with
  | None =>
      Some (handle TimeoutReceiving ErrorReceiving AttributeError inst)
  | Some sk =>
      match recv_loop fuel (_socket_buffer_size inst) (_codefmt inst) [] sk with
      | None => None
      | Some (r, sk') =>
          let inst' := with_socket inst (Some sk') in
          match r with
          | Ret resp =>
              let resp := rstrip (_escseq inst) resp in
              Some (inl resp, logging inst' (DebugReceived resp))
          | Raise e =>
              Some (handle TimeoutReceiving ErrorReceiving e inst')
          end
      end
  end.

(** [_query(self, cmd)] *)
Definition _query (fuel : nat) (cmd : str) (inst : instrument)
  : option ((str + raised) * instrument) :=
  match _send (cmd ++ of_string ";*OPC?") inst with
  | (inl _, inst') => _recv fuel inst'
  | (inr e, inst') => Some (inr e, inst')
  end.

End SocketInstrument.

(** * Properties *)

(** ** Numbers *)

Lemma Qltb_lt (x y : Q) : Qltb x y = true <-> x < y.
Proof.
  unfold Qltb. rewrite negb_true_iff.
  split; intro H.
  - apply Qnot_le_lt. intro Hle. apply Qle_bool_iff in Hle. congruence.
  - destruct (Qle_bool y x) eqn:E; [|reflexivity].
    apply Qle_bool_iff in E. exfalso. exact (Qlt_not_le _ _ H E).
Qed.

Lemma Qltb_ge (x y : Q) : Qltb x y = false <-> y <= x.
Proof.
  unfold Qltb. rewrite negb_false_iff. apply Qle_bool_iff.
Qed.

(** Python's [max] agrees with the mathematical maximum. *)
Lemma max_Qmax (a b : Q) : Py.max a b == Qmax a b.
Proof.
  unfold Py.max. destruct (Qltb a b) eqn:E.
  - apply Qltb_lt in E. symmetry. apply Q.max_r. apply Qlt_le_weak, E.
  - apply Qltb_ge in E. symmetry. apply Q.max_l, E.
Qed.

Lemma max_ge_l (a b : Q) : a <= Py.max a b.
Proof. rewrite max_Qmax. apply Q.le_max_l. Qed.

Lemma max_ge_r (a b : Q) : b <= Py.max a b.
Proof. rewrite max_Qmax. apply Q.le_max_r. Qed.

(** ** [enumerate] and the stable sort *)

Section Sorting.
Context {A : Type}.
Variable key : A -> Q.

Lemma insert_by_perm (x : A) (l : list A) :
  Permutation (insert_by key x l) (x :: l).
Proof.
  induction l as [|y ys IH]; simpl; [reflexivity|].
  destruct (Qltb (key y) (key x)); [|reflexivity].
  rewrite IH. apply perm_swap.
Qed.

Lemma sorted_perm (l : list A) : Permutation (sorted key l) l.
Proof.
  induction l as [|x xs IH]; simpl; [reflexivity|].
  rewrite insert_by_perm. now constructor.
Qed.

Lemma sorted_length (l : list A) : List.length (sorted key l) = List.length l.
Proof. apply Permutation_length, sorted_perm. Qed.

Lemma sorted_In (l : list A) (x : A) : In x (sorted key l) <-> In x l.
Proof.
  split; apply Permutation_in; [|symmetry]; apply sorted_perm.
Qed.

(** The output is ascending in the key. *)
Lemma insert_by_ascending (x : A) (l : list A) :
  StronglySorted (fun a b => key a <= key b) l ->
  StronglySorted (fun a b => key a <= key b) (insert_by key x l).
Proof.
  induction 1 as [|y ys Hs IH Hall]; simpl.
  - repeat constructor.
  - destruct (Qltb (key y) (key x)) eqn:E.
    + constructor; [exact IH|].
      apply Forall_forall. intros z Hz.
      apply (Permutation_in _ (insert_by_perm x ys)) in Hz.
      destruct Hz as [<-|Hz].
      * apply Qlt_le_weak. now apply Qltb_lt.
      * rewrite Forall_forall in Hall. now apply Hall.
    + apply Qltb_ge in E.
      constructor; [now constructor|].
      constructor; [exact E|].
      rewrite Forall_forall in *. intros z Hz.
      apply Qle_trans with (key y); auto.
Qed.

Lemma sorted_ascending (l : list A) :
  StronglySorted (fun a b => key a <= key b) (sorted key l).
Proof.
  induction l; simpl; [constructor|]. now apply insert_by_ascending.
Qed.

End Sorting.

(** The order of a stable sort of an enumeration: by distance, and by index
    among equal distances. *)
Definition nearer (a b : nat * Q) : Prop :=
  snd a < snd b \/ (snd a == snd b /\ (fst a < fst b)%nat).

Lemma nearer_trans (a b c : nat * Q) : nearer a b -> nearer b c -> nearer a c.
Proof.
  unfold nearer. intros [H1|[H1 I1]] [H2|[H2 I2]].
  - left. now apply Qlt_trans with (snd b).
  - left. now rewrite <- H2.
  - left. now rewrite H1.
  - right. split; [now rewrite H1 | lia].
Qed.

Lemma nearer_irrefl (a : nat * Q) : ~ nearer a a.
Proof.
  intros [H|[_ H]]; [exact (Qlt_irrefl _ H) | lia].
Qed.

Lemma enumerate_from_In {A} (l : list A) (start i : nat) (x : A) :
  In (i, x) (enumerate_from start l) <->
  (start <= i)%nat /\ nth_error l (i - start) = Some x.
Proof.
  revert start. induction l as [|y ys IH]; intros start; simpl.
  - split; [tauto|]. intros [_ H]. destruct (i - start)%nat; discriminate.
  - rewrite IH. split.
    + intros [H|[Hle H]].
      * inversion H; subst. rewrite Nat.sub_diag. split; [lia|reflexivity].
      * split; [lia|]. replace (i - start)%nat with (S (i - S start)) by lia.
        exact H.
    + intros [Hle H]. destruct (Nat.eq_dec i start) as [->|Hne].
      * rewrite Nat.sub_diag in H. simpl in H. left. congruence.
      * right. split; [lia|].
        replace (i - start)%nat with (S (i - S start)) in H by lia. exact H.
Qed.

Lemma enumerate_In {A} (l : list A) (i : nat) (x : A) :
  In (i, x) (enumerate l) <-> nth_error l i = Some x.
Proof.
  unfold enumerate. rewrite enumerate_from_In, Nat.sub_0_r.
  split; [tauto|]. split; [lia|assumption].
Qed.

Lemma enumerate_from_length {A} (l : list A) (start : nat) :
  List.length (enumerate_from start l) = List.length l.
Proof.
  revert start. induction l; intros; simpl; [reflexivity|]. now rewrite IHl.
Qed.

Lemma enumerate_from_fst {A} (l : list A) (start : nat) :
  map fst (enumerate_from start l) = seq start (List.length l).
Proof.
  revert start. induction l; intros; simpl; [reflexivity|]. now rewrite IHl.
Qed.

Lemma insert_by_nearer (x : nat * Q) (l : list (nat * Q)) :
  StronglySorted nearer l ->
  (forall y, In y l -> (fst x < fst y)%nat) ->
  StronglySorted nearer (insert_by snd x l).
Proof.
  induction 1 as [|y ys Hs IH Hall]; intros Hidx; simpl.
  - repeat constructor.
  - rewrite Forall_forall in Hall.
    destruct (Qltb (snd y) (snd x)) eqn:E.
    + apply Qltb_lt in E. constructor.
      * apply IH. intros z Hz. apply Hidx. now right.
      * apply Forall_forall. intros z Hz.
        apply (Permutation_in _ (insert_by_perm snd x ys)) in Hz.
        destruct Hz as [<-|Hz]; [now left | now apply Hall].
    + apply Qltb_ge in E.
      assert (Hxy : nearer x y).
      { destruct (Qlt_le_dec (snd x) (snd y)) as [Hlt|Hge]; [now left|].
        right. split; [now apply Qle_antisym|]. apply Hidx. now left. }
      constructor.
      * constructor; [exact Hs | apply Forall_forall; exact Hall].
      * constructor; [exact Hxy|].
        apply Forall_forall. intros z Hz.
        apply nearer_trans with y; auto.
Qed.

Lemma sorted_enumerate_from_nearer (l : list Q) (start : nat) :
  StronglySorted nearer (sorted snd (enumerate_from start l)).
Proof.
  revert start. induction l as [|x xs IH]; intros start; simpl.
  - constructor.
  - apply insert_by_nearer; [apply IH|].
    intros [i d] Hy. apply sorted_In in Hy.
    apply enumerate_from_In in Hy. simpl. lia.
Qed.

Lemma StronglySorted_split {A} (R : A -> A -> Prop) (l : list A) (k : nat) :
  StronglySorted R l ->
  forall a b, In a (firstn k l) -> In b (skipn k l) -> R a b.
Proof.
  intros Hs. revert k. induction Hs as [|x xs Hs IH Hall]; intros k a b Ha Hb.
  - rewrite firstn_nil in Ha. contradiction.
  - destruct k as [|k]; simpl in *; [contradiction|].
    destruct Ha as [<-|Ha].
    + rewrite Forall_forall in Hall. apply Hall.
      rewrite <- (firstn_skipn k xs). apply in_or_app. now right.
    + now apply (IH k).
Qed.

Lemma StronglySorted_firstn {A} (R : A -> A -> Prop) (l : list A) (k : nat) :
  StronglySorted R l -> StronglySorted R (firstn k l).
Proof.
  intros Hs. revert k. induction Hs as [|x xs Hs IH Hall]; intros k.
  - rewrite firstn_nil. constructor.
  - destruct k as [|k]; simpl; [constructor|].
    constructor; [apply IH|].
    rewrite Forall_forall in *. intros z Hz. apply Hall.
    rewrite <- (firstn_skipn k xs). apply in_or_app. now left.
Qed.

(** ** Selection of the nearest reference points *)

Section Selection.
Import Nearest.
Variable current_att : Q.
Variable reference : list Q.

(** The distance of reference point [i]. *)
Definition distance (i : nat) : Q := Py.abs (current_att - nth i reference 0).

(** "Reference point [i] is nearer than [j]": smaller distance, or the
    same distance and a smaller index. *)
Definition nearer_index (i j : nat) : Prop :=
  distance i < distance j \/ (distance i == distance j /\ (i < j)%nat).

Let dists := att_distances current_att reference.

Lemma att_distances_length : List.length dists = List.length reference.
Proof. apply length_map. Qed.

Lemma att_distances_nth_error (i : nat) (x : Q) :
  nth_error dists i = Some x <->
  (i < List.length reference)%nat /\ x = distance i.
Proof.
  unfold dists, att_distances, distance. rewrite nth_error_map.
  destruct (nth_error reference i) as [a|] eqn:E; simpl.
  - assert (Hlt : (i < List.length reference)%nat).
    { apply nth_error_Some. congruence. }
    rewrite (nth_error_nth _ _ 0 E).
    split; [intros [= <-]; auto | intros [_ ->]; reflexivity].
  - apply nth_error_None in E. split; [discriminate | intros [H _]; lia].
Qed.

Lemma sorted_distances_In (i : nat) (x : Q) :
  In (i, x) (sorted_distances dists) <->
  (i < List.length reference)%nat /\ x = distance i.
Proof.
  unfold sorted_distances.
  rewrite sorted_In, enumerate_In. apply att_distances_nth_error.
Qed.

Lemma sorted_distances_nearer :
  StronglySorted nearer (sorted_distances dists).
Proof. apply sorted_enumerate_from_nearer. Qed.

Lemma sorted_distances_length :
  List.length (sorted_distances dists) = List.length reference.
Proof.
  unfold sorted_distances, enumerate.
  now rewrite sorted_length, enumerate_from_length, att_distances_length.
Qed.

Lemma sorted_distances_NoDup : NoDup (map fst (sorted_distances dists)).
Proof.
  unfold sorted_distances, enumerate.
  eapply Permutation_NoDup.
  - apply Permutation_map. symmetry. apply sorted_perm.
  - rewrite enumerate_from_fst. apply seq_NoDup.
Qed.

Lemma closest_indeces_In (k i : nat) :
  In i (closest_indeces k dists) <->
  In (i, distance i) (firstn k (sorted_distances dists)).
Proof.
  unfold closest_indeces. rewrite in_map_iff. split.
  - intros [[j x] [Hj Hin]]. simpl in Hj. subst j.
    assert (Hx : In (i, x) (sorted_distances dists)).
    { rewrite <- (firstn_skipn k (sorted_distances dists)).
      apply in_or_app. now left. }
    apply sorted_distances_In in Hx. destruct Hx as [_ ->]. exact Hin.
  - intros H. now exists (i, distance i).
Qed.

Lemma closest_indeces_sorted (l : list (nat * Q)) :
  (forall p, In p l -> snd p = distance (fst p)) ->
  StronglySorted nearer l ->
  StronglySorted nearer_index (map fst l).
Proof.
  intros Hd Hs. induction Hs as [|[i x] ps Hs IH Hall]; simpl.
  - constructor.
  - constructor.
    + apply IH. intros p Hp. apply Hd. now right.
    + rewrite Forall_forall in *. intros j Hj.
      apply in_map_iff in Hj. destruct Hj as [[j' y] [<- Hin]].
      specialize (Hall _ Hin). unfold nearer in Hall.
      pose proof (Hd (i, x) (or_introl eq_refl)) as Hx.
      pose proof (Hd (j', y) (or_intror Hin)) as Hy.
      simpl in Hall, Hx, Hy |- *. rewrite Hx, Hy in Hall. exact Hall.
Qed.

(** The selected indices are pairwise distinct indices of reference
    points, [min k n] of them; every selected point is nearer than every
    point left out; and they are listed from nearest to farthest. *)
Lemma closest_indeces_spec (k : nat) :
  let selected := closest_indeces k dists in
  List.length selected = Nat.min k (List.length reference) /\
  NoDup selected /\
  (forall i, In i selected -> (i < List.length reference)%nat) /\
  (forall i j, In i selected -> (j < List.length reference)%nat ->
               ~ In j selected -> nearer_index i j) /\
  StronglySorted nearer_index selected.
Proof.
  cbv zeta. repeat split.
  - unfold closest_indeces.
    now rewrite length_map, length_firstn, sorted_distances_length.
  - unfold closest_indeces. rewrite <- firstn_map.
    apply NoDup_app_remove_r with (skipn k (map fst (sorted_distances dists))).
    rewrite firstn_skipn. apply sorted_distances_NoDup.
  - intros i Hi. apply closest_indeces_In in Hi.
    assert (Hx : In (i, distance i) (sorted_distances dists)).
    { rewrite <- (firstn_skipn k (sorted_distances dists)).
      apply in_or_app. now left. }
    now apply sorted_distances_In in Hx.
  - intros i j Hi Hj Hnj.
    apply closest_indeces_In in Hi.
    assert (Hjs : In (j, distance j) (skipn k (sorted_distances dists))).
    { assert (Hx : In (j, distance j) (sorted_distances dists))
        by now apply sorted_distances_In.
      rewrite <- (firstn_skipn k (sorted_distances dists)) in Hx.
      apply in_app_or in Hx. destruct Hx as [Hx|Hx]; [|exact Hx].
      exfalso. apply Hnj. now apply closest_indeces_In. }
    exact (StronglySorted_split nearer _ k sorted_distances_nearer _ _ Hi Hjs).
  - unfold closest_indeces. apply closest_indeces_sorted.
    + intros [i x] Hp.
      assert (Hx : In (i, x) (sorted_distances dists)).
      { rewrite <- (firstn_skipn k (sorted_distances dists)).
        apply in_or_app. now left. }
      apply sorted_distances_In in Hx. simpl. tauto.
    + apply StronglySorted_firstn, sorted_distances_nearer.
Qed.

End Selection.


(** ** The tolerance band *)

Lemma comprehension_Ret {A B} (f : A -> res B) (l : list A) (l' : list B) :
  comprehension f l = Ret l' -> Forall2 (fun x y => f x = Ret y) l l'.
Proof.
  revert l'. induction l as [|x xs IH]; simpl; intros l' H.
  - injection H as <-. constructor.
  - destruct (f x) as [y|] eqn:Ef; simpl in H; [|discriminate].
    destruct (comprehension f xs) as [ys|]; simpl in H; [|discriminate].
    injection H as <-. constructor; auto.
Qed.

Lemma comprehension_total {A B} (f : A -> res B) (g : A -> B) (l : list A) :
  (forall x, In x l -> f x = Ret (g x)) ->
  comprehension f l = Ret (map g l).
Proof.
  induction l as [|x xs IH]; simpl; intros H; [reflexivity|].
  rewrite (H x (or_introl eq_refl)). simpl.
  rewrite IH by (intros; apply H; now right). reflexivity.
Qed.

Lemma Forall2_length_eq {A B} (R : A -> B -> Prop) (l : list A) (l' : list B) :
  Forall2 R l l' -> List.length l = List.length l'.
Proof. induction 1; simpl; congruence. Qed.

(** The first element of an ascending list is its minimum, the last its
    maximum. *)
Lemma ascending_head (l : list Q) (x : Q) :
  StronglySorted Qle l -> nth_error l 0 = Some x ->
  In x l /\ forall v, In v l -> x <= v.
Proof.
  intros Hs H. destruct l as [|y ys]; [discriminate|].
  injection H as ->. split; [now left|].
  inversion Hs as [|? ? _ Hall]; subst. rewrite Forall_forall in Hall.
  intros v [<-|Hv]; [apply Qle_refl | now apply Hall].
Qed.

Lemma last_cons {A} (l : list A) (a d : A) : last (a :: l) d = last l a.
Proof.
  revert a d. induction l as [|b l IH]; intros a d; [reflexivity|].
  change (last (a :: b :: l) d) with (last (b :: l) d).
  rewrite IH. symmetry. apply IH.
Qed.

Lemma ascending_last (l : list Q) (x : Q) :
  StronglySorted Qle l -> getlast l = Ret x ->
  In x l /\ forall v, In v l -> v <= x.
Proof.
  intros Hs. revert x. induction Hs as [|y ys Hs IH Hall]; intros x H.
  - discriminate.
  - simpl in H. injection H as <-.
    destruct ys as [|z zs].
    + simpl. split; [now left|]. intros v [<-|[]]. apply Qle_refl.
    + destruct (IH (last zs z) eq_refl) as [Hin Hmax].
      rewrite last_cons.
      split.
      * right. exact Hin.
      * intros v [<-|Hv]; [|now apply Hmax].
        rewrite Forall_forall in Hall. apply Hall. exact Hin.
Qed.

Lemma sort_ascending (l : list Q) : StronglySorted Qle (sort l).
Proof. exact (sorted_ascending (fun x => x) l). Qed.

Lemma sort_In (l : list Q) (x : Q) : In x (sort l) <-> In x l.
Proof. exact (sorted_In (fun x => x) l x). Qed.

Lemma sort_length (l : list Q) : List.length (sort l) = List.length l.
Proof. exact (sorted_length (fun x => x) l). Qed.

(** The band built from the smallest value [vmin] and the largest value
    [vmax] of the selected reference points, with the mathematical [Qmax]. *)
Definition band_of (abs_tolerance pct_tolerance vmin vmax : Q) (lower upper : Q)
  : Prop :=
  lower == Qmax (vmin - Qmax abs_tolerance (vmin * pct_tolerance / inject_Z 100)) 0
  /\ upper == vmax + Qmax abs_tolerance (vmax * pct_tolerance / inject_Z 100).

Lemma lower_upper_band (a p vmin vmax : Q) :
  band_of a p vmin vmax (Nearest.lower_of a p vmin) (Nearest.upper_of a p vmax).
Proof.
  unfold band_of, Nearest.lower_of, Nearest.upper_of, Nearest.margin. split.
  - rewrite max_Qmax. rewrite (max_Qmax a). reflexivity.
  - rewrite max_Qmax. reflexivity.
Qed.

(** [values] are the dependent values of the selected reference points;
    [vmin] and [vmax] are the smallest and the largest of them. *)
Definition extremes (values : list Q) (vmin vmax : Q) : Prop :=
  In vmin values /\ In vmax values /\
  forall v, In v values -> vmin <= v /\ v <= vmax.

Lemma getitem_nth {A} (l : list A) (i : nat) (d : A) :
  (i < List.length l)%nat -> getitem l i = Ret (nth i l d).
Proof.
  intros H. unfold getitem.
  destruct (nth_error l i) as [a|] eqn:E.
  - now rewrite (nth_error_nth _ _ d E).
  - apply nth_error_None in E. lia.
Qed.

Lemma getlast_nonempty {A} (l : list A) :
  l <> [] -> exists x, getlast l = Ret x.
Proof.
  destruct l as [|a l]; [congruence|]. intros _. simpl. eauto.
Qed.

(** Reading the reference values at the selected indices. *)
Lemma reference_values (thr : list Q) (indeces : list nat) :
  (forall i, In i indeces -> (i < List.length thr)%nat) ->
  comprehension
    (fun index => bind (getkey (Some thr)) (fun thr => getitem thr index))
    indeces
  = Ret (map (fun i => nth i thr 0) indeces).
Proof.
  intros H. apply comprehension_total. intros i Hi. simpl.
  apply getitem_nth. now apply H.
Qed.

(** The smallest and largest value of a sorted, non-empty selection. *)
Lemma sort_extremes (values : list Q) (c0 clast : Q) :
  getitem (sort values) 0 = Ret c0 ->
  getlast (sort values) = Ret clast ->
  extremes values c0 clast.
Proof.
  intros H0 Hl. unfold getitem in H0.
  destruct (nth_error (sort values) 0) as [x|] eqn:E; [|discriminate].
  injection H0 as ->.
  destruct (ascending_head _ _ (sort_ascending values) E) as [Hin0 Hmin].
  destruct (ascending_last _ _ (sort_ascending values) Hl) as [Hinl Hmax].
  unfold extremes. split; [now apply sort_In|]. split; [now apply sort_In|].
  intros v Hv. apply sort_In in Hv. split; [now apply Hmin | now apply Hmax].
Qed.

Section BandOfPoint.
Import Nearest.
Variables (abs_tolerance pct_tolerance : Q).
Variables (current_att : Q) (reference : list Q) (thr : list Q).
Hypothesis thr_long : (List.length reference <= List.length thr)%nat.

(** The dependent values of the [k] selected reference points. *)
Definition selected_values (k : nat) : list Q :=
  map (fun i => nth i thr 0)
    (closest_indeces k (att_distances current_att reference)).

Lemma selected_values_read (k : nat) :
  comprehension
    (fun index => bind (getkey (Some thr)) (fun thr => getitem thr index))
    (closest_indeces k (att_distances current_att reference))
  = Ret (selected_values k).
Proof.
  apply reference_values. intros i Hi.
  destruct (closest_indeces_spec current_att reference k) as (_ & _ & Hlt & _).
  specialize (Hlt i Hi). lia.
Qed.

Lemma selected_values_length (k : nat) :
  List.length (selected_values k) = Nat.min k (List.length reference).
Proof.
  unfold selected_values. rewrite length_map.
  apply (closest_indeces_spec current_att reference k).
Qed.

End BandOfPoint.

Lemma getitem_Some {A} (l : list A) (i : nat) (a : A) :
  nth_error l i = Some a -> getitem l i = Ret a.
Proof. unfold getitem. now intros ->. Qed.

Lemma rvr_point_range_band (tp : WifiRvrTest.test_params)
    (g : WifiRvrTest.gldn_results) (gldn_att : list Q)
    (r : WifiRvrTest.rvr_result) (idx : nat) (att : Q) (thr : list Q) :
  nth_error (WifiRvrTest.attenuation r) idx = Some att ->
  WifiRvrTest.gldn_throughput_receive_key g = Some thr ->
  (List.length gldn_att <= List.length thr)%nat ->
  (2 <= List.length gldn_att)%nat ->
  let current_att := att + WifiRvrTest.fixed_attenuation r in
  exists vmin vmax,
    extremes (selected_values current_att gldn_att thr 2) vmin vmax /\
    WifiRvrTest.point_range tp g gldn_att r idx =
      Ret (current_att,
           (Nearest.lower_of (WifiRvrTest.abs_tolerance tp)
              (WifiRvrTest.pct_tolerance tp) vmin,
            Nearest.upper_of (WifiRvrTest.abs_tolerance tp)
              (WifiRvrTest.pct_tolerance tp) vmax)).
Proof.
  intros Hatt Hkey Hlen H2 current_att.
  pose proof (selected_values_length current_att gldn_att thr 2) as Hl.
  rewrite Nat.min_l in Hl by exact H2.
  rewrite <- sort_length in Hl.
  destruct (sort (selected_values current_att gldn_att thr 2))
    as [|c0 [|c1 [|c2 rest]]] eqn:Es; try discriminate Hl.
  exists c0, c1. split.
  - apply sort_extremes; rewrite Es; reflexivity.
  - unfold WifiRvrTest.point_range.
    rewrite (getitem_Some _ _ _ Hatt). cbn [bind]. fold current_att.
    unfold WifiRvrTest.closest_throughputs. rewrite Hkey.
    rewrite (selected_values_read current_att gldn_att thr Hlen 2).
    cbn [bind]. rewrite Es. reflexivity.
Qed.

Lemma coex_point_limits_band (tp : CoexPerformanceBaseTest.test_params)
    (pd : CoexPerformanceBaseTest.performance_dict) (reference : list Q)
    (e : CoexPerformanceBaseTest.rvr_entry) (idx : nat) (att : Q)
    (thr : list Q) :
  nth_error (CoexPerformanceBaseTest.attenuation e) idx = Some att ->
  CoexPerformanceBaseTest.perf_throughput_received_key pd = Some thr ->
  (List.length reference <= List.length thr)%nat ->
  (1 <= List.length reference)%nat ->
  let current_att := att + CoexPerformanceBaseTest.fixed_attenuation e in
  exists vmin vmax,
    extremes (selected_values current_att reference thr 3) vmin vmax /\
    CoexPerformanceBaseTest.point_limits tp pd (Some reference) e idx =
      Ret (current_att,
           (Nearest.lower_of (CoexPerformanceBaseTest.abs_tolerance tp)
              (CoexPerformanceBaseTest.pct_tolerance tp) vmin,
            Nearest.upper_of (CoexPerformanceBaseTest.abs_tolerance tp)
              (CoexPerformanceBaseTest.pct_tolerance tp) vmax)).
Proof.
  intros Hatt Hkey Hlen H1 current_att.
  pose proof (selected_values_length current_att reference thr 3) as Hl.
  rewrite <- sort_length in Hl.
  destruct (sort (selected_values current_att reference thr 3))
    as [|c0 rest] eqn:Es.
  { cbn [List.length] in Hl. lia. }
  exists c0, (last rest c0). split.
  - apply sort_extremes; rewrite Es; reflexivity.
  - unfold CoexPerformanceBaseTest.point_limits.
    rewrite (getitem_Some _ _ _ Hatt). cbn [bind]. fold current_att.
    unfold CoexPerformanceBaseTest.iterate. cbn [bind].
    unfold CoexPerformanceBaseTest.closest_throughputs. rewrite Hkey.
    rewrite (selected_values_read current_att reference thr Hlen 3).
    cbn [bind]. rewrite Es. reflexivity.
Qed.

(** C1.  For a sweep point that is compared (its attenuation is recorded,
    and the reference has a throughput for each of its attenuations and
    enough points: two for RvR, one for coexistence), both comparators
    return the band

      lower = max(vmin - max(abs_tolerance, vmin * pct_tolerance / 100), 0)
      upper = vmax + max(abs_tolerance, vmax * pct_tolerance / 100)

    where [vmin] and [vmax] are the smallest and the largest dependent value
    of the selected nearest reference points ([k = 2] for RvR, [k = 3] for
    coexistence). *)
Theorem tolerance_band_formula :
  (forall (tp : WifiRvrTest.test_params) (g : WifiRvrTest.gldn_results)
          (gldn_att : list Q) (r : WifiRvrTest.rvr_result) (idx : nat)
          (att : Q) (thr : list Q),
      nth_error (WifiRvrTest.attenuation r) idx = Some att ->
      WifiRvrTest.gldn_throughput_receive_key g = Some thr ->
      (List.length gldn_att <= List.length thr)%nat ->
      (2 <= List.length gldn_att)%nat ->
      let current_att := att + WifiRvrTest.fixed_attenuation r in
      exists vmin vmax lower upper,
        extremes (selected_values current_att gldn_att thr 2) vmin vmax /\
        WifiRvrTest.point_range tp g gldn_att r idx =
          Ret (current_att, (lower, upper)) /\
        band_of (WifiRvrTest.abs_tolerance tp) (WifiRvrTest.pct_tolerance tp)
          vmin vmax lower upper)
  /\
  (forall (tp : CoexPerformanceBaseTest.test_params)
          (pd : CoexPerformanceBaseTest.performance_dict) (reference : list Q)
          (e : CoexPerformanceBaseTest.rvr_entry) (idx : nat)
          (att : Q) (thr : list Q),
      nth_error (CoexPerformanceBaseTest.attenuation e) idx = Some att ->
      CoexPerformanceBaseTest.perf_throughput_received_key pd = Some thr ->
      (List.length reference <= List.length thr)%nat ->
      (1 <= List.length reference)%nat ->
      let current_att := att + CoexPerformanceBaseTest.fixed_attenuation e in
      exists vmin vmax lower upper,
        extremes (selected_values current_att reference thr 3) vmin vmax /\
        CoexPerformanceBaseTest.point_limits tp pd (Some reference) e idx =
          Ret (current_att, (lower, upper)) /\
        band_of (CoexPerformanceBaseTest.abs_tolerance tp)
          (CoexPerformanceBaseTest.pct_tolerance tp) vmin vmax lower upper).
Proof.
  split.
  - intros tp g gldn_att r idx att thr Hatt Hkey Hlen H2 current_att.
    destruct (rvr_point_range_band tp g gldn_att r idx att thr Hatt Hkey Hlen H2)
      as (vmin & vmax & Hext & Hrange).
    exists vmin, vmax. eexists. eexists.
    split; [exact Hext|]. split; [exact Hrange|]. apply lower_upper_band.
  - intros tp pd reference e idx att thr Hatt Hkey Hlen H1 current_att.
    destruct (coex_point_limits_band tp pd reference e idx att thr Hatt Hkey Hlen H1)
      as (vmin & vmax & Hext & Hlim).
    exists vmin, vmax. eexists. eexists.
    split; [exact Hext|]. split; [exact Hlim|]. apply lower_upper_band.
Qed.

(** ** The per-point decision *)

(** The reference sweep of the specification's first scenario: attenuations
    0, 10, 20 dB with throughputs 100, 80, 50 Mbps, tolerances 5 Mbps and
    10 percent, and one new point at 10 dB. *)
Module Scenario.
Import WifiRvrTest.

Definition params : test_params :=
  {| abs_tolerance := 5; pct_tolerance := 10 |}.

Definition golden : gldn_results :=
  {| gldn_attenuation_key := Some [0; 10; 20];
     gldn_fixed_attenuation_key := Some 0;
     gldn_throughput_receive_key := Some [100; 80; 50] |}.

Definition sweep (measured : Q) : rvr_result :=
  {| attenuation := [10]; fixed_attenuation := 0;
     throughput_receive := [measured] |}.

End Scenario.

Example scenario_in_band :
  WifiRvrTest.pass_fail_check Scenario.params (Json Scenario.golden)
    (Scenario.sweep 75) = Raise TestPass.
Proof. reflexivity. Qed.

Example scenario_out_of_band :
  WifiRvrTest.pass_fail_check Scenario.params (Json Scenario.golden)
    (Scenario.sweep 60) = Raise (TestFailure 10 60 (7200 # 100, 11000 # 100)).
Proof. reflexivity. Qed.




Lemma rvr_check_point_decision (tp : WifiRvrTest.test_params)
    (g : WifiRvrTest.gldn_results) (gldn_att : list Q)
    (r : WifiRvrTest.rvr_result) (idx : nat) (current current_att lower upper : Q) :
  WifiRvrTest.point_range tp g gldn_att r idx = Ret (current_att, (lower, upper)) ->
  WifiRvrTest.check_point tp g gldn_att r idx current =
    if WifiRvrTest.beyond_limits tp (lower, upper) current
    then Raise (TestFailure current_att current (lower, upper))
    else Ret tt.
Proof.
  intros H. unfold WifiRvrTest.check_point. rewrite H. reflexivity.
Qed.

Lemma coex_check_point_decision (e : CoexPerformanceBaseTest.rvr_entry)
    (l : CoexPerformanceBaseTest.limits) (failure_count : Z) (idx : nat)
    (current att lower upper : Q) :
  nth_error (CoexPerformanceBaseTest.attenuation e) idx = Some att ->
  nth_error (CoexPerformanceBaseTest.lower_limit l) idx = Some lower ->
  nth_error (CoexPerformanceBaseTest.upper_limit l) idx = Some upper ->
  CoexPerformanceBaseTest.check_point e (Some l) failure_count idx current =
    if CoexPerformanceBaseTest.outside_limits lower upper current
    then ([CoexPerformanceBaseTest.InfoBeyondLimits
             (att + CoexPerformanceBaseTest.fixed_attenuation e)
             current lower upper],
          Ret (failure_count + 1)%Z)
    else ([], Ret failure_count).
Proof.
  intros Ha Hl Hu. unfold CoexPerformanceBaseTest.check_point.
  rewrite (getitem_Some _ _ _ Ha).
  unfold CoexPerformanceBaseTest.lbind, CoexPerformanceBaseTest.lift.
  cbn [fst snd getkey bind].
  rewrite (getitem_Some _ _ _ Hl). cbn [fst snd].
  rewrite (getitem_Some _ _ _ Hu). cbn [fst snd app].
  destruct (CoexPerformanceBaseTest.outside_limits lower upper current);
    reflexivity.
Qed.


(** ** Aggregation over the sweep: RvR *)

Section RvrAggregate.
Import WifiRvrTest.
Variables (tp : test_params) (g : gldn_results) (gldn_att : list Q) (r : rvr_result).

(** Point [idx] with measured value [current] is beyond the limits. *)
Definition rvr_point_fails (idx : nat) (current : Q) : Prop :=
  exists current_att range,
    point_range tp g gldn_att r idx = Ret (current_att, range) /\
    beyond_limits tp range current = true.

(** The band of every point of the list can be computed. *)
Definition rvr_comparable (points : list (nat * Q)) : Prop :=
  forall p, In p points ->
    exists current_att range,
      point_range tp g gldn_att r (fst p) = Ret (current_att, range).

Lemma check_points_pass (points : list (nat * Q)) :
  rvr_comparable points ->
  (forall p, In p points -> ~ rvr_point_fails (fst p) (snd p)) ->
  check_points tp g gldn_att r points = Ret tt.
Proof.
  induction points as [|[idx current] rest IH]; intros Hc Hn; [reflexivity|].
  cbn [check_points].
  destruct (Hc (idx, current) (or_introl eq_refl)) as (ca & [lo hi] & Hr).
  cbn [fst] in Hr.
  rewrite (rvr_check_point_decision _ _ _ _ _ current _ _ _ Hr).
  destruct (beyond_limits tp (lo, hi) current) eqn:E.
  - exfalso. apply (Hn (idx, current) (or_introl eq_refl)).
    exists ca, (lo, hi). auto.
  - cbn [bind]. apply IH.
    + intros p Hp. apply Hc. now right.
    + intros p Hp. apply Hn. now right.
Qed.

Lemma check_points_first_failure (before after : list (nat * Q))
    (idx : nat) (current current_att : Q) (range : Q * Q) :
  rvr_comparable before ->
  (forall p, In p before -> ~ rvr_point_fails (fst p) (snd p)) ->
  point_range tp g gldn_att r idx = Ret (current_att, range) ->
  beyond_limits tp range current = true ->
  check_points tp g gldn_att r (before ++ (idx, current) :: after) =
    Raise (TestFailure current_att current range).
Proof.
  intros Hc Hn Hr Hb.
  induction before as [|[i c] rest IH]; cbn [app check_points].
  - destruct range as [lo hi].
    rewrite (rvr_check_point_decision _ _ _ _ _ current _ _ _ Hr), Hb.
    reflexivity.
  - destruct (Hc (i, c) (or_introl eq_refl)) as (ca & [lo hi] & Hr').
    cbn [fst] in Hr'.
    rewrite (rvr_check_point_decision _ _ _ _ _ c _ _ _ Hr').
    destruct (beyond_limits tp (lo, hi) c) eqn:E.
    + exfalso. apply (Hn (i, c) (or_introl eq_refl)).
      exists ca, (lo, hi). auto.
    + cbn [bind]. apply IH.
      * intros p Hp. apply Hc. now right.
      * intros p Hp. apply Hn. now right.
Qed.

Lemma rvr_point_fails_dec (idx : nat) (current : Q) :
  rvr_point_fails idx current \/ ~ rvr_point_fails idx current.
Proof.
  unfold rvr_point_fails.
  destruct (point_range tp g gldn_att r idx) as [[ca range]|e] eqn:Hr.
  - destruct (beyond_limits tp range current) eqn:E.
    + left. eauto.
    + right. intros (ca' & range' & H & Hb). injection H as <- <-. congruence.
  - right. intros (ca' & range' & H & _). discriminate.
Qed.

(** A list with a failing point splits at its first failing point. *)
Lemma first_failing_point (points : list (nat * Q)) :
  (exists p, In p points /\ rvr_point_fails (fst p) (snd p)) ->
  exists before p after,
    points = before ++ p :: after /\
    rvr_point_fails (fst p) (snd p) /\
    forall q, In q before -> ~ rvr_point_fails (fst q) (snd q).
Proof.
  induction points as [|q rest IH]; intros (p & Hin & Hf); [contradiction|].
  destruct (rvr_point_fails_dec (fst q) (snd q)) as [Hq|Hq].
  - exists [], q, rest. split; [reflexivity|]. split; [exact Hq|].
    intros ? [].
  - destruct IH as (before & p' & after & -> & Hf' & Hb).
    + destruct Hin as [->|Hin]; [contradiction|]. eauto.
    + exists (q :: before), p', after. split; [reflexivity|].
      split; [exact Hf'|]. intros q' [<-|Hq']; auto.
Qed.

End RvrAggregate.

(** ** Aggregation over the sweep: coexistence *)

Section CoexAggregate.
Import CoexPerformanceBaseTest.

Lemma snd_lbind {A B} (m : logged A) (f : A -> logged B) :
  snd (lbind m f) =
  match snd m with
  | Ret a => snd (f a)
  | Raise e => Raise e
  end.
Proof. unfold lbind. destruct (snd m); reflexivity. Qed.

Lemma fst_lbind {A B} (m : logged A) (f : A -> logged B) :
  fst (lbind m f) =
  match snd m with
  | Ret a => fst m ++ fst (f a)
  | Raise e => fst m
  end.
Proof. unfold lbind. destruct (snd m); reflexivity. Qed.

(** The point lies outside the limits recorded for its index. *)
Definition out_of_band (l : limits) (p : nat * Q) : bool :=
  match nth_error (lower_limit l) (fst p), nth_error (upper_limit l) (fst p) with
  | Some lower, Some upper => outside_limits lower upper (snd p)
  | _, _ => false
  end.

(** The number of points of the list outside their limits. *)
Definition failures (l : limits) (points : list (nat * Q)) : Z :=
  Z.of_nat (List.length (filter (out_of_band l) points)).

(** Every point of the list has an attenuation and limits recorded. *)
Definition checkable (e : rvr_entry) (l : limits) (points : list (nat * Q))
  : Prop :=
  forall p, In p points ->
    (fst p < List.length (attenuation e))%nat /\
    (fst p < List.length (lower_limit l))%nat /\
    (fst p < List.length (upper_limit l))%nat.

Lemma failures_nonneg (l : limits) (points : list (nat * Q)) :
  (0 <= failures l points)%Z.
Proof. unfold failures. lia. Qed.

Lemma nth_error_lt {A} (l : list A) (i : nat) :
  (i < List.length l)%nat -> exists a, nth_error l i = Some a.
Proof.
  intros H. destruct (nth_error l i) as [a|] eqn:E; [eauto|].
  apply nth_error_None in E. lia.
Qed.

Lemma check_points_count (e : rvr_entry) (l : limits) (points : list (nat * Q)) :
  checkable e l points ->
  forall failure_count,
    snd (check_points e (Some l) failure_count points) =
      Ret (failure_count + failures l points)%Z.
Proof.
  induction points as [|[idx current] rest IH]; intros Hc failure_count.
  - cbn [check_points snd]. unfold failures. cbn. now rewrite Z.add_0_r.
  - destruct (Hc (idx, current) (or_introl eq_refl)) as (Ha & Hl & Hu).
    cbn [fst] in Ha, Hl, Hu.
    destruct (nth_error_lt _ _ Ha) as [att Hatt].
    destruct (nth_error_lt _ _ Hl) as [lower Hlower].
    destruct (nth_error_lt _ _ Hu) as [upper Hupper].
    cbn [check_points]. rewrite snd_lbind.
    rewrite (coex_check_point_decision _ _ failure_count _ current _ _ _
               Hatt Hlower Hupper).
    assert (Hrest : checkable e l rest) by (intros p Hp; apply Hc; now right).
    assert (Hoob : out_of_band l (idx, current) =
                   outside_limits lower upper current).
    { unfold out_of_band. cbn [fst snd]. now rewrite Hlower, Hupper. }
    unfold failures. cbn [filter]. rewrite Hoob.
    destruct (outside_limits lower upper current); cbn [snd].
    + rewrite (IH Hrest). unfold failures. cbn [List.length]. f_equal. lia.
    + rewrite (IH Hrest). reflexivity.
Qed.

(** The warning of the [except] clause is never logged by the loops. *)
Definition no_warning (log : list log_record) : Prop :=
  ~ In WarningNoPerformanceFile log.

Lemma check_point_no_warning (e : rvr_entry) (group : option limits)
    (failure_count : Z) (idx : nat) (current : Q) :
  no_warning (fst (check_point e group failure_count idx current)).
Proof.
  unfold check_point, no_warning, lift.
  rewrite fst_lbind. cbn [fst snd].
  destruct (getitem (attenuation e) idx); [|tauto].
  cbn [app]. rewrite fst_lbind. cbn [fst snd].
  destruct (bind (getkey group) _); [|tauto].
  cbn [app]. rewrite fst_lbind. cbn [fst snd].
  destruct (bind (getkey group) _); [|tauto].
  cbn [app]. destruct (outside_limits _ _ _); cbn [fst]; [|tauto].
  intros [H|[]]. discriminate.
Qed.

Lemma check_points_no_warning (e : rvr_entry) (group : option limits)
    (points : list (nat * Q)) :
  forall failure_count,
    no_warning (fst (check_points e group failure_count points)).
Proof.
  induction points as [|[idx current] rest IH]; intros failure_count.
  - cbn. unfold no_warning. tauto.
  - cbn [check_points]. rewrite fst_lbind.
    pose proof (check_point_no_warning e group failure_count idx current) as H.
    destruct (snd (check_point e group failure_count idx current)); [|exact H].
    unfold no_warning in *. rewrite in_app_iff. intros [H'|H']; [tauto|].
    exact (IH _ H').
Qed.

Lemma check_groups_no_warning (s : self) (tl : Z -> option limits)
    (range : list Z) :
  forall failure_count,
    no_warning (fst (check_groups s tl failure_count range)).
Proof.
  induction range as [|bt rest IH]; intros failure_count.
  - cbn. unfold no_warning. tauto.
  - cbn [check_groups]. unfold lift. rewrite fst_lbind. cbn [fst snd].
    destruct (getkey (rvr s bt)) as [e|]; [|unfold no_warning; tauto].
    cbn [app]. rewrite fst_lbind.
    pose proof (check_points_no_warning e (tl bt)
                  (enumerate (throughput_received e)) failure_count) as H.
    destruct (snd (check_points e (tl bt) failure_count
                     (enumerate (throughput_received e)))) as [c|];
      [|exact H].
    unfold no_warning in *. rewrite in_app_iff. intros [H'|H']; [tauto|].
    destruct (c >=? failure_count_tolerance (params s))%Z.
    + cbn [fst] in H'. destruct H' as [H'|[]]. discriminate.
    + rewrite fst_lbind in H'. cbn [fst snd] in H'.
      destruct H' as [H'|H']; [discriminate|]. exact (IH _ H').
Qed.

(** The group of [bt_atten] can be checked against [tl]. *)
Definition group_checkable (s : self) (tl : Z -> option limits) (bt_atten : Z)
  : Prop :=
  exists e l,
    rvr s bt_atten = Some e /\ tl bt_atten = Some l /\
    checkable e l (enumerate (throughput_received e)).

(** The number of points of the group of [bt_atten] outside their limits. *)
Definition group_failures (s : self) (tl : Z -> option limits) (bt_atten : Z)
  : Z :=
  match rvr s bt_atten, tl bt_atten with
  | Some e, Some l => failures l (enumerate (throughput_received e))
  | _, _ => 0%Z
  end.

(** The failures accumulated over the groups of [range]. *)
Fixpoint total_failures (s : self) (tl : Z -> option limits) (range : list Z)
  : Z :=
  match range with
  | [] => 0%Z
  | bt_atten :: rest => (group_failures s tl bt_atten + total_failures s tl rest)%Z
  end.

Lemma group_failures_nonneg (s : self) (tl : Z -> option limits) (bt : Z) :
  (0 <= group_failures s tl bt)%Z.
Proof.
  unfold group_failures. destruct (rvr s bt), (tl bt);
    try apply failures_nonneg; lia.
Qed.

Lemma total_failures_nonneg (s : self) (tl : Z -> option limits) (range : list Z) :
  (0 <= total_failures s tl range)%Z.
Proof.
  induction range as [|bt rest IH]; cbn [total_failures]; [lia|].
  pose proof (group_failures_nonneg s tl bt). lia.
Qed.

Lemma check_groups_verdict (s : self) (tl : Z -> option limits) (range : list Z) :
  (forall bt, In bt range -> group_checkable s tl bt) ->
  forall failure_count,
    snd (check_groups s tl failure_count range) =
      Ret (match range with
           | [] => None
           | _ :: _ =>
               if (failure_count + total_failures s tl range
                   >=? failure_count_tolerance (params s))%Z
               then Some false else None
           end).
Proof.
  induction range as [|bt rest IH]; intros Hc failure_count; [reflexivity|].
  destruct (Hc bt (or_introl eq_refl)) as (e & l & He & Hl & Hck).
  cbn [check_groups total_failures]. unfold lift.
  rewrite snd_lbind. cbn [snd]. rewrite He. cbn [getkey].
  rewrite snd_lbind. rewrite Hl. rewrite (check_points_count e l _ Hck).
  unfold group_failures. rewrite He, Hl.
  set (f := failures l (enumerate (throughput_received e))).
  pose proof (total_failures_nonneg s tl rest) as Hnn.
  destruct (failure_count + f >=? failure_count_tolerance (params s))%Z eqn:E.
  - cbn [snd].
    replace (failure_count + (f + total_failures s tl rest)
             >=? failure_count_tolerance (params s))%Z with true; [reflexivity|].
    symmetry. apply Z.geb_le. apply Z.geb_le in E. lia.
  - rewrite snd_lbind. cbn [snd].
    rewrite IH by (intros b Hb; apply Hc; now right).
    destruct rest as [|bt' rest'].
    + cbn [total_failures]. rewrite Z.add_0_r. rewrite E. reflexivity.
    + rewrite Z.add_assoc. reflexivity.
Qed.

End CoexAggregate.

(** ** What [get_throughput_limits] returns *)

Section CoexLimits.
Import CoexPerformanceBaseTest.

Lemma Forall2_In_l {A B} (R : A -> B -> Prop) (l : list A) (l' : list B) (x : A) :
  Forall2 R l l' -> In x l -> exists y, In y l' /\ R x y.
Proof.
  induction 1 as [|a b l l' Hab H IH]; intros Hin; [contradiction|].
  destruct Hin as [<-|Hin].
  - exists b. split; [now left|exact Hab].
  - destruct (IH Hin) as (y & Hy & Hr). exists y. split; [now right|exact Hr].
Qed.

Lemma enumerate_index_lt {A} (l : list A) (p : nat * A) :
  In p (enumerate l) -> (fst p < List.length l)%nat.
Proof.
  destruct p as [i x]. intros H. apply enumerate_In in H.
  cbn [fst]. apply nth_error_Some. congruence.
Qed.

Lemma getitem_Ret_lt {A} (l : list A) (i : nat) (a : A) :
  getitem l i = Ret a -> (i < List.length l)%nat.
Proof.
  unfold getitem. destruct (nth_error l i) eqn:E; [|discriminate].
  intros _. apply nth_error_Some. congruence.
Qed.

Lemma point_limits_attenuation (tp : test_params) (pd : performance_dict)
    (pa : option (list Q)) (e : rvr_entry) (idx : nat) (row : Q * (Q * Q)) :
  point_limits tp pd pa e idx = Ret row ->
  (idx < List.length (attenuation e))%nat.
Proof.
  unfold point_limits. intros H.
  destruct (getitem (attenuation e) idx) as [att|] eqn:E; [|discriminate].
  exact (getitem_Ret_lt _ _ _ E).
Qed.

Lemma group_limits_checkable (s : self) (results : performance_results)
    (bt : Z) (l : limits) :
  group_limits s results bt = Ret l ->
  exists e, rvr s bt = Some e /\
            checkable e l (enumerate (throughput_received e)).
Proof.
  unfold group_limits. intros H.
  destruct (getkey (results bt)) as [pd|]; [|discriminate]. cbn [bind] in H.
  destruct (total_attenuation (params s) pd) as [pa|]; [|discriminate].
  cbn [bind] in H.
  destruct (rvr s bt) as [e|]; [|discriminate]. cbn [getkey bind] in H.
  destruct (comprehension _ (enumerate (throughput_received e))) as [rows|] eqn:Er;
    [|discriminate].
  cbn [bind] in H. injection H as <-.
  exists e. split; [reflexivity|].
  apply comprehension_Ret in Er.
  pose proof (Forall2_length_eq _ _ _ Er) as Hlen.
  unfold enumerate in Hlen. rewrite enumerate_from_length in Hlen.
  intros p Hp. cbn [lower_limit upper_limit]. rewrite !length_map.
  pose proof (enumerate_index_lt _ _ Hp) as Hlt.
  destruct (Forall2_In_l _ _ _ _ Er Hp) as (row & _ & Hrow).
  apply point_limits_attenuation in Hrow.
  repeat split; [exact Hrow | lia | lia].
Qed.

Lemma limits_loop_outside (s : self) (results : performance_results)
    (range : list Z) (bt : Z) :
  ~ In bt range ->
  forall acc tl,
    limits_loop s results range acc = Ret tl -> tl bt = acc bt.
Proof.
  induction range as [|b rest IH]; intros Hn acc tl H.
  - cbn in H. now injection H as <-.
  - cbn [limits_loop] in H.
    destruct (group_limits s results b) as [l|]; [|discriminate].
    cbn [bind] in H. rewrite (IH (fun Hin => Hn (or_intror Hin)) _ _ H).
    unfold setitem. destruct (Z.eqb_spec bt b) as [->|_]; [|reflexivity].
    exfalso. apply Hn. now left.
Qed.

Lemma limits_loop_inside (s : self) (results : performance_results)
    (range : list Z) (bt : Z) :
  In bt range ->
  forall acc tl,
    limits_loop s results range acc = Ret tl ->
    exists l, tl bt = Some l /\ group_limits s results bt = Ret l.
Proof.
  induction range as [|b rest IH]; intros Hin acc tl H; [contradiction|].
  cbn [limits_loop] in H.
  destruct (group_limits s results b) as [l|] eqn:Eg; [|discriminate].
  cbn [bind] in H.
  destruct (in_dec Z.eq_dec bt rest) as [Hr|Hr].
  - exact (IH Hr _ _ H).
  - destruct Hin as [->|Hin]; [|contradiction].
    exists l. split; [|exact Eg].
    rewrite (limits_loop_outside _ _ _ _ Hr _ _ H).
    unfold setitem. now rewrite Z.eqb_refl.
Qed.

Lemma get_throughput_limits_checkable (s : self) (fs : filesystem)
    (path : string) (tl : Z -> option limits) :
  get_throughput_limits s fs path = Ret tl ->
  forall bt, In bt (bt_atten_range s) -> group_checkable s tl bt.
Proof.
  unfold get_throughput_limits. intros H bt Hin.
  destruct (load (fs path)) as [results|]; [|discriminate]. cbn [bind] in H.
  destruct (limits_loop_inside _ _ _ _ Hin _ _ H) as (l & Hl & Hg).
  destruct (group_limits_checkable _ _ _ _ Hg) as (e & He & Hc).
  exists e, l. auto.
Qed.

(** The baseline of the current test was found and its limits computed. *)
Definition reference_available (s : self) (fs : filesystem)
    (tl : Z -> option limits) : Prop :=
  exists files path,
    performance_files_list s = Some files /\
    nth_error (filter (fun file_name => contains (current_test_name s) file_name)
                 files) 0 = Some path /\
    get_throughput_limits s fs path = Ret tl.

Lemma lbind_lift_Ret {A B} (a : A) (f : A -> logged B) :
  lbind (lift (Ret a)) f = f a.
Proof. unfold lbind, lift. cbn [fst snd app]. now destruct (f a). Qed.

Lemma lbind_lift_Raise {A B} (e : exn) (f : A -> logged B) :
  lbind (lift (Raise e)) f = ([], Raise e).
Proof. reflexivity. Qed.

Lemma try_body_available (s : self) (fs : filesystem) (tl : Z -> option limits) :
  reference_available s fs tl ->
  try_body s fs = check_groups s tl 0%Z (bt_atten_range s).
Proof.
  intros (files & path & Hf & Hp & Hl). unfold try_body.
  rewrite Hf. cbn [getattr]. rewrite lbind_lift_Ret.
  rewrite (getitem_Some _ _ _ Hp), lbind_lift_Ret.
  rewrite Hl, lbind_lift_Ret. reflexivity.
Qed.

Lemma throughput_pass_fail_check_available (s : self) (fs : filesystem)
    (tl : Z -> option limits) :
  reference_available s fs tl ->
  snd (throughput_pass_fail_check s fs) =
    match bt_atten_range s with
    | [] => None
    | _ :: _ =>
        if (total_failures s tl (bt_atten_range s)
            >=? failure_count_tolerance (params s))%Z
        then Some false else None
    end
  /\ no_warning (fst (throughput_pass_fail_check s fs)).
Proof.
  intros Hav. unfold throughput_pass_fail_check.
  rewrite (try_body_available _ _ _ Hav).
  assert (Hc : forall bt, In bt (bt_atten_range s) -> group_checkable s tl bt).
  { destruct Hav as (files & path & _ & _ & Hl).
    exact (get_throughput_limits_checkable _ _ _ _ Hl). }
  pose proof (check_groups_verdict s tl (bt_atten_range s) Hc 0%Z) as Hv.
  pose proof (check_groups_no_warning s tl (bt_atten_range s) 0%Z) as Hw.
  rewrite Hv. cbn [snd fst]. split; [|exact Hw].
  destruct (bt_atten_range s); reflexivity.
Qed.

End CoexLimits.

(** ** Verdicts *)

Lemma rvr_fails_somewhere_dec (tp : WifiRvrTest.test_params)
    (g : WifiRvrTest.gldn_results) (gldn_att : list Q)
    (r : WifiRvrTest.rvr_result) (points : list (nat * Q)) :
  (exists p, In p points /\ rvr_point_fails tp g gldn_att r (fst p) (snd p)) \/
  (forall p, In p points -> ~ rvr_point_fails tp g gldn_att r (fst p) (snd p)).
Proof.
  induction points as [|q rest IH].
  - right. intros p [].
  - destruct (rvr_point_fails_dec tp g gldn_att r (fst q) (snd q)) as [Hq|Hq].
    + left. exists q. split; [now left|exact Hq].
    + destruct IH as [(p & Hin & Hp)|Hall].
      * left. exists p. split; [now right|exact Hp].
      * right. intros p [<-|Hp]; auto.
Qed.

Lemma pass_fail_check_loaded (tp : WifiRvrTest.test_params)
    (g : WifiRvrTest.gldn_results) (gldn_att : list Q)
    (r : WifiRvrTest.rvr_result) :
  WifiRvrTest.gldn_attenuation g = Ret gldn_att ->
  WifiRvrTest.pass_fail_check tp (Json g) r =
    bind (WifiRvrTest.check_points tp g gldn_att r
            (enumerate (WifiRvrTest.throughput_receive r)))
         (fun _ => Raise TestPass).
Proof.
  intros H. unfold WifiRvrTest.pass_fail_check. cbn [load bind].
  rewrite H. reflexivity.
Qed.

(** C4.  RvR: when the golden file is loaded and the band of every point can
    be computed, the check raises the failure signal exactly when at least
    one point is beyond its limits, the signal reports the first such point,
    and otherwise the pass signal is raised.  Coexistence: when the baseline
    is loaded and there is at least one bt-attenuation group, the check
    returns [False] exactly when the number of points outside their limits,
    accumulated over all groups, is greater than or equal to
    [failure_count_tolerance], and returns [None] otherwise. *)
Theorem aggregation_policies :
  (forall (tp : WifiRvrTest.test_params) (g : WifiRvrTest.gldn_results)
          (gldn_att : list Q) (r : WifiRvrTest.rvr_result),
      WifiRvrTest.gldn_attenuation g = Ret gldn_att ->
      rvr_comparable tp g gldn_att r
        (enumerate (WifiRvrTest.throughput_receive r)) ->
      let fails := rvr_point_fails tp g gldn_att r in
      let points := enumerate (WifiRvrTest.throughput_receive r) in
      let verdict := WifiRvrTest.pass_fail_check tp (Json g) r in
      ((exists p, In p points /\ fails (fst p) (snd p)) <->
       (exists current_att current range,
           verdict = Raise (TestFailure current_att current range))) /\
      ((forall p, In p points -> ~ fails (fst p) (snd p)) <->
       verdict = Raise TestPass) /\
      (forall before idx current after current_att range,
          points = before ++ (idx, current) :: after ->
          (forall q, In q before -> ~ fails (fst q) (snd q)) ->
          WifiRvrTest.point_range tp g gldn_att r idx = Ret (current_att, range) ->
          WifiRvrTest.beyond_limits tp range current = true ->
          verdict = Raise (TestFailure current_att current range)))
  /\
  (forall (s : CoexPerformanceBaseTest.self)
          (fs : CoexPerformanceBaseTest.filesystem)
          (tl : Z -> option CoexPerformanceBaseTest.limits),
      reference_available s fs tl ->
      CoexPerformanceBaseTest.bt_atten_range s <> [] ->
      let reached :=
        (CoexPerformanceBaseTest.failure_count_tolerance
           (CoexPerformanceBaseTest.params s)
         <= total_failures s tl (CoexPerformanceBaseTest.bt_atten_range s))%Z in
      let verdict := snd (CoexPerformanceBaseTest.throughput_pass_fail_check s fs) in
      (verdict = Some false <-> reached) /\
      (verdict = None <-> ~ reached)).
Proof.
  split.
  - intros tp g gldn_att r Hg Hc fails points verdict.
    assert (Hfirst : forall before idx current after current_att range,
               points = before ++ (idx, current) :: after ->
               (forall q, In q before -> ~ fails (fst q) (snd q)) ->
               WifiRvrTest.point_range tp g gldn_att r idx =
                 Ret (current_att, range) ->
               WifiRvrTest.beyond_limits tp range current = true ->
               verdict = Raise (TestFailure current_att current range)).
    { intros before idx current after ca range Hsplit Hb Hr Hbl.
      subst verdict. rewrite (pass_fail_check_loaded _ _ _ _ Hg).
      fold points. rewrite Hsplit.
      rewrite (check_points_first_failure tp g gldn_att r before after idx
                 current ca range); auto.
      intros p Hp. apply Hc. fold points. rewrite Hsplit.
      apply in_or_app. now left. }
    assert (Hpass : (forall p, In p points -> ~ fails (fst p) (snd p)) ->
                    verdict = Raise TestPass).
    { intros Hn. subst verdict. rewrite (pass_fail_check_loaded _ _ _ _ Hg).
      fold points. now rewrite (check_points_pass tp g gldn_att r points Hc Hn). }
    assert (Hfail : (exists p, In p points /\ fails (fst p) (snd p)) ->
                    exists current_att current range,
                      verdict = Raise (TestFailure current_att current range)).
    { intros Hex.
      destruct (first_failing_point tp g gldn_att r points Hex)
        as (before & [idx current] & after & Hsplit & (ca & range & Hr & Hbl) & Hb).
      exists ca, current, range. eapply Hfirst; eauto. }
    split; [|split].
    + split; [exact Hfail|]. intros (ca & c & range & Hv).
      destruct (rvr_fails_somewhere_dec tp g gldn_att r points) as [Hex|Hn];
        [exact Hex|].
      rewrite (Hpass Hn) in Hv. discriminate.
    + split; [exact Hpass|]. intros Hv p Hin Hp.
      destruct (Hfail (ex_intro _ p (conj Hin Hp))) as (ca & c & range & Hv').
      rewrite Hv in Hv'. discriminate.
    + exact Hfirst.
  - intros s fs tl Hav Hne reached verdict.
    destruct (throughput_pass_fail_check_available s fs tl Hav) as [Hv _].
    subst verdict reached. rewrite Hv.
    destruct (CoexPerformanceBaseTest.bt_atten_range s) as [|bt rest] eqn:Er;
      [congruence|].
    destruct (Z.geb_spec (total_failures s tl (bt :: rest))
                (CoexPerformanceBaseTest.failure_count_tolerance
                   (CoexPerformanceBaseTest.params s))) as [Hge|Hlt].
    + split; split; intros H; try reflexivity; try lia; try discriminate.
    + split; split; intros H; try reflexivity; try lia; try discriminate.
Qed.

(** C10.  With [failure_count_tolerance = 0], a loaded baseline and at
    least one bt-attenuation group, the coexistence check returns [False]
    whatever the measured values are, also when no point is outside its
    limits. *)
Theorem zero_failure_count_tolerance_always_fails
    (s : CoexPerformanceBaseTest.self) (fs : CoexPerformanceBaseTest.filesystem)
    (tl : Z -> option CoexPerformanceBaseTest.limits) :
  CoexPerformanceBaseTest.failure_count_tolerance
    (CoexPerformanceBaseTest.params s) = 0%Z ->
  reference_available s fs tl ->
  CoexPerformanceBaseTest.bt_atten_range s <> [] ->
  snd (CoexPerformanceBaseTest.throughput_pass_fail_check s fs) = Some false.
Proof.
  intros Htol Hav Hne.
  destruct (throughput_pass_fail_check_available s fs tl Hav) as [Hv _].
  rewrite Hv, Htol.
  destruct (CoexPerformanceBaseTest.bt_atten_range s) as [|bt rest] eqn:Er;
    [congruence|].
  pose proof (total_failures_nonneg s tl (bt :: rest)) as Hnn.
  destruct (Z.geb_spec (total_failures s tl (bt :: rest)) 0); [reflexivity|lia].
Qed.

(** ** A baseline that cannot be read *)

Lemma gldn_attenuation_raises (g : WifiRvrTest.gldn_results) (e : exn) :
  WifiRvrTest.gldn_attenuation g = Raise e -> e = KeyError.
Proof.
  unfold WifiRvrTest.gldn_attenuation.
  destruct (WifiRvrTest.gldn_attenuation_key g) as [atts|]; cbn [getkey bind].
  - induction atts as [|a atts IH]; cbn [comprehension]; [discriminate|].
    destruct (WifiRvrTest.gldn_fixed_attenuation_key g) as [f|];
      cbn [getkey bind] in *.
    + destruct (comprehension _ atts); cbn [bind]; [discriminate|exact IH].
    + now intros [= <-].
  - now intros [= <-].
Qed.

(** The golden file of an RvR test cannot be used: it is missing, it is
    not JSON, or its attenuation entries cannot be read. *)
Definition golden_unavailable (gldn_file : file WifiRvrTest.gldn_results)
  : Prop :=
  gldn_file = Missing \/ gldn_file = Malformed \/
  exists g e, gldn_file = Json g /\ WifiRvrTest.gldn_attenuation g = Raise e.

Lemma pass_fail_check_unavailable (tp : WifiRvrTest.test_params)
    (gldn_file : file WifiRvrTest.gldn_results) (r : WifiRvrTest.rvr_result) :
  golden_unavailable gldn_file ->
  WifiRvrTest.pass_fail_check tp gldn_file r = Raise FileNotFoundError \/
  WifiRvrTest.pass_fail_check tp gldn_file r = Raise JSONDecodeError \/
  WifiRvrTest.pass_fail_check tp gldn_file r = Raise KeyError.
Proof.
  intros [->|[->|(g & e & -> & He)]]; [now left|right; now left|].
  right. right. unfold WifiRvrTest.pass_fail_check. cbn [load bind].
  rewrite He. apply gldn_attenuation_raises in He. now subst e.
Qed.

Section Unavailable.
Import CoexPerformanceBaseTest.

(** No baseline can be used for the current test: the list of baseline
    files was never set, no file name contains the test name, or the first
    matching file is missing, is not JSON, or lacks what
    [get_throughput_limits] reads from it. *)
Definition reference_unavailable (s : self) (fs : filesystem) : Prop :=
  performance_files_list s = None \/
  (exists files,
      performance_files_list s = Some files /\
      filter (fun file_name => contains (current_test_name s) file_name) files
        = []) \/
  (exists files path rest,
      performance_files_list s = Some files /\
      filter (fun file_name => contains (current_test_name s) file_name) files
        = path :: rest /\
      (fs path = Missing \/ fs path = Malformed \/
       exists e, get_throughput_limits s fs path = Raise e)).

Lemma throughput_pass_fail_check_unavailable (s : self) (fs : filesystem) :
  reference_unavailable s fs ->
  throughput_pass_fail_check s fs = ([WarningNoPerformanceFile], None).
Proof.
  unfold throughput_pass_fail_check, try_body.
  intros [Hn|[(files & Hf & He)|(files & path & rest & Hf & He & Hm)]].
  - rewrite Hn. reflexivity.
  - rewrite Hf. cbn [getattr]. rewrite lbind_lift_Ret, He. reflexivity.
  - rewrite Hf. cbn [getattr]. rewrite lbind_lift_Ret, He.
    cbn [getitem nth_error]. rewrite lbind_lift_Ret.
    assert (Hr : exists e, get_throughput_limits s fs path = Raise e).
    { destruct Hm as [Hm|[Hm|Hm]]; [| |exact Hm];
        unfold get_throughput_limits; rewrite Hm; eexists; reflexivity. }
    destruct Hr as [e Hr]. rewrite Hr. reflexivity.
Qed.

(** Either the baseline is used or the check ends with the warning. *)
Lemma available_or_unavailable (s : self) (fs : filesystem) :
  (exists tl, reference_available s fs tl) \/ reference_unavailable s fs.
Proof.
  destruct (performance_files_list s) as [files|] eqn:Ef; [|right; now left].
  destruct (filter (fun file_name => contains (current_test_name s) file_name)
              files) as [|path rest] eqn:Em.
  { right. right. left. exists files. auto. }
  destruct (get_throughput_limits s fs path) as [tl|e] eqn:Eg.
  - left. exists tl, files, path. rewrite Em. auto.
  - right. right. right. exists files, path, rest. eauto 6.
Qed.

End Unavailable.

(** C7.  RvR: when the golden file is missing, is not JSON or lacks its
    attenuation entries, the check raises the error of reading it, which is
    neither the failure signal of an out-of-range point nor the pass signal.
    Coexistence: when no baseline can be used, the check logs the
    "performance file not found" warning and returns [None]; a run whose
    baseline was read never logs that warning, so the two outcomes differ,
    and in particular [None] is not the [False] of a failed comparison. *)
Theorem reference_unavailable_is_not_out_of_tolerance :
  (forall (tp : WifiRvrTest.test_params) (r : WifiRvrTest.rvr_result)
          (gldn_file : file WifiRvrTest.gldn_results),
      golden_unavailable gldn_file ->
      (WifiRvrTest.pass_fail_check tp gldn_file r = Raise FileNotFoundError \/
       WifiRvrTest.pass_fail_check tp gldn_file r = Raise JSONDecodeError \/
       WifiRvrTest.pass_fail_check tp gldn_file r = Raise KeyError) /\
      WifiRvrTest.pass_fail_check tp gldn_file r <> Raise TestPass /\
      forall tp' gldn_file' r' current_att current range,
        WifiRvrTest.pass_fail_check tp' gldn_file' r' =
          Raise (TestFailure current_att current range) ->
        WifiRvrTest.pass_fail_check tp gldn_file r <>
        WifiRvrTest.pass_fail_check tp' gldn_file' r')
  /\
  (forall (s : CoexPerformanceBaseTest.self)
          (fs : CoexPerformanceBaseTest.filesystem),
      reference_unavailable s fs ->
      CoexPerformanceBaseTest.throughput_pass_fail_check s fs =
        ([CoexPerformanceBaseTest.WarningNoPerformanceFile], None) /\
      snd (CoexPerformanceBaseTest.throughput_pass_fail_check s fs) <> Some false /\
      forall s' fs' tl',
        reference_available s' fs' tl' ->
        CoexPerformanceBaseTest.throughput_pass_fail_check s fs <>
        CoexPerformanceBaseTest.throughput_pass_fail_check s' fs').
Proof.
  split.
  - intros tp r gldn_file Hm.
    pose proof (pass_fail_check_unavailable tp gldn_file r Hm) as H.
    split; [exact H|]. split.
    + destruct H as [H|[H|H]]; rewrite H; discriminate.
    + intros tp' gldn_file' r' ca c range Hf. rewrite Hf.
      destruct H as [H|[H|H]]; rewrite H; discriminate.
  - intros s fs Hun.
    pose proof (throughput_pass_fail_check_unavailable s fs Hun) as H.
    split; [exact H|]. split.
    + rewrite H. discriminate.
    + intros s' fs' tl' Hav Heq.
      destruct (throughput_pass_fail_check_available s' fs' tl' Hav) as [_ Hw].
      rewrite <- Heq, H in Hw. apply Hw. now left.
Qed.

(** ** An empty sweep *)

(** C6, as stated, fails: with the golden file of the scenario and a sweep
    without any point, the RvR check raises the pass signal. *)
Lemma rvr_empty_sweep_passes :
  WifiRvrTest.throughput_receive
    {| WifiRvrTest.attenuation := []; WifiRvrTest.fixed_attenuation := 0;
       WifiRvrTest.throughput_receive := [] |} = [] /\
  WifiRvrTest.pass_fail_check Scenario.params (Json Scenario.golden)
    {| WifiRvrTest.attenuation := []; WifiRvrTest.fixed_attenuation := 0;
       WifiRvrTest.throughput_receive := [] |} = Raise TestPass.
Proof. split; reflexivity. Qed.

(** C6, amended.  When the sweep has no measured point, the RvR check
    compares nothing: once the golden file is loaded it raises the pass
    signal, and otherwise it raises the error of reading the golden file;
    no outcome of its own reports the empty sweep. *)
Theorem rvr_empty_sweep_verdict (tp : WifiRvrTest.test_params)
    (r : WifiRvrTest.rvr_result) :
  WifiRvrTest.throughput_receive r = [] ->
  (forall g gldn_att,
      WifiRvrTest.gldn_attenuation g = Ret gldn_att ->
      WifiRvrTest.pass_fail_check tp (Json g) r = Raise TestPass) /\
  (forall gldn_file,
      WifiRvrTest.pass_fail_check tp gldn_file r = Raise TestPass \/
      WifiRvrTest.pass_fail_check tp gldn_file r = Raise FileNotFoundError \/
      WifiRvrTest.pass_fail_check tp gldn_file r = Raise JSONDecodeError \/
      WifiRvrTest.pass_fail_check tp gldn_file r = Raise KeyError).
Proof.
  intros He. split.
  - intros g gldn_att Hg. rewrite (pass_fail_check_loaded _ _ _ _ Hg), He.
    reflexivity.
  - intros gldn_file. unfold WifiRvrTest.pass_fail_check. rewrite He.
    destruct gldn_file as [| |g]; cbn [load bind]; auto.
    destruct (WifiRvrTest.gldn_attenuation g) as [gldn_att|e] eqn:Eg;
      cbn [bind]; auto.
    apply gldn_attenuation_raises in Eg. subst e. auto.
Qed.

(** ** Comparing a reference with itself *)

(** The number of points before [idx] recorded at the same attenuation. *)
Definition earlier_same (atts : list Q) (idx : nat) : nat :=
  List.length
    (filter (fun i => Qeq_bool (nth i atts 0) (nth idx atts 0)) (seq 0 idx)).

Lemma filter_length_bound {A} (f : A -> bool) (l : list A) :
  (List.length (filter f l) <= List.length l)%nat.
Proof.
  induction l as [|a l IH]; simpl; [lia|]. destruct (f a); simpl; lia.
Qed.

Lemma Qabs_zero (x : Q) : Qabs x == 0 -> x == 0.
Proof.
  intros H. assert (Hle : Qabs x <= 0) by (rewrite H; apply Qle_refl).
  apply Qabs_Qle_condition in Hle. destruct Hle as [H1 H2]. lra.
Qed.

Lemma nth_map_total (g : Q -> Q) (l : list Q) (i : nat) :
  (i < List.length l)%nat -> nth i (map g l) 0 = g (nth i l 0).
Proof.
  intros H. rewrite (nth_indep _ 0 (g 0)) by now rewrite length_map.
  apply map_nth.
Qed.

Section SelfSelected.
Import Nearest.
Variables (k : nat) (atts : list Q) (fixed : Q) (idx : nat).
Hypothesis idx_valid : (idx < List.length atts)%nat.
Hypothesis few_earlier : (earlier_same atts idx < k)%nat.

Let reference := map (fun a => a + fixed) atts.
Let current_att := nth idx atts 0 + fixed.

Lemma distance_of_reference (i : nat) :
  (i < List.length atts)%nat ->
  distance current_att reference i = Qabs (current_att - (nth i atts 0 + fixed)).
Proof.
  intros H. unfold distance, Py.abs, reference.
  now rewrite (nth_map_total (fun a => a + fixed)).
Qed.

Lemma distance_self : distance current_att reference idx == 0.
Proof.
  rewrite distance_of_reference by exact idx_valid. unfold current_att.
  setoid_replace (nth idx atts 0 + fixed - (nth idx atts 0 + fixed)) with 0
    by ring.
  reflexivity.
Qed.

Lemma distance_nonneg (i : nat) : 0 <= distance current_att reference i.
Proof. apply Qabs_nonneg. Qed.

(** A point of the reference is among its own [k] nearest points. *)
Lemma self_selected :
  In idx (closest_indeces k (att_distances current_att reference)).
Proof.
  destruct (closest_indeces_spec current_att reference k)
    as (Hlen & Hnd & Hlt & Hnear & _).
  set (selected := closest_indeces k (att_distances current_att reference)) in *.
  assert (Hn : List.length reference = List.length atts)
    by (unfold reference; apply length_map).
  destruct (in_dec Nat.eq_dec idx selected) as [Hin|Hout]; [exact Hin|].
  exfalso.
  set (same := filter (fun i => Qeq_bool (nth i atts 0) (nth idx atts 0))
                 (seq 0 idx)).
  assert (Hincl : incl selected same).
  { intros i Hi.
    assert (Hi_lt : (i < List.length atts)%nat) by (rewrite <- Hn; auto).
    assert (Hni : nearer_index current_att reference i idx).
    { apply Hnear; [exact Hi | rewrite Hn; exact idx_valid | exact Hout]. }
    pose proof distance_self as H0. pose proof (distance_nonneg i) as Hge.
    destruct Hni as [Hlt'|[Heq Hidx]]; [lra|].
    apply filter_In. split; [apply in_seq; lia|].
    apply Qeq_eq_bool.
    rewrite H0 in Heq. rewrite distance_of_reference in Heq by exact Hi_lt.
    apply Qabs_zero in Heq. unfold current_att in Heq. lra. }
  pose proof (NoDup_incl_length Hnd Hincl) as Hle.
  pose proof (filter_length_bound
                (fun i => Qeq_bool (nth i atts 0) (nth idx atts 0)) (seq 0 idx))
    as Hb.
  rewrite length_seq in Hb. fold same in Hb.
  unfold earlier_same in few_earlier. fold same in few_earlier.
  rewrite Hlen, Hn in Hle. lia.
Qed.

End SelfSelected.

(** A value between the extremes of the selection is inside the band. *)
Lemma band_admits (a p vmin vmax current : Q) :
  0 <= a -> vmin <= current -> current <= vmax -> 0 <= current ->
  Nearest.lower_of a p vmin <= current /\ current <= Nearest.upper_of a p vmax.
Proof.
  intros Ha Hmin Hmax Hpos.
  unfold Nearest.lower_of, Nearest.upper_of, Nearest.margin.
  pose proof (max_ge_l a (vmin * p / inject_Z 100)) as H1.
  pose proof (max_ge_l a (vmax * p / inject_Z 100)) as H2.
  split.
  - rewrite max_Qmax. apply Q.max_lub; lra.
  - lra.
Qed.

Lemma selected_values_self (k : nat) (atts thr : list Q) (fixed : Q)
    (idx : nat) (current : Q) :
  (idx < List.length atts)%nat ->
  (earlier_same atts idx < k)%nat ->
  nth_error thr idx = Some current ->
  In current
    (selected_values (nth idx atts 0 + fixed) (map (fun a => a + fixed) atts)
       thr k).
Proof.
  intros Hidx Hfew Hcur. unfold selected_values.
  apply in_map_iff. exists idx. split.
  - exact (nth_error_nth _ _ 0 Hcur).
  - now apply self_selected.
Qed.

Section RvrIdentity.
Import WifiRvrTest.
Variables (tp : test_params) (atts thr : list Q) (fixed : Q).
Hypothesis abs_nonneg : 0 <= abs_tolerance tp.
Hypothesis same_length : List.length atts = List.length thr.
Hypothesis two_points : (2 <= List.length atts)%nat.
Hypothesis thr_nonneg : forall v, In v thr -> 0 <= v.
Hypothesis few_earlier :
  forall idx, (idx < List.length atts)%nat -> (earlier_same atts idx < 2)%nat.

(** The reference and the sweep of a comparison of a dataset with itself. *)
Definition rvr_reference : gldn_results :=
  {| gldn_attenuation_key := Some atts;
     gldn_fixed_attenuation_key := Some fixed;
     gldn_throughput_receive_key := Some thr |}.

Definition rvr_same_sweep : rvr_result :=
  {| attenuation := atts; fixed_attenuation := fixed;
     throughput_receive := thr |}.

Lemma rvr_reference_attenuation :
  gldn_attenuation rvr_reference = Ret (map (fun a => a + fixed) atts).
Proof.
  unfold gldn_attenuation, rvr_reference. cbn [gldn_attenuation_key getkey bind].
  apply comprehension_total. reflexivity.
Qed.

Lemma rvr_identity_point (idx : nat) (current : Q) :
  nth_error thr idx = Some current ->
  exists current_att range,
    point_range tp rvr_reference (map (fun a => a + fixed) atts)
      rvr_same_sweep idx = Ret (current_att, range) /\
    beyond_limits tp range current = false.
Proof.
  intros Hcur.
  assert (Hidx : (idx < List.length atts)%nat).
  { rewrite same_length. apply nth_error_Some. congruence. }
  destruct (nth_error_lt _ _ Hidx) as [att Hatt].
  assert (Hnth : nth idx atts 0 = att) by exact (nth_error_nth _ _ 0 Hatt).
  destruct (rvr_point_range_band tp rvr_reference (map (fun a => a + fixed) atts)
              rvr_same_sweep idx att thr Hatt eq_refl)
    as (vmin & vmax & Hext & Hrange).
  { rewrite length_map. lia. }
  { rewrite length_map. exact two_points. }
  cbn [fixed_attenuation rvr_same_sweep] in Hext, Hrange.
  eexists. eexists. split; [exact Hrange|].
  pose proof (selected_values_self 2 atts thr fixed idx current Hidx
                (few_earlier idx Hidx) Hcur) as Hin.
  rewrite Hnth in Hin.
  destruct Hext as (_ & _ & Hbetween).
  destruct (Hbetween current Hin) as [Hmin Hmax].
  assert (Hpos : 0 <= current).
  { apply thr_nonneg. exact (nth_error_In _ _ Hcur). }
  destruct (band_admits (abs_tolerance tp) (pct_tolerance tp) vmin vmax current
              abs_nonneg Hmin Hmax Hpos) as [Hlo Hhi].
  unfold beyond_limits. cbn [fst snd].
  apply orb_false_iff. split; apply Qltb_ge; lra.
Qed.

Lemma rvr_identity_passes :
  pass_fail_check tp (Json rvr_reference) rvr_same_sweep = Raise TestPass.
Proof.
  rewrite (pass_fail_check_loaded _ _ _ _ rvr_reference_attenuation).
  rewrite check_points_pass; [reflexivity| |].
  - intros [idx current] Hp. apply enumerate_In in Hp.
    destruct (rvr_identity_point idx current Hp) as (ca & range & Hr & _).
    eauto.
  - intros [idx current] Hp (ca & range & Hr & Hb). apply enumerate_In in Hp.
    destruct (rvr_identity_point idx current Hp) as (ca' & range' & Hr' & Hb').
    cbn [fst snd] in Hr, Hb. rewrite Hr in Hr'. injection Hr' as <- <-.
    congruence.
Qed.

End RvrIdentity.

Lemma comprehension_exists {A B} (f : A -> res B) (l : list A) :
  (forall x, In x l -> exists y, f x = Ret y) ->
  exists l', comprehension f l = Ret l'.
Proof.
  induction l as [|x xs IH]; intros H; cbn [comprehension]; [eauto|].
  destruct (H x (or_introl eq_refl)) as [y ->].
  destruct IH as [ys ->]; [intros; apply H; now right|].
  cbn [bind]. eauto.
Qed.

Lemma Forall2_nth_error {A B} (R : A -> B -> Prop) (l : list A) (l' : list B)
    (i : nat) (x : A) (y : B) :
  Forall2 R l l' -> nth_error l i = Some x -> nth_error l' i = Some y -> R x y.
Proof.
  intros H. revert i. induction H as [|a b l l' Hab H IH]; intros i Hx Hy.
  - destruct i; discriminate.
  - destruct i as [|i]; cbn in Hx, Hy.
    + now injection Hx as <-; injection Hy as <-.
    + exact (IH i Hx Hy).
Qed.

Lemma enumerate_from_nth_error {A} (l : list A) (start i : nat) :
  nth_error (enumerate_from start l) i =
  option_map (fun x => ((start + i)%nat, x)) (nth_error l i).
Proof.
  revert start i. induction l as [|a l IH]; intros start i.
  - destruct i; reflexivity.
  - destruct i as [|i]; cbn.
    + now rewrite Nat.add_0_r.
    + rewrite IH. now rewrite Nat.add_succ_r.
Qed.

Lemma filter_none {A} (f : A -> bool) (l : list A) :
  (forall x, In x l -> f x = false) -> filter f l = [].
Proof.
  induction l as [|a l IH]; intros H; cbn [filter]; [reflexivity|].
  rewrite (H a (or_introl eq_refl)). apply IH. intros x Hx. apply H. now right.
Qed.

Section CoexIdentity.
Import CoexPerformanceBaseTest.

(** The baseline entry recorded from a sweep. *)
Definition mirror (e : rvr_entry) : performance_dict :=
  {| perf_attenuation_key := Some (attenuation e);
     perf_fixed_attenuation_key := Some (fixed_attenuation e);
     perf_throughput_received_key := Some (throughput_received e) |}.

(** A sweep that can be compared with itself: one throughput per
    attenuation, no negative throughput, and fewer than three earlier points
    at the attenuation of any point. *)
Definition self_comparable (e : rvr_entry) : Prop :=
  List.length (attenuation e) = List.length (throughput_received e) /\
  (forall v, In v (throughput_received e) -> 0 <= v) /\
  (forall idx, (idx < List.length (attenuation e))%nat ->
               (earlier_same (attenuation e) idx < 3)%nat).

Lemma mirror_total_attenuation (tp : test_params) (e : rvr_entry) :
  has_fixed_attenuation tp = true ->
  total_attenuation tp (mirror e) =
    Ret (Some (map (fun a => a + fixed_attenuation e) (attenuation e))).
Proof.
  intros H. unfold total_attenuation. rewrite H.
  cbn [mirror perf_attenuation_key getkey bind].
  rewrite (comprehension_total _ (fun a => a + fixed_attenuation e));
    reflexivity.
Qed.

Lemma coex_identity_point (tp : test_params) (e : rvr_entry) (idx : nat)
    (current : Q) :
  0 <= abs_tolerance tp ->
  self_comparable e ->
  nth_error (throughput_received e) idx = Some current ->
  exists current_att lower upper,
    point_limits tp (mirror e)
      (Some (map (fun a => a + fixed_attenuation e) (attenuation e))) e idx
    = Ret (current_att, (lower, upper)) /\
    outside_limits lower upper current = false.
Proof.
  intros Habs (Hlen & Hpos & Hfew) Hcur.
  assert (Hidx : (idx < List.length (attenuation e))%nat).
  { rewrite Hlen. apply nth_error_Some. congruence. }
  destruct (nth_error_lt _ _ Hidx) as [att Hatt].
  assert (Hnth : nth idx (attenuation e) 0 = att)
    by exact (nth_error_nth _ _ 0 Hatt).
  destruct (coex_point_limits_band tp (mirror e)
              (map (fun a => a + fixed_attenuation e) (attenuation e))
              e idx att (throughput_received e) Hatt eq_refl)
    as (vmin & vmax & Hext & Hlim).
  { rewrite length_map. lia. }
  { rewrite length_map. lia. }
  eexists. eexists. eexists. split; [exact Hlim|].
  pose proof (selected_values_self 3 (attenuation e) (throughput_received e)
                (fixed_attenuation e) idx current Hidx (Hfew idx Hidx) Hcur)
    as Hin.
  rewrite Hnth in Hin.
  destruct Hext as (_ & _ & Hbetween).
  destruct (Hbetween current Hin) as [Hmin Hmax].
  assert (H0 : 0 <= current) by (apply Hpos; exact (nth_error_In _ _ Hcur)).
  destruct (band_admits (abs_tolerance tp) (pct_tolerance tp) vmin vmax current
              Habs Hmin Hmax H0) as [Hlo Hhi].
  unfold outside_limits. apply orb_false_iff. split; apply Qltb_ge; lra.
Qed.

Lemma coex_identity_group (s : self) (results : performance_results)
    (bt : Z) (e : rvr_entry) :
  rvr s bt = Some e ->
  results bt = Some (mirror e) ->
  has_fixed_attenuation (params s) = true ->
  0 <= abs_tolerance (params s) ->
  self_comparable e ->
  exists l, group_limits s results bt = Ret l /\
            failures l (enumerate (throughput_received e)) = 0%Z.
Proof.
  intros He Hr Hfix Habs Hself.
  set (reference := map (fun a => a + fixed_attenuation e) (attenuation e)).
  destruct (comprehension_exists
              (fun point => point_limits (params s) (mirror e) (Some reference)
                              e (fst point))
              (enumerate (throughput_received e))) as [rows Hrows].
  { intros [idx current] Hp. apply enumerate_In in Hp.
    destruct (coex_identity_point (params s) e idx current Habs Hself Hp)
      as (ca & lower & upper & Hl & _).
    cbn [fst]. eauto. }
  eexists. split.
  - unfold group_limits. rewrite Hr, He. cbn [getkey bind].
    rewrite (mirror_total_attenuation _ _ Hfix). cbn [bind].
    fold reference. rewrite Hrows. cbn [bind]. reflexivity.
  - unfold failures.
    match goal with
    | |- Z.of_nat (List.length ?l) = 0%Z => replace l with (@nil (nat * Q))
    end; [reflexivity|].
    symmetry. apply comprehension_Ret in Hrows.
    assert (Hall : forall p, In p (enumerate (throughput_received e)) ->
                     out_of_band
                       {| limits_attenuation := map fst rows;
                          lower_limit := map (fun row => fst (snd row)) rows;
                          upper_limit := map (fun row => snd (snd row)) rows |}
                       p = false).
    { intros [idx current] Hp. pose proof Hp as Hcur.
      apply enumerate_In in Hcur.
      unfold out_of_band. cbn [fst snd lower_limit upper_limit].
      rewrite !nth_error_map.
      destruct (nth_error rows idx) as [row|] eqn:Erow; [|reflexivity].
      cbn [option_map].
      assert (Hnth : nth_error (enumerate (throughput_received e)) idx =
                     Some (idx, current)).
      { unfold enumerate. rewrite enumerate_from_nth_error, Hcur. reflexivity. }
      pose proof (Forall2_nth_error _ _ _ _ _ _ Hrows Hnth Erow) as Hrow.
      cbn [fst] in Hrow.
      destruct (coex_identity_point (params s) e idx current Habs Hself Hcur)
        as (ca & lower & upper & Hl & Hout).
      fold reference in Hl. rewrite Hl in Hrow. injection Hrow as <-.
      exact Hout. }
    exact (filter_none _ _ Hall).
Qed.

Lemma limits_loop_total (s : self) (results : performance_results)
    (range : list Z) :
  (forall bt, In bt range -> exists l, group_limits s results bt = Ret l) ->
  forall acc, exists tl, limits_loop s results range acc = Ret tl.
Proof.
  induction range as [|bt rest IH]; intros H acc; cbn [limits_loop]; [eauto|].
  destruct (H bt (or_introl eq_refl)) as [l ->]. cbn [bind].
  apply IH. intros b Hb. apply H. now right.
Qed.

Lemma total_failures_zero (s : self) (tl : Z -> option limits) (range : list Z) :
  (forall bt, In bt range -> group_failures s tl bt = 0%Z) ->
  total_failures s tl range = 0%Z.
Proof.
  induction range as [|bt rest IH]; intros H; cbn [total_failures]; [reflexivity|].
  rewrite (H bt (or_introl eq_refl)), IH; [reflexivity|].
  intros b Hb. apply H. now right.
Qed.

(** Every group of the sweep is compared with its own record. *)
Definition identity_sweep (s : self) (results : performance_results) : Prop :=
  forall bt, In bt (bt_atten_range s) ->
    exists e, rvr s bt = Some e /\ results bt = Some (mirror e) /\
              self_comparable e.

Lemma coex_identity_limits (s : self) (fs : filesystem) (path : string)
    (results : performance_results) :
  fs path = Json results ->
  has_fixed_attenuation (params s) = true ->
  0 <= abs_tolerance (params s) ->
  identity_sweep s results ->
  exists tl, get_throughput_limits s fs path = Ret tl /\
             total_failures s tl (bt_atten_range s) = 0%Z.
Proof.
  intros Hfs Hfix Habs Hid. unfold get_throughput_limits.
  rewrite Hfs. cbn [load bind].
  destruct (limits_loop_total s results (bt_atten_range s)) with
    (acc := fun _ : Z => @None limits) as [tl Htl].
  { intros bt Hbt. destruct (Hid bt Hbt) as (e & He & Hr & Hself).
    destruct (coex_identity_group s results bt e He Hr Hfix Habs Hself)
      as (l & Hl & _). eauto. }
  exists tl. split; [exact Htl|].
  apply total_failures_zero. intros bt Hbt.
  destruct (Hid bt Hbt) as (e & He & Hr & Hself).
  destruct (coex_identity_group s results bt e He Hr Hfix Habs Hself)
    as (l & Hl & Hzero).
  destruct (limits_loop_inside _ _ _ _ Hbt _ _ Htl) as (l' & Hl' & Hg).
  rewrite Hl in Hg. injection Hg as <-.
  unfold group_failures. rewrite He, Hl'. exact Hzero.
Qed.

End CoexIdentity.

Section CoexQuiet.
Import CoexPerformanceBaseTest.

(** A record of a point beyond its limits. *)
Definition reports_point (record : log_record) : Prop :=
  match record with
  | InfoBeyondLimits _ _ _ _ => True
  | _ => False
  end.

Lemma failures_zero_inside (l : limits) (points : list (nat * Q)) :
  failures l points = 0%Z ->
  forall p, In p points -> out_of_band l p = false.
Proof.
  unfold failures. intros H p Hp.
  destruct (out_of_band l p) eqn:E; [|reflexivity].
  assert (Hin : In p (filter (out_of_band l) points)) by (apply filter_In; auto).
  destruct (filter (out_of_band l) points); [contradiction|].
  cbn [List.length] in H. lia.
Qed.

Lemma check_points_quiet (e : rvr_entry) (l : limits) (points : list (nat * Q)) :
  checkable e l points ->
  (forall p, In p points -> out_of_band l p = false) ->
  forall failure_count,
    fst (check_points e (Some l) failure_count points) = [].
Proof.
  induction points as [|[idx current] rest IH]; intros Hc Hq failure_count;
    [reflexivity|].
  destruct (Hc (idx, current) (or_introl eq_refl)) as (Ha & Hl & Hu).
  cbn [fst] in Ha, Hl, Hu.
  destruct (nth_error_lt _ _ Ha) as [att Hatt].
  destruct (nth_error_lt _ _ Hl) as [lower Hlower].
  destruct (nth_error_lt _ _ Hu) as [upper Hupper].
  pose proof (Hq (idx, current) (or_introl eq_refl)) as Hin.
  unfold out_of_band in Hin. cbn [fst snd] in Hin.
  rewrite Hlower, Hupper in Hin.
  cbn [check_points]. rewrite fst_lbind.
  rewrite (coex_check_point_decision _ _ failure_count _ current _ _ _
             Hatt Hlower Hupper).
  rewrite Hin. cbn [fst snd app].
  apply IH.
  - intros p Hp. apply Hc. now right.
  - intros p Hp. apply Hq. now right.
Qed.

Lemma check_groups_quiet (s : self) (tl : Z -> option limits) (range : list Z) :
  (forall bt, In bt range -> group_checkable s tl bt) ->
  (forall bt, In bt range -> group_failures s tl bt = 0%Z) ->
  forall failure_count,
    Forall (fun record => ~ reports_point record)
      (fst (check_groups s tl failure_count range)).
Proof.
  induction range as [|bt rest IH]; intros Hc Hz failure_count.
  - constructor.
  - destruct (Hc bt (or_introl eq_refl)) as (e & l & He & Hl & Hck).
    pose proof (Hz bt (or_introl eq_refl)) as Hzero.
    unfold group_failures in Hzero. rewrite He, Hl in Hzero.
    cbn [check_groups]. rewrite He. cbn [getkey]. rewrite lbind_lift_Ret.
    rewrite fst_lbind, Hl.
    rewrite (check_points_count e l _ Hck).
    rewrite (check_points_quiet e l _ Hck (failures_zero_inside _ _ Hzero)).
    cbn [app].
    destruct (_ >=? _)%Z.
    + cbn [fst]. constructor; [cbn; tauto|constructor].
    + rewrite fst_lbind. cbn [fst snd app].
      constructor; [cbn; tauto|].
      apply IH.
      * intros b Hb. apply Hc. now right.
      * intros b Hb. apply Hz. now right.
Qed.

End CoexQuiet.

Lemma total_failures_zero_groups (s : CoexPerformanceBaseTest.self)
    (tl : Z -> option CoexPerformanceBaseTest.limits) (range : list Z) :
  total_failures s tl range = 0%Z ->
  forall bt, In bt range -> group_failures s tl bt = 0%Z.
Proof.
  induction range as [|b rest IH]; intros H bt Hin; [contradiction|].
  cbn [total_failures] in H.
  pose proof (group_failures_nonneg s tl b).
  pose proof (total_failures_nonneg s tl rest).
  destruct Hin as [<-|Hin]; [lia|]. apply IH; [lia|exact Hin].
Qed.

(** Sweeps in which several points were recorded at one attenuation. *)
Module Repeated.

Definition rvr_golden : WifiRvrTest.gldn_results :=
  {| WifiRvrTest.gldn_attenuation_key := Some [10; 10; 10];
     WifiRvrTest.gldn_fixed_attenuation_key := Some 0;
     WifiRvrTest.gldn_throughput_receive_key := Some [100; 100; 50] |}.

Definition rvr_sweep : WifiRvrTest.rvr_result :=
  {| WifiRvrTest.attenuation := [10; 10; 10];
     WifiRvrTest.fixed_attenuation := 0;
     WifiRvrTest.throughput_receive := [100; 100; 50] |}.

Definition coex_entry : CoexPerformanceBaseTest.rvr_entry :=
  {| CoexPerformanceBaseTest.attenuation := [10; 10; 10; 10];
     CoexPerformanceBaseTest.fixed_attenuation := 0;
     CoexPerformanceBaseTest.throughput_received := [100; 100; 100; 50] |}.

Definition coex_self : CoexPerformanceBaseTest.self :=
  {| CoexPerformanceBaseTest.params :=
       {| CoexPerformanceBaseTest.abs_tolerance := 5;
          CoexPerformanceBaseTest.pct_tolerance := 10;
          CoexPerformanceBaseTest.failure_count_tolerance := 1;
          CoexPerformanceBaseTest.has_fixed_attenuation := true |};
     CoexPerformanceBaseTest.current_test_name := "test_performance";
     CoexPerformanceBaseTest.performance_files_list :=
       Some ["results/test_performance.json"%string];
     CoexPerformanceBaseTest.bt_atten_range := [0%Z];
     CoexPerformanceBaseTest.rvr :=
       fun bt => if Z.eqb bt 0 then Some coex_entry else None |}.

Definition coex_files : CoexPerformanceBaseTest.filesystem :=
  fun _ => Json (fun bt => if Z.eqb bt 0 then Some (mirror coex_entry) else None).

End Repeated.

(** C5, as stated, fails.  Three RvR points recorded at the same attenuation
    with throughputs 100, 100, 50: the third point is compared with the first
    two and is beyond the limits.  Four such points in a coexistence sweep:
    the fourth is outside its limits and the check returns [False].  A
    reference with a single RvR point: the check raises [IndexError].  A
    reference with negative values: the lower limit is floored at 0 and the
    first point is beyond the limits. *)
Lemma identity_sweep_can_fail :
  WifiRvrTest.pass_fail_check Scenario.params (Json Repeated.rvr_golden)
    Repeated.rvr_sweep
  = Raise (TestFailure 10 50 (9000 # 100, 11000 # 100)) /\
  CoexPerformanceBaseTest.throughput_pass_fail_check Repeated.coex_self
    Repeated.coex_files
  = ([CoexPerformanceBaseTest.InfoBeyondLimits 10 50 (9000 # 100) (11000 # 100);
      CoexPerformanceBaseTest.ErrorTestFailed 1], Some false) /\
  WifiRvrTest.pass_fail_check Scenario.params
    (Json {| WifiRvrTest.gldn_attenuation_key := Some [10];
             WifiRvrTest.gldn_fixed_attenuation_key := Some 0;
             WifiRvrTest.gldn_throughput_receive_key := Some [100] |})
    {| WifiRvrTest.attenuation := [10]; WifiRvrTest.fixed_attenuation := 0;
       WifiRvrTest.throughput_receive := [100] |}
  = Raise IndexError /\
  WifiRvrTest.pass_fail_check Scenario.params
    (Json {| WifiRvrTest.gldn_attenuation_key := Some [0; 10];
             WifiRvrTest.gldn_fixed_attenuation_key := Some 0;
             WifiRvrTest.gldn_throughput_receive_key := Some [-10; -20] |})
    {| WifiRvrTest.attenuation := [0; 10]; WifiRvrTest.fixed_attenuation := 0;
       WifiRvrTest.throughput_receive := [-10; -20] |}
  = Raise (TestFailure 0 (-10) (0, -5)).
Proof. repeat split. Qed.

(** C5, amended.  Comparing a reference with itself passes when
    [abs_tolerance >= 0], every attenuation has its throughput, no throughput
    is negative, and every point has fewer than [k] earlier points recorded
    at its own attenuation ([k = 2] for RvR, [k = 3] for coexistence), so
    that it is one of its own nearest reference points.  RvR, with at least
    two points: the pass signal is raised.  Coexistence: the limits are
    computed, no point is counted or logged as outside its limits, and the
    check returns [None] when [failure_count_tolerance > 0]. *)
Theorem identity_sweep_passes :
  (forall (tp : WifiRvrTest.test_params) (atts thr : list Q) (fixed : Q),
      0 <= WifiRvrTest.abs_tolerance tp ->
      List.length atts = List.length thr ->
      (2 <= List.length atts)%nat ->
      (forall v, In v thr -> 0 <= v) ->
      (forall idx, (idx < List.length atts)%nat ->
                   (earlier_same atts idx < 2)%nat) ->
      WifiRvrTest.pass_fail_check tp (Json (rvr_reference atts thr fixed))
        (rvr_same_sweep atts thr fixed) = Raise TestPass)
  /\
  (forall (s : CoexPerformanceBaseTest.self)
          (fs : CoexPerformanceBaseTest.filesystem)
          (files : list string) (path : string)
          (results : CoexPerformanceBaseTest.performance_results),
      CoexPerformanceBaseTest.performance_files_list s = Some files ->
      nth_error
        (filter (fun file_name =>
                   contains (CoexPerformanceBaseTest.current_test_name s)
                     file_name) files) 0 = Some path ->
      fs path = Json results ->
      CoexPerformanceBaseTest.has_fixed_attenuation
        (CoexPerformanceBaseTest.params s) = true ->
      0 <= CoexPerformanceBaseTest.abs_tolerance
             (CoexPerformanceBaseTest.params s) ->
      identity_sweep s results ->
      exists tl,
        CoexPerformanceBaseTest.get_throughput_limits s fs path = Ret tl /\
        total_failures s tl (CoexPerformanceBaseTest.bt_atten_range s) = 0%Z /\
        Forall (fun record => ~ reports_point record)
          (fst (CoexPerformanceBaseTest.throughput_pass_fail_check s fs)) /\
        ((0 < CoexPerformanceBaseTest.failure_count_tolerance
                (CoexPerformanceBaseTest.params s))%Z ->
         snd (CoexPerformanceBaseTest.throughput_pass_fail_check s fs) = None)).
Proof.
  split.
  - intros tp atts thr fixed Habs Hlen H2 Hpos Hfew.
    now apply rvr_identity_passes.
  - intros s fs files path results Hfiles Hpath Hfs Hfix Habs Hid.
    destruct (coex_identity_limits s fs path results Hfs Hfix Habs Hid)
      as (tl & Htl & Hzero).
    assert (Hav : reference_available s fs tl) by (exists files, path; auto).
    exists tl. split; [exact Htl|]. split; [exact Hzero|].
    destruct (throughput_pass_fail_check_available s fs tl Hav) as [Hv _].
    split.
    + unfold CoexPerformanceBaseTest.throughput_pass_fail_check.
      rewrite (try_body_available _ _ _ Hav).
      pose proof (get_throughput_limits_checkable _ _ _ _ Htl) as Hc.
      rewrite (check_groups_verdict s tl _ Hc 0%Z). cbn [fst].
      apply check_groups_quiet; [exact Hc|].
      now apply total_failures_zero_groups.
    + intros Htol. rewrite Hv, Hzero.
      destruct (CoexPerformanceBaseTest.bt_atten_range s); [reflexivity|].
      destruct (Z.geb_spec 0
                  (CoexPerformanceBaseTest.failure_count_tolerance
                     (CoexPerformanceBaseTest.params s))); [lia|reflexivity].
Qed.

(** ** The socket link: receiving *)

Section Receive.
Import SocketInstrument.

Lemma recv_loop_more_fuel (fuel : nat) :
  forall bufsize codefmt resp sk result,
    recv_loop fuel bufsize codefmt resp sk = Some result ->
    recv_loop (S fuel) bufsize codefmt resp sk = Some result.
Proof.
  induction fuel as [|fuel IH]; intros bufsize codefmt resp sk result H;
    [discriminate|].
  cbn [recv_loop] in H. cbn [recv_loop].
  destruct (recv bufsize sk) as [r sk'].
  destruct r as [data|e]; [|exact H].
  destruct (decode codefmt data) as [resp_tmp|]; [|exact H].
  destruct (List.length resp_tmp <? bufsize)%nat; [exact H|].
  apply IH. exact H.
Qed.

Lemma recv_loop_enough_fuel (fuel fuel' : nat) :
  (fuel <= fuel')%nat ->
  forall bufsize codefmt resp sk result,
    recv_loop fuel bufsize codefmt resp sk = Some result ->
    recv_loop fuel' bufsize codefmt resp sk = Some result.
Proof.
  induction 1 as [|fuel' Hle IH]; intros bufsize codefmt resp sk result H;
    [exact H|].
  apply recv_loop_more_fuel. now apply IH.
Qed.

(** What is still to be read: the queued bytes and the queued events. *)
Fixpoint pending (queue : list arrival) : nat :=
  match queue with
  | [] => 0
  | Segment data :: rest => S (List.length data + pending rest)
  | _ :: rest => S (pending rest)
  end.

(** Whatever the network delivers, the loop ends within [pending + 1]
    iterations. *)
Lemma recv_loop_terminates (bufsize : nat) (codefmt : codec) :
  (0 < bufsize)%nat ->
  decode codefmt [] = Some [] ->
  forall n sk resp,
    (pending (incoming sk) < n)%nat ->
    exists result, recv_loop n bufsize codefmt resp sk = Some result.
Proof.
  intros Hpos Hempty.
  induction n as [|n IH]; intros sk resp Hn; [lia|].
  cbn [recv_loop]. unfold recv.
  destruct (incoming sk) as [|[data| |] rest] eqn:Eq.
  - destruct (peer sk); [|eauto].
    rewrite Hempty. cbn [List.length].
    destruct (Nat.ltb_spec 0 bufsize); [eauto|lia].
  - destruct (decode codefmt (firstn bufsize data)) as [resp_tmp|]; [|eauto].
    destruct (List.length resp_tmp <? bufsize)%nat; [eauto|].
    apply IH. cbn [incoming]. cbn [pending] in Hn.
    destruct (skipn bufsize data) as [|b unread] eqn:Es; [lia|].
    cbn [pending List.length].
    assert (Hl : List.length (skipn bufsize data) = S (List.length unread))
      by now rewrite Es.
    rewrite length_skipn in Hl. lia.
  - eauto.
  - eauto.
Qed.

(** Bytes below 128 decode to themselves. *)
Definition ascii_bytes (data : list Byte.byte) : Prop :=
  Forall (fun b => (Byte.to_N b < 128)%N) data.

Lemma utf8_decode_ascii (data : list Byte.byte) :
  ascii_bytes data -> utf8_decode data = Some (map Byte.to_N data).
Proof.
  induction 1 as [|b data Hb Hd IH]; [reflexivity|].
  cbn [utf8_decode map].
  destruct (N.ltb_spec (Byte.to_N b) 128) as [_|Hge]; [|lia].
  rewrite IH. reflexivity.
Qed.

(** The queue when [data] has arrived and nothing else is in flight. *)
Definition arrived (data : list Byte.byte) : list arrival :=
  match data with
  | [] => []
  | _ => [Segment data]
  end.

(** The socket once the response was read with [n] calls of [recv]. *)
Definition drained (bufsize n : nat) (sk : socket) : socket :=
  {| incoming := []; peer := peer sk; deliveries := deliveries sk;
     calls := calls sk ++ repeat (CallRecv bufsize) n |}.

(** How the loop ends at the end of the stream. *)
Definition at_end (p : peer_end) (resp : str) : res str :=
  match p with
  | Closed => Ret resp
  | Silent => Raise SocketTimeout
  end.

Lemma recv_loop_exact_multiple (bufsize : nat) :
  (0 < bufsize)%nat ->
  forall m data resp sk,
    List.length data = (m * bufsize)%nat ->
    ascii_bytes data ->
    incoming sk = arrived data ->
    recv_loop (S m) bufsize utf_8 resp sk =
      Some (at_end (peer sk) (resp ++ map Byte.to_N data),
            drained bufsize (S m) sk).
Proof.
  intros Hpos. induction m as [|m IH]; intros data resp sk Hlen Hascii Hq.
  - destruct data; [|discriminate]. cbn [arrived] in Hq.
    cbn [recv_loop]. unfold recv. rewrite Hq.
    unfold drained. cbn [repeat map].
    destruct (peer sk); [|reflexivity].
    cbn [decode utf_8 utf8_decode List.length at_end].
    destruct (Nat.ltb_spec 0 bufsize); [reflexivity|lia].
  - assert (Hne : data <> []).
    { intros ->. cbn in Hlen. lia. }
    assert (Hq' : incoming sk = [Segment data])
      by (destruct data; [congruence|exact Hq]).
    assert (Hfirst : List.length (firstn bufsize data) = bufsize).
    { rewrite length_firstn. cbn in Hlen. lia. }
    assert (Hskip : List.length (skipn bufsize data) = (m * bufsize)%nat).
    { rewrite length_skipn. cbn in Hlen. lia. }
    assert (Ha1 : ascii_bytes (firstn bufsize data)).
    { apply Forall_forall. intros b Hb.
      unfold ascii_bytes in Hascii. rewrite Forall_forall in Hascii.
      apply Hascii. rewrite <- (firstn_skipn bufsize data).
      apply in_or_app. now left. }
    assert (Ha2 : ascii_bytes (skipn bufsize data)).
    { apply Forall_forall. intros b Hb.
      unfold ascii_bytes in Hascii. rewrite Forall_forall in Hascii.
      apply Hascii. rewrite <- (firstn_skipn bufsize data).
      apply in_or_app. now right. }
    change (recv_loop (S (S m)) bufsize utf_8 resp sk) with
      (let (r, sk') := recv bufsize sk in
       match r with
       | Raise e => Some (Raise e, sk')
       | Ret data =>
           match decode utf_8 data with
           | None => Some (Raise UnicodeError, sk')
           | Some resp_tmp =>
               if (List.length resp_tmp <? bufsize)%nat
               then Some (Ret (resp ++ resp_tmp), sk')
               else recv_loop (S m) bufsize utf_8 (resp ++ resp_tmp) sk'
           end
       end).
    unfold recv. rewrite Hq'.
    cbn [decode utf_8]. rewrite (utf8_decode_ascii _ Ha1).
    rewrite length_map, Hfirst, Nat.ltb_irrefl.
    rewrite (IH (skipn bufsize data)); [|exact Hskip|exact Ha2|].
    + cbn [peer]. f_equal. f_equal.
      * rewrite <- app_assoc, <- map_app, firstn_skipn. reflexivity.
      * unfold drained. cbn [peer deliveries calls].
        rewrite <- app_assoc. reflexivity.
    + cbn [incoming]. unfold arrived.
      destruct (skipn bufsize data); reflexivity.
Qed.

End Receive.

Section ReceiveMethod.
Import SocketInstrument.

Lemma recv_calls (bufsize : nat) (sk : socket) :
  calls (snd (recv bufsize sk)) = calls sk ++ [CallRecv bufsize].
Proof.
  unfold recv. destruct (incoming sk) as [|[data| |] rest]; reflexivity.
Qed.

Lemma recv_loop_calls (fuel : nat) :
  forall bufsize codefmt resp sk r sk',
    recv_loop fuel bufsize codefmt resp sk = Some (r, sk') ->
    exists n, calls sk' = calls sk ++ repeat (CallRecv bufsize) (S n).
Proof.
  induction fuel as [|fuel IH]; intros bufsize codefmt resp sk r sk' H;
    [discriminate|].
  cbn [recv_loop] in H.
  pose proof (recv_calls bufsize sk) as Hc.
  destruct (recv bufsize sk) as [r1 sk1]. cbn [snd] in Hc.
  assert (Hone : calls sk1 = calls sk ++ repeat (CallRecv bufsize) 1)
    by exact Hc.
  destruct r1 as [data|e].
  - destruct (decode codefmt data) as [resp_tmp|].
    + destruct (List.length resp_tmp <? bufsize)%nat.
      * injection H as <- <-. now exists 0%nat.
      * destruct (IH _ _ _ _ _ _ H) as [n Hn]. exists (S n).
        rewrite Hn, Hc, <- app_assoc. reflexivity.
    + injection H as <- <-. now exists 0%nat.
  - injection H as <- <-. now exists 0%nat.
Qed.

(** The record logged for what a method raises. *)
Definition recorded_error (r : raised) : log_record :=
  match r with
  | SocketInstrumentError msg => LoggedException msg
  | Reraised e => LoggedOther e
  end.

(** The record [_recv] logs for what it returns or raises. *)
Definition recorded (result : str + raised) : log_record :=
  match result with
  | inl resp => DebugReceived resp
  | inr r => recorded_error r
  end.

Lemma handle_recorded {A} (on_timeout on_error : errmsg) (e : exn)
    (inst : instrument) :
  exists r, @handle A on_timeout on_error e inst =
              (inr r, logging inst (recorded_error r)).
Proof.
  destruct e; unfold handle;
    match goal with
    | |- exists r, (inr ?x, _) = _ => exists x; reflexivity
    end.
Qed.

(** One call of [_recv] on a connected instrument: one or more [recv] on the
    socket and one record in the log. *)
Lemma _recv_effect (fuel : nat) (inst : instrument) (sk : socket)
    (result : str + raised) (inst' : instrument) :
  _socket inst = Some sk ->
  _recv fuel inst = Some (result, inst') ->
  exists sk' n,
    _socket inst' = Some sk' /\
    calls sk' = calls sk ++ repeat (CallRecv (_socket_buffer_size inst)) (S n) /\
    _logger inst' = _logger inst ++ [recorded result].
Proof.
  intros Hs H. unfold _recv in H. rewrite Hs in H.
  destruct (recv_loop fuel (_socket_buffer_size inst) (_codefmt inst) [] sk)
    as [[r sk']|] eqn:El; [|discriminate].
  destruct (recv_loop_calls _ _ _ _ _ _ _ El) as [n Hn].
  exists sk', n. destruct r as [resp|e].
  - injection H as <- <-. cbn. auto.
  - destruct (@handle_recorded str TimeoutReceiving ErrorReceiving e
                (with_socket inst (Some sk'))) as [r0 Hh].
    rewrite Hh in H. injection H as <- <-. cbn. auto.
Qed.

Lemma _recv_terminates (inst : instrument) (sk : socket) :
  _socket inst = Some sk ->
  (0 < _socket_buffer_size inst)%nat ->
  decode (_codefmt inst) [] = Some [] ->
  exists result,
    forall fuel, (pending (incoming sk) < fuel)%nat ->
                 _recv fuel inst = Some result.
Proof.
  intros Hs Hpos Hempty.
  destruct (recv_loop_terminates _ _ Hpos Hempty (S (pending (incoming sk)))
              sk [] (Nat.lt_succ_diag_r _)) as [[r sk'] Hr].
  destruct r as [resp|e]; eexists; intros fuel Hfuel; unfold _recv;
    rewrite Hs, (recv_loop_enough_fuel _ fuel Hfuel _ _ _ _ _ Hr);
    reflexivity.
Qed.

End ReceiveMethod.

(** C8.  [_recv] does not hang.  With a positive buffer size and a codec
    that decodes no bytes to the empty string, it returns or raises within
    a number of iterations bounded by what the network still delivers.  When
    the peer has sent [m] times the buffer size of ASCII bytes and then
    closes the connection, every read but the last fills the buffer, the
    last one yields zero bytes, which ends the loop, and the accumulated text
    is returned, stripped of the trailing terminator; when the peer instead
    stays silent, that last read times out and the receive error is raised. *)
Theorem recv_exact_multiple_does_not_hang :
  (forall (inst : SocketInstrument.instrument) (sk : SocketInstrument.socket),
      SocketInstrument._socket inst = Some sk ->
      (0 < SocketInstrument._socket_buffer_size inst)%nat ->
      SocketInstrument.decode (SocketInstrument._codefmt inst) [] = Some [] ->
      exists result,
        forall fuel, (pending (SocketInstrument.incoming sk) < fuel)%nat ->
                     SocketInstrument._recv fuel inst = Some result)
  /\
  (forall (inst : SocketInstrument.instrument) (sk : SocketInstrument.socket)
          (m : nat) (data : list Byte.byte),
      SocketInstrument._socket inst = Some sk ->
      SocketInstrument._codefmt inst = SocketInstrument.utf_8 ->
      (0 < SocketInstrument._socket_buffer_size inst)%nat ->
      SocketInstrument.incoming sk = arrived data ->
      List.length data = (m * SocketInstrument._socket_buffer_size inst)%nat ->
      ascii_bytes data ->
      forall fuel, (m < fuel)%nat ->
        let after :=
          SocketInstrument.with_socket inst
            (Some (drained (SocketInstrument._socket_buffer_size inst) (S m) sk)) in
        let resp :=
          SocketInstrument.rstrip (SocketInstrument._escseq inst)
            (map Byte.to_N data) in
        SocketInstrument._recv fuel inst =
          Some (match SocketInstrument.peer sk with
                | SocketInstrument.Closed =>
                    (inl resp,
                     SocketInstrument.logging after
                       (SocketInstrument.DebugReceived resp))
                | SocketInstrument.Silent =>
                    (inr (SocketInstrument.SocketInstrumentError
                            SocketInstrument.TimeoutReceiving),
                     SocketInstrument.logging after
                       (SocketInstrument.LoggedException
                          SocketInstrument.TimeoutReceiving))
                end)).
Proof.
  split.
  - exact _recv_terminates.
  - intros inst sk m data Hs Hcodec Hpos Hq Hlen Hascii fuel Hfuel after resp.
    unfold SocketInstrument._recv. rewrite Hs, Hcodec.
    rewrite (recv_loop_enough_fuel (S m) fuel Hfuel _ _ _ _ _
               (recv_loop_exact_multiple _ Hpos m data [] sk Hlen Hascii Hq)).
    subst after resp. cbn [app].
    destruct (SocketInstrument.peer sk); reflexivity.
Qed.

(** ** The socket link: queries *)

Section Query.
Import SocketInstrument.

(** The socket after [sendall payload]. *)
Definition sent (payload : list Byte.byte) (sk : socket) : socket :=
  {| incoming := incoming sk; peer := peer sk;
     deliveries := tl (deliveries sk);
     calls := calls sk ++ [CallSendall payload] |}.

(** The network takes the next [sendall]. *)
Definition accepts (sk : socket) : Prop :=
  hd Delivered (deliveries sk) = Delivered.

Lemma _send_connected (cmd : str) (inst : instrument) (sk : socket)
    (payload : list Byte.byte) :
  _socket inst = Some sk ->
  encode (_codefmt inst) (cmd ++ _escseq inst) = Some payload ->
  let inst1 := with_socket inst (Some (sent payload sk)) in
  _send cmd inst =
    match hd Delivered (deliveries sk) with
    | Delivered => (inl tt, logging inst1 (DebugSent cmd))
    | SendStall =>
        (inr (SocketInstrumentError (TimeoutSending cmd)),
         logging inst1 (LoggedException (TimeoutSending cmd)))
    | SendFault =>
        (inr (SocketInstrumentError (ErrorSending cmd)),
         logging inst1 (LoggedException (ErrorSending cmd)))
    end.
Proof.
  intros Hs He inst1. unfold _send. rewrite Hs, He. unfold sendall.
  subst inst1. unfold sent.
  destruct (deliveries sk) as [|[| |] rest]; reflexivity.
Qed.

End Query.

(** C9.  On a connected instrument, [_query cmd] makes one [sendall], whose
    argument is [cmd] followed by [;*OPC?] and the line terminator in the
    configured encoding.  When the network takes it, one [_recv] follows:
    the socket sees that [sendall] and then only [recv] calls, and the log
    gains the record of the send and the one record of the receive.  When
    the send fails, nothing is received.  With the settings of [__init__],
    [_query("*RST")] sends the UTF-8 bytes of [*RST;*OPC?] and a newline. *)
Theorem query_sends_command_opc_then_receives_once :
  (forall (inst : SocketInstrument.instrument) (sk : SocketInstrument.socket)
          (cmd : SocketInstrument.str) (payload : list Byte.byte),
      SocketInstrument._socket inst = Some sk ->
      (0 < SocketInstrument._socket_buffer_size inst)%nat ->
      SocketInstrument.decode (SocketInstrument._codefmt inst) [] = Some [] ->
      SocketInstrument.encode (SocketInstrument._codefmt inst)
        ((cmd ++ SocketInstrument.of_string ";*OPC?")
           ++ SocketInstrument._escseq inst) = Some payload ->
      (accepts sk ->
       exists result inst' sk' n,
         (forall fuel,
             (pending (SocketInstrument.incoming sk) < fuel)%nat ->
             SocketInstrument._query fuel cmd inst = Some (result, inst')) /\
         SocketInstrument._socket inst' = Some sk' /\
         SocketInstrument.calls sk' =
           SocketInstrument.calls sk ++
           SocketInstrument.CallSendall payload ::
           repeat (SocketInstrument.CallRecv
                     (SocketInstrument._socket_buffer_size inst)) (S n) /\
         SocketInstrument._logger inst' =
           SocketInstrument._logger inst ++
           [SocketInstrument.DebugSent
              (cmd ++ SocketInstrument.of_string ";*OPC?");
            recorded result]) /\
      (~ accepts sk ->
       exists msg inst' sk',
         (forall fuel,
             SocketInstrument._query fuel cmd inst =
               Some (inr (SocketInstrument.SocketInstrumentError msg), inst')) /\
         SocketInstrument._socket inst' = Some sk' /\
         SocketInstrument.calls sk' =
           SocketInstrument.calls sk ++ [SocketInstrument.CallSendall payload] /\
         SocketInstrument._logger inst' =
           SocketInstrument._logger inst ++
           [SocketInstrument.LoggedException msg]))
  /\
  (forall sk : SocketInstrument.socket,
      let inst := SocketInstrument.with_socket SocketInstrument.init (Some sk) in
      SocketInstrument.encode (SocketInstrument._codefmt inst)
        ((SocketInstrument.of_string "*RST"
            ++ SocketInstrument.of_string ";*OPC?")
           ++ SocketInstrument._escseq inst)
      = Some [Byte.x2a; Byte.x52; Byte.x53; Byte.x54; Byte.x3b; Byte.x2a;
              Byte.x4f; Byte.x50; Byte.x43; Byte.x3f; Byte.x0a]).
Proof.
  split; [|reflexivity].
  intros inst sk cmd payload Hs Hpos Hempty Henc.
  pose proof (_send_connected _ inst sk payload Hs Henc) as Hsend.
  cbv zeta in Hsend.
  set (inst1 := SocketInstrument.with_socket inst (Some (sent payload sk))) in *.
  split.
  - intros Hacc. unfold accepts in Hacc. rewrite Hacc in Hsend.
    set (inst2 := SocketInstrument.logging inst1
                    (SocketInstrument.DebugSent
                       (cmd ++ SocketInstrument.of_string ";*OPC?"))) in *.
    assert (Hs2 : SocketInstrument._socket inst2 = Some (sent payload sk))
      by reflexivity.
    destruct (_recv_terminates inst2 (sent payload sk) Hs2 Hpos Hempty)
      as [[result inst'] Hrecv].
    cbn [sent SocketInstrument.incoming] in Hrecv.
    pose proof (Hrecv _ (Nat.lt_succ_diag_r _)) as Hone.
    destruct (_recv_effect _ _ _ _ _ Hs2 Hone) as (sk' & n & Hsk' & Hcalls & Hlog).
    exists result, inst', sk', n. repeat split.
    + intros fuel Hfuel. unfold SocketInstrument._query. rewrite Hsend.
      now apply Hrecv.
    + exact Hsk'.
    + rewrite Hcalls. cbn [sent SocketInstrument.calls].
      rewrite <- app_assoc. reflexivity.
    + rewrite Hlog. cbn. rewrite <- app_assoc. reflexivity.
  - intros Hrej. unfold accepts in Hrej.
    destruct (hd SocketInstrument.Delivered (SocketInstrument.deliveries sk))
      eqn:Ehd; [congruence| |].
    + eexists. eexists. exists (sent payload sk).
      split; [intros fuel; unfold SocketInstrument._query; rewrite Hsend;
              reflexivity|].
      repeat split; reflexivity.
    + eexists. eexists. exists (sent payload sk).
      split; [intros fuel; unfold SocketInstrument._query; rewrite Hsend;
              reflexivity|].
      repeat split; reflexivity.
Qed.

(** * Concrete runs *)

(** A coexistence sweep over one bt attenuation, compared with the baseline
    recorded from it. *)
Module Identity.
Import CoexPerformanceBaseTest.

Definition entry : rvr_entry :=
  {| attenuation := [0; 10; 20]; fixed_attenuation := 0;
     throughput_received := [100; 80; 50] |}.

Definition self_with (tolerance : Z) : self :=
  {| params :=
       {| abs_tolerance := 5; pct_tolerance := 10;
          failure_count_tolerance := tolerance;
          has_fixed_attenuation := true |};
     current_test_name := "test_performance";
     performance_files_list := Some ["results/test_performance.json"%string];
     bt_atten_range := [0%Z];
     rvr := fun bt => if Z.eqb bt 0 then Some entry else None |}.

Definition results : performance_results :=
  fun bt => if Z.eqb bt 0 then Some (mirror entry) else None.

Definition files : filesystem := fun _ => Json results.

(** The limits [get_throughput_limits] computes for the sweep. *)
Definition computed (s : self) : Z -> option limits :=
  match get_throughput_limits s files "results/test_performance.json" with
  | Ret tl => tl
  | Raise _ => fun _ => None
  end.

End Identity.

Lemma identity_reference_available (tolerance : Z) :
  reference_available (Identity.self_with tolerance) Identity.files
    (Identity.computed (Identity.self_with tolerance)).
Proof.
  exists ["results/test_performance.json"%string],
         "results/test_performance.json"%string.
  repeat split.
Qed.

Lemma identity_is_identity_sweep (tolerance : Z) :
  identity_sweep (Identity.self_with tolerance) Identity.results.
Proof.
  intros bt [<-|[]]. exists Identity.entry.
  split; [reflexivity|]. split; [reflexivity|].
  split; [reflexivity|]. split.
  - intros v [<-|[<-|[<-|[]]]]; discriminate.
  - intros [|[|[|idx]]] H; cbn in H; try lia; vm_compute; lia.
Qed.

Lemma tolerance_band_formula_witness :
  (exists vmin vmax lower upper,
      extremes (selected_values (10 + 0) [0; 10; 20] [100; 80; 50] 2) vmin vmax /\
      WifiRvrTest.point_range Scenario.params Scenario.golden [0; 10; 20]
        (Scenario.sweep 75) 0 = Ret (10 + 0, (lower, upper)) /\
      band_of 5 10 vmin vmax lower upper) /\
  (exists vmin vmax lower upper,
      extremes (selected_values (20 + 0) [0; 10; 20] [100; 80; 50] 3) vmin vmax /\
      CoexPerformanceBaseTest.point_limits
        (CoexPerformanceBaseTest.params (Identity.self_with 1))
        (mirror Identity.entry) (Some [0; 10; 20]) Identity.entry 2
      = Ret (20 + 0, (lower, upper)) /\
      band_of 5 10 vmin vmax lower upper).
Proof.
  split.
  - exact (proj1 tolerance_band_formula Scenario.params Scenario.golden
             [0; 10; 20] (Scenario.sweep 75) 0%nat 10 [100; 80; 50]
             eq_refl eq_refl (le_n 3) (le_S 2 2 (le_n 2))).
  - exact (proj2 tolerance_band_formula
             (CoexPerformanceBaseTest.params (Identity.self_with 1))
             (mirror Identity.entry) [0; 10; 20] Identity.entry 2%nat 20
             [100; 80; 50] eq_refl eq_refl (le_n 3)
             (le_S 1 2 (le_S 1 1 (le_n 1)))).
Defined.



Lemma scenario_comparable (measured : Q) :
  rvr_comparable Scenario.params Scenario.golden [0; 10; 20]
    (Scenario.sweep measured)
    (enumerate (WifiRvrTest.throughput_receive (Scenario.sweep measured))).
Proof.
  intros p [<-|[]]. eexists. eexists. reflexivity.
Qed.

Lemma aggregation_policies_witness :
  (let fails := rvr_point_fails Scenario.params Scenario.golden [0; 10; 20]
                  (Scenario.sweep 60) in
   let points :=
     enumerate (WifiRvrTest.throughput_receive (Scenario.sweep 60)) in
   let verdict :=
     WifiRvrTest.pass_fail_check Scenario.params (Json Scenario.golden)
       (Scenario.sweep 60) in
   ((exists p, In p points /\ fails (fst p) (snd p)) <->
    (exists current_att current range,
        verdict = Raise (TestFailure current_att current range))) /\
   ((forall p, In p points -> ~ fails (fst p) (snd p)) <->
    verdict = Raise TestPass) /\
   (forall before idx current after current_att range,
       points = before ++ (idx, current) :: after ->
       (forall q, In q before -> ~ fails (fst q) (snd q)) ->
       WifiRvrTest.point_range Scenario.params Scenario.golden [0; 10; 20]
         (Scenario.sweep 60) idx = Ret (current_att, range) ->
       WifiRvrTest.beyond_limits Scenario.params range current = true ->
       verdict = Raise (TestFailure current_att current range))) /\
  (let s := Identity.self_with 1 in
   let reached :=
     (CoexPerformanceBaseTest.failure_count_tolerance
        (CoexPerformanceBaseTest.params s)
      <= total_failures s (Identity.computed s)
           (CoexPerformanceBaseTest.bt_atten_range s))%Z in
   let verdict :=
     snd (CoexPerformanceBaseTest.throughput_pass_fail_check s Identity.files) in
   (verdict = Some false <-> reached) /\ (verdict = None <-> ~ reached)).
Proof.
  split.
  - exact (proj1 aggregation_policies Scenario.params Scenario.golden
             [0; 10; 20] (Scenario.sweep 60) eq_refl (scenario_comparable 60)).
  - refine (proj2 aggregation_policies (Identity.self_with 1) Identity.files
              (Identity.computed (Identity.self_with 1))
              (identity_reference_available 1) _).
    discriminate.
Defined.

Lemma zero_failure_count_tolerance_always_fails_witness :
  total_failures (Identity.self_with 0) (Identity.computed (Identity.self_with 0))
    [0%Z] = 0%Z /\
  snd (CoexPerformanceBaseTest.throughput_pass_fail_check
         (Identity.self_with 0) Identity.files) = Some false.
Proof.
  split; [reflexivity|].
  refine (zero_failure_count_tolerance_always_fails (Identity.self_with 0)
            Identity.files (Identity.computed (Identity.self_with 0))
            eq_refl (identity_reference_available 0) _).
  discriminate.
Defined.

Lemma reference_unavailable_is_not_out_of_tolerance_witness :
  ((WifiRvrTest.pass_fail_check Scenario.params Missing (Scenario.sweep 60)
    = Raise FileNotFoundError \/
    WifiRvrTest.pass_fail_check Scenario.params Missing (Scenario.sweep 60)
    = Raise JSONDecodeError \/
    WifiRvrTest.pass_fail_check Scenario.params Missing (Scenario.sweep 60)
    = Raise KeyError) /\
   WifiRvrTest.pass_fail_check Scenario.params Missing (Scenario.sweep 60)
   <> Raise TestPass /\
   WifiRvrTest.pass_fail_check Scenario.params Missing (Scenario.sweep 60) <>
   WifiRvrTest.pass_fail_check Scenario.params (Json Scenario.golden)
     (Scenario.sweep 60)) /\
  (CoexPerformanceBaseTest.throughput_pass_fail_check (Identity.self_with 1)
     (fun _ => Missing)
   = ([CoexPerformanceBaseTest.WarningNoPerformanceFile], None) /\
   CoexPerformanceBaseTest.throughput_pass_fail_check (Identity.self_with 1)
     (fun _ => Missing) <>
   CoexPerformanceBaseTest.throughput_pass_fail_check Repeated.coex_self
     Repeated.coex_files).
Proof.
  assert (Hun : reference_unavailable (Identity.self_with 1) (fun _ => Missing)).
  { right. right.
    exists ["results/test_performance.json"%string],
           "results/test_performance.json"%string, [].
    repeat split. now left. }
  assert (Hav : exists tl, reference_available Repeated.coex_self
                             Repeated.coex_files tl).
  { eexists.
    exists ["results/test_performance.json"%string],
           "results/test_performance.json"%string.
    repeat split. }
  destruct Hav as [tl Hav].
  destruct (proj1 reference_unavailable_is_not_out_of_tolerance Scenario.params
              (Scenario.sweep 60) Missing (or_introl eq_refl))
    as (H1 & H2 & H3).
  destruct (proj2 reference_unavailable_is_not_out_of_tolerance
              (Identity.self_with 1) (fun _ => Missing) Hun)
    as (H4 & _ & H6).
  split.
  - split; [exact H1|]. split; [exact H2|].
    exact (H3 Scenario.params (Json Scenario.golden) (Scenario.sweep 60)
             10 60 (7200 # 100, 11000 # 100) eq_refl).
  - split; [exact H4|]. exact (H6 _ _ tl Hav).
Defined.

Lemma rvr_empty_sweep_verdict_witness :
  WifiRvrTest.pass_fail_check Scenario.params (Json Scenario.golden)
    {| WifiRvrTest.attenuation := []; WifiRvrTest.fixed_attenuation := 0;
       WifiRvrTest.throughput_receive := [] |} = Raise TestPass.
Proof.
  exact (proj1 (rvr_empty_sweep_verdict Scenario.params
                  {| WifiRvrTest.attenuation := [];
                     WifiRvrTest.fixed_attenuation := 0;
                     WifiRvrTest.throughput_receive := [] |} eq_refl)
           Scenario.golden [0; 10; 20] eq_refl).
Defined.

Lemma identity_sweep_passes_witness :
  WifiRvrTest.pass_fail_check Scenario.params
    (Json (rvr_reference [0; 10; 20] [100; 80; 50] 0))
    (rvr_same_sweep [0; 10; 20] [100; 80; 50] 0) = Raise TestPass /\
  (exists tl,
      CoexPerformanceBaseTest.get_throughput_limits (Identity.self_with 1)
        Identity.files "results/test_performance.json" = Ret tl /\
      total_failures (Identity.self_with 1) tl [0%Z] = 0%Z /\
      Forall (fun record => ~ reports_point record)
        (fst (CoexPerformanceBaseTest.throughput_pass_fail_check
                (Identity.self_with 1) Identity.files)) /\
      ((0 < 1)%Z ->
       snd (CoexPerformanceBaseTest.throughput_pass_fail_check
              (Identity.self_with 1) Identity.files) = None)).
Proof.
  split.
  - refine (proj1 identity_sweep_passes Scenario.params [0; 10; 20]
              [100; 80; 50] 0 _ eq_refl (le_S 2 2 (le_n 2)) _ _).
    + discriminate.
    + intros v [<-|[<-|[<-|[]]]]; discriminate.
    + intros [|[|[|idx]]] H; cbn in H; try lia; vm_compute; lia.
  - refine (proj2 identity_sweep_passes (Identity.self_with 1) Identity.files
              ["results/test_performance.json"%string]
              "results/test_performance.json"%string Identity.results
              eq_refl eq_refl eq_refl eq_refl _
              (identity_is_identity_sweep 1)).
    discriminate.
Defined.

(** A peer that answers with 1024 letters and closes, and one that answers a
    query with a short line. *)
Module Link.
Import SocketInstrument.

Definition full_buffer : list Byte.byte := repeat Byte.x41 1024.

Definition closing_peer : socket :=
  {| incoming := [Segment full_buffer]; peer := Closed;
     deliveries := []; calls := [] |}.

Definition answering_peer : socket :=
  {| incoming := [Segment [Byte.x31; Byte.x0a]]; peer := Silent;
     deliveries := []; calls := [] |}.

Definition connected (sk : socket) : instrument := with_socket init (Some sk).

End Link.

Lemma full_buffer_ascii : ascii_bytes Link.full_buffer.
Proof.
  apply Forall_forall. intros b Hb. apply repeat_spec in Hb. now subst b.
Qed.

Lemma recv_exact_multiple_does_not_hang_witness :
  SocketInstrument._recv 2 (Link.connected Link.closing_peer) =
    Some (inl (map Byte.to_N Link.full_buffer),
          SocketInstrument.logging
            (SocketInstrument.with_socket (Link.connected Link.closing_peer)
               (Some (drained 1024 2 Link.closing_peer)))
            (SocketInstrument.DebugReceived (map Byte.to_N Link.full_buffer))).
Proof.
  exact (proj2 recv_exact_multiple_does_not_hang
           (Link.connected Link.closing_peer) Link.closing_peer 1%nat
           Link.full_buffer eq_refl eq_refl (Nat.lt_0_succ 1023) eq_refl eq_refl
           full_buffer_ascii 2%nat (le_n 2)).
Defined.

Lemma query_sends_command_opc_then_receives_once_witness :
  exists result inst' sk' n,
    (forall fuel,
        (pending (SocketInstrument.incoming Link.answering_peer) < fuel)%nat ->
        SocketInstrument._query fuel (SocketInstrument.of_string "*RST")
          (Link.connected Link.answering_peer) = Some (result, inst')) /\
    SocketInstrument._socket inst' = Some sk' /\
    SocketInstrument.calls sk' =
      [] ++
      SocketInstrument.CallSendall
        [Byte.x2a; Byte.x52; Byte.x53; Byte.x54; Byte.x3b; Byte.x2a;
         Byte.x4f; Byte.x50; Byte.x43; Byte.x3f; Byte.x0a] ::
      repeat (SocketInstrument.CallRecv 1024) (S n) /\
    SocketInstrument._logger inst' =
      [] ++
      [SocketInstrument.DebugSent
         (SocketInstrument.of_string "*RST"
            ++ SocketInstrument.of_string ";*OPC?");
       recorded result].
Proof.
  exact (proj1 (proj1 query_sends_command_opc_then_receives_once
                  (Link.connected Link.answering_peer) Link.answering_peer
                  (SocketInstrument.of_string "*RST")
                  [Byte.x2a; Byte.x52; Byte.x53; Byte.x54; Byte.x3b; Byte.x2a;
                   Byte.x4f; Byte.x50; Byte.x43; Byte.x3f; Byte.x0a]
                  eq_refl (Nat.lt_0_succ 1023) eq_refl eq_refl)
           eq_refl).
Defined.

Example query_rst_run :
  SocketInstrument._query 2 (SocketInstrument.of_string "*RST")
    (Link.connected Link.answering_peer)
  = Some (inl [49%N],
          SocketInstrument.logging
            (SocketInstrument.logging
               (SocketInstrument.with_socket (Link.connected Link.answering_peer)
                  (Some {| SocketInstrument.incoming := [];
                           SocketInstrument.peer := SocketInstrument.Silent;
                           SocketInstrument.deliveries := [];
                           SocketInstrument.calls :=
                             [SocketInstrument.CallSendall
                                [Byte.x2a; Byte.x52; Byte.x53; Byte.x54;
                                 Byte.x3b; Byte.x2a; Byte.x4f; Byte.x50;
                                 Byte.x43; Byte.x3f; Byte.x0a];
                              SocketInstrument.CallRecv 1024] |}))
               (SocketInstrument.DebugSent
                  (SocketInstrument.of_string "*RST;*OPC?")))
            (SocketInstrument.DebugReceived [49%N])).
Proof. reflexivity. Qed.

(** * Further properties of the comparators *)

(** ** The band and the absolute tolerance *)

Lemma margin_monotone (a a' p v : Q) :
  a <= a' -> Nearest.margin a p v <= Nearest.margin a' p v.
Proof.
  intros H. unfold Nearest.margin. rewrite !max_Qmax.
  apply Q.max_le_compat_r. exact H.
Qed.

Lemma lower_of_antitone (a a' p v : Q) :
  a <= a' -> Nearest.lower_of a' p v <= Nearest.lower_of a p v.
Proof.
  intros H. unfold Nearest.lower_of. rewrite !max_Qmax.
  apply Q.max_le_compat_r.
  pose proof (margin_monotone a a' p v H). lra.
Qed.

Lemma upper_of_monotone (a a' p v : Q) :
  a <= a' -> Nearest.upper_of a p v <= Nearest.upper_of a' p v.
Proof.
  intros H. unfold Nearest.upper_of.
  pose proof (margin_monotone a a' p v H). lra.
Qed.

Lemma lower_of_nonneg (a p v : Q) : 0 <= Nearest.lower_of a p v.
Proof. unfold Nearest.lower_of. apply max_ge_r. Qed.

(** The band of an RvR point is built from two reference values that do not
    depend on the tolerances. *)
Lemma rvr_point_range_shape (tp : WifiRvrTest.test_params)
    (g : WifiRvrTest.gldn_results) (gldn_att : list Q)
    (r : WifiRvrTest.rvr_result) (idx : nat) (current_att lower upper : Q) :
  WifiRvrTest.point_range tp g gldn_att r idx = Ret (current_att, (lower, upper)) ->
  exists c0 c1,
    lower = Nearest.lower_of (WifiRvrTest.abs_tolerance tp)
              (WifiRvrTest.pct_tolerance tp) c0 /\
    upper = Nearest.upper_of (WifiRvrTest.abs_tolerance tp)
              (WifiRvrTest.pct_tolerance tp) c1 /\
    forall tp',
      WifiRvrTest.point_range tp' g gldn_att r idx =
        Ret (current_att,
             (Nearest.lower_of (WifiRvrTest.abs_tolerance tp')
                (WifiRvrTest.pct_tolerance tp') c0,
              Nearest.upper_of (WifiRvrTest.abs_tolerance tp')
                (WifiRvrTest.pct_tolerance tp') c1)).
Proof.
  unfold WifiRvrTest.point_range, WifiRvrTest.allowed_throughput_range.
  intros H.
  destruct (getitem (WifiRvrTest.attenuation r) idx) as [att|]; [|discriminate].
  cbn [bind] in H |- *.
  destruct (WifiRvrTest.closest_throughputs g _) as [closest|]; [|discriminate].
  cbn [bind] in H |- *.
  destruct (getitem closest 0) as [c0|]; [|discriminate]. cbn [bind] in H |- *.
  destruct (getitem closest 1) as [c1|]; [|discriminate]. cbn [bind] in H |- *.
  injection H as <- <- <-. exists c0, c1. auto.
Qed.

Lemma coex_point_limits_shape (tp : CoexPerformanceBaseTest.test_params)
    (pd : CoexPerformanceBaseTest.performance_dict) (pa : option (list Q))
    (e : CoexPerformanceBaseTest.rvr_entry) (idx : nat)
    (current_att lower upper : Q) :
  CoexPerformanceBaseTest.point_limits tp pd pa e idx =
    Ret (current_att, (lower, upper)) ->
  exists att c0 clast,
    nth_error (CoexPerformanceBaseTest.attenuation e) idx = Some att /\
    current_att = att + CoexPerformanceBaseTest.fixed_attenuation e /\
    lower = Nearest.lower_of (CoexPerformanceBaseTest.abs_tolerance tp)
              (CoexPerformanceBaseTest.pct_tolerance tp) c0 /\
    upper = Nearest.upper_of (CoexPerformanceBaseTest.abs_tolerance tp)
              (CoexPerformanceBaseTest.pct_tolerance tp) clast /\
    forall tp',
      CoexPerformanceBaseTest.point_limits tp' pd pa e idx =
        Ret (current_att,
             (Nearest.lower_of (CoexPerformanceBaseTest.abs_tolerance tp')
                (CoexPerformanceBaseTest.pct_tolerance tp') c0,
              Nearest.upper_of (CoexPerformanceBaseTest.abs_tolerance tp')
                (CoexPerformanceBaseTest.pct_tolerance tp') clast)).
Proof.
  unfold CoexPerformanceBaseTest.point_limits. intros H.
  unfold getitem at 1 in H. unfold getitem at 1.
  destruct (nth_error (CoexPerformanceBaseTest.attenuation e) idx) as [att|];
    [|discriminate].
  cbn [bind] in H |- *.
  destruct (CoexPerformanceBaseTest.iterate pa) as [reference|]; [|discriminate].
  cbn [bind] in H |- *.
  destruct (CoexPerformanceBaseTest.closest_throughputs pd _) as [closest|];
    [|discriminate].
  cbn [bind] in H |- *.
  destruct (getitem closest 0) as [c0|]; [|discriminate]. cbn [bind] in H |- *.
  destruct (getlast closest) as [clast|]; [|discriminate]. cbn [bind] in H |- *.
  injection H as <- <- <-. exists att, c0, clast. auto.
Qed.

(** X1.  A larger [abs_tolerance] (same [pct_tolerance]) gives, for every
    point of either comparator, a band that contains the former one: the
    lower limit does not rise and the upper limit does not fall. *)
Theorem band_widens_with_abs_tolerance :
  (forall (tp : WifiRvrTest.test_params) (abs_tolerance' : Q)
          (g : WifiRvrTest.gldn_results) (gldn_att : list Q)
          (r : WifiRvrTest.rvr_result) (idx : nat)
          (current_att lower upper : Q),
      WifiRvrTest.abs_tolerance tp <= abs_tolerance' ->
      WifiRvrTest.point_range tp g gldn_att r idx =
        Ret (current_att, (lower, upper)) ->
      exists lower' upper',
        WifiRvrTest.point_range
          {| WifiRvrTest.abs_tolerance := abs_tolerance';
             WifiRvrTest.pct_tolerance := WifiRvrTest.pct_tolerance tp |}
          g gldn_att r idx = Ret (current_att, (lower', upper')) /\
        lower' <= lower /\ upper <= upper')
  /\
  (forall (tp : CoexPerformanceBaseTest.test_params) (abs_tolerance' : Q)
          (pd : CoexPerformanceBaseTest.performance_dict)
          (pa : option (list Q)) (e : CoexPerformanceBaseTest.rvr_entry)
          (idx : nat) (current_att lower upper : Q),
      CoexPerformanceBaseTest.abs_tolerance tp <= abs_tolerance' ->
      CoexPerformanceBaseTest.point_limits tp pd pa e idx =
        Ret (current_att, (lower, upper)) ->
      exists lower' upper',
        CoexPerformanceBaseTest.point_limits
          {| CoexPerformanceBaseTest.abs_tolerance := abs_tolerance';
             CoexPerformanceBaseTest.pct_tolerance :=
               CoexPerformanceBaseTest.pct_tolerance tp;
             CoexPerformanceBaseTest.failure_count_tolerance :=
               CoexPerformanceBaseTest.failure_count_tolerance tp;
             CoexPerformanceBaseTest.has_fixed_attenuation :=
               CoexPerformanceBaseTest.has_fixed_attenuation tp |}
          pd pa e idx = Ret (current_att, (lower', upper')) /\
        lower' <= lower /\ upper <= upper').
Proof.
  split.
  - intros tp a' g gldn_att r idx ca lower upper Ha H.
    destruct (rvr_point_range_shape _ _ _ _ _ _ _ _ H) as (c0 & c1 & -> & -> & H').
    eexists. eexists. split; [apply H'|]. cbn.
    split; [now apply lower_of_antitone | now apply upper_of_monotone].
  - intros tp a' pd pa e idx ca lower upper Ha H.
    destruct (coex_point_limits_shape _ _ _ _ _ _ _ _ H)
      as (att & c0 & clast & _ & _ & -> & -> & H').
    eexists. eexists. split; [apply H'|]. cbn.
    split; [now apply lower_of_antitone | now apply upper_of_monotone].
Qed.

Lemma band_widens_with_abs_tolerance_witness :
  exists lower' upper',
    WifiRvrTest.point_range
      {| WifiRvrTest.abs_tolerance := 20; WifiRvrTest.pct_tolerance := 10 |}
      Scenario.golden [0; 10; 20] (Scenario.sweep 75) 0
    = Ret (10, (lower', upper')) /\
    lower' <= 7200 # 100 /\ 11000 # 100 <= upper'.
Proof.
  refine (proj1 band_widens_with_abs_tolerance Scenario.params 20
            Scenario.golden [0; 10; 20] (Scenario.sweep 75) 0%nat 10
            (7200 # 100) (11000 # 100) _ eq_refl).
  discriminate.
Defined.

(** ** The RvR verdict and the absolute tolerance *)

Lemma getitem_raises {A} (l : list A) (i : nat) (e : exn) :
  getitem l i = Raise e -> e = IndexError.
Proof.
  unfold getitem. destruct (nth_error l i); [discriminate|]. now intros [= <-].
Qed.

Lemma comprehension_raises {A B} (P : exn -> Prop) (f : A -> res B)
    (l : list A) (e : exn) :
  (forall x e', f x = Raise e' -> P e') ->
  comprehension f l = Raise e -> P e.
Proof.
  intros Hf. induction l as [|x xs IH]; cbn [comprehension]; [discriminate|].
  destruct (f x) as [y|e'] eqn:Ex; cbn [bind].
  - destruct (comprehension f xs) as [ys|e'']; cbn [bind]; [discriminate|].
    intros [= <-]. now apply IH.
  - intros [= <-]. exact (Hf _ _ Ex).
Qed.

(** [IndexError] or [KeyError]. *)
Definition lookup_error (e : exn) : Prop := e = IndexError \/ e = KeyError.

Lemma rvr_closest_throughputs_raises (g : WifiRvrTest.gldn_results)
    (indeces : list nat) (e : exn) :
  WifiRvrTest.closest_throughputs g indeces = Raise e -> lookup_error e.
Proof.
  unfold WifiRvrTest.closest_throughputs. intros H.
  destruct (comprehension _ indeces) as [l|e'] eqn:Ec; [discriminate|].
  cbn [bind] in H. injection H as <-.
  apply (comprehension_raises lookup_error _ _ _) in Ec; [exact Ec|].
  intros index e'' Hx.
  destruct (WifiRvrTest.gldn_throughput_receive_key g) as [thr|];
    cbn [getkey bind] in Hx.
  - left. exact (getitem_raises _ _ _ Hx).
  - right. now injection Hx as <-.
Qed.

(** An error in computing the band of a point does not depend on the
    tolerances. *)
Lemma rvr_point_range_error (tp : WifiRvrTest.test_params)
    (g : WifiRvrTest.gldn_results) (gldn_att : list Q)
    (r : WifiRvrTest.rvr_result) (idx : nat) (e : exn) :
  WifiRvrTest.point_range tp g gldn_att r idx = Raise e ->
  lookup_error e /\
  forall tp', WifiRvrTest.point_range tp' g gldn_att r idx = Raise e.
Proof.
  unfold WifiRvrTest.point_range, WifiRvrTest.allowed_throughput_range.
  intros H.
  destruct (getitem (WifiRvrTest.attenuation r) idx) as [att|e0] eqn:Ea;
    cbn [bind] in H |- *.
  2:{ injection H as <-. split; [left; exact (getitem_raises _ _ _ Ea)|auto]. }
  destruct (WifiRvrTest.closest_throughputs g _) as [closest|e0] eqn:Ec;
    cbn [bind] in H |- *.
  2:{ injection H as <-.
      split; [exact (rvr_closest_throughputs_raises _ _ _ Ec)|auto]. }
  destruct (getitem closest 0) as [c0|e0] eqn:E0; cbn [bind] in H |- *.
  2:{ injection H as <-. split; [left; exact (getitem_raises _ _ _ E0)|auto]. }
  destruct (getitem closest 1) as [c1|e0] eqn:E1; cbn [bind] in H |- *.
  2:{ injection H as <-. split; [left; exact (getitem_raises _ _ _ E1)|auto]. }
  discriminate.
Qed.

Lemma beyond_limits_relax (tp tp' : WifiRvrTest.test_params)
    (lower upper lower' upper' current : Q) :
  WifiRvrTest.abs_tolerance tp <= WifiRvrTest.abs_tolerance tp' ->
  lower' <= lower -> upper <= upper' ->
  WifiRvrTest.beyond_limits tp (lower, upper) current = false ->
  WifiRvrTest.beyond_limits tp' (lower', upper') current = false.
Proof.
  unfold WifiRvrTest.beyond_limits. cbn [fst snd].
  rewrite !orb_false_iff, !Qltb_ge. intros Ha Hl Hu [H1 H2]. split; lra.
Qed.

Section RvrRelax.
Import WifiRvrTest.
Variables (tp : test_params) (abs_tolerance' : Q).
Hypothesis relax : abs_tolerance tp <= abs_tolerance'.

(** The parameters with the larger absolute tolerance. *)
Definition relaxed : test_params :=
  {| abs_tolerance := abs_tolerance'; pct_tolerance := pct_tolerance tp |}.

Lemma check_point_relax (g : gldn_results) (gldn_att : list Q)
    (r : rvr_result) (idx : nat) (current : Q) :
  match check_point tp g gldn_att r idx current with
  | Ret _ => check_point relaxed g gldn_att r idx current = Ret tt
  | Raise (TestFailure _ _ _) => True
  | Raise e => check_point relaxed g gldn_att r idx current = Raise e
  end.
Proof.
  unfold check_point.
  destruct (point_range tp g gldn_att r idx) as [[ca [lo hi]]|e] eqn:Hr.
  - destruct (rvr_point_range_shape _ _ _ _ _ _ _ _ Hr)
      as (c0 & c1 & -> & -> & H').
    rewrite (H' relaxed). cbn [bind].
    change (abs_tolerance relaxed) with abs_tolerance'.
    change (pct_tolerance relaxed) with (pct_tolerance tp).
    destruct (beyond_limits tp _ current) eqn:Eb; [exact I|].
    rewrite (beyond_limits_relax tp relaxed _ _ _ _ current relax
               (lower_of_antitone _ _ _ _ relax)
               (upper_of_monotone _ _ _ _ relax) Eb).
    reflexivity.
  - destruct (rvr_point_range_error _ _ _ _ _ _ Hr) as [Hk H'].
    rewrite (H' relaxed). cbn [bind].
    destruct Hk as [-> | ->]; reflexivity.
Qed.

Lemma check_points_relax (g : gldn_results) (gldn_att : list Q)
    (r : rvr_result) (points : list (nat * Q)) :
  match check_points tp g gldn_att r points with
  | Ret _ => check_points relaxed g gldn_att r points = Ret tt
  | Raise (TestFailure _ _ _) => True
  | Raise e => check_points relaxed g gldn_att r points = Raise e
  end.
Proof.
  induction points as [|[idx current] rest IH]; [reflexivity|].
  cbn [check_points].
  pose proof (check_point_relax g gldn_att r idx current) as Hp.
  destruct (check_point tp g gldn_att r idx current) as [[]|e]; cbn [bind].
  - rewrite Hp. cbn [bind]. exact IH.
  - destruct e; try exact I; rewrite Hp; reflexivity.
Qed.

Lemma pass_fail_check_relax (gldn_file : file gldn_results) (r : rvr_result) :
  match pass_fail_check tp gldn_file r with
  | Raise (TestFailure _ _ _) => True
  | outcome => pass_fail_check relaxed gldn_file r = outcome
  end.
Proof.
  unfold pass_fail_check.
  destruct (load gldn_file) as [g|e]; cbn [bind]; [|destruct e; reflexivity].
  destruct (gldn_attenuation g) as [gldn_att|e]; cbn [bind];
    [|destruct e; reflexivity].
  pose proof (check_points_relax g gldn_att r
                (enumerate (throughput_receive r))) as Hp.
  destruct (check_points tp g gldn_att r (enumerate (throughput_receive r)))
    as [[]|e]; cbn [bind].
  - rewrite Hp. reflexivity.
  - destruct e; try exact I; rewrite Hp; reflexivity.
Qed.

End RvrRelax.

(** X2.  Raising [abs_tolerance] never turns an RvR outcome into a failure:
    a sweep that passes still passes, and a sweep that fails under the
    larger tolerance already fails under the smaller one. *)
Theorem rvr_verdict_relaxes_with_abs_tolerance
    (tp : WifiRvrTest.test_params) (abs_tolerance' : Q)
    (gldn_file : file WifiRvrTest.gldn_results) (r : WifiRvrTest.rvr_result) :
  WifiRvrTest.abs_tolerance tp <= abs_tolerance' ->
  (WifiRvrTest.pass_fail_check tp gldn_file r = Raise TestPass ->
   WifiRvrTest.pass_fail_check (relaxed tp abs_tolerance') gldn_file r
   = Raise TestPass) /\
  (forall current_att current range,
      WifiRvrTest.pass_fail_check (relaxed tp abs_tolerance') gldn_file r
      = Raise (TestFailure current_att current range) ->
      exists current_att' current' range',
        WifiRvrTest.pass_fail_check tp gldn_file r
        = Raise (TestFailure current_att' current' range')).
Proof.
  intros Ha.
  pose proof (pass_fail_check_relax tp abs_tolerance' Ha gldn_file r) as H.
  split.
  - intros Hp. rewrite Hp in H. exact H.
  - intros ca c range Hf.
    destruct (WifiRvrTest.pass_fail_check tp gldn_file r) as [[]|e];
      [rewrite Hf in H; discriminate|].
    destruct e; try (rewrite Hf in H; discriminate). eauto.
Qed.

Lemma rvr_verdict_relaxes_with_abs_tolerance_witness :
  WifiRvrTest.pass_fail_check (relaxed Scenario.params 20)
    (Json Scenario.golden) (Scenario.sweep 75) = Raise TestPass.
Proof.
  refine (proj1 (rvr_verdict_relaxes_with_abs_tolerance Scenario.params 20
                   (Json Scenario.golden) (Scenario.sweep 75) _) eq_refl).
  discriminate.
Defined.

(** ** The limits returned by [get_throughput_limits] *)

Section LimitsShape.
Import CoexPerformanceBaseTest.

Lemma group_limits_rows (s : self) (results : performance_results) (bt : Z)
    (l : limits) :
  group_limits s results bt = Ret l ->
  exists e pd pa rows,
    rvr s bt = Some e /\ results bt = Some pd /\
    total_attenuation (params s) pd = Ret pa /\
    l = {| limits_attenuation := map fst rows;
           lower_limit := map (fun row => fst (snd row)) rows;
           upper_limit := map (fun row => snd (snd row)) rows |} /\
    Forall2 (fun point row =>
               point_limits (params s) pd pa e (fst point) = Ret row)
      (enumerate (throughput_received e)) rows.
Proof.
  unfold group_limits. intros H.
  destruct (results bt) as [pd|]; [|discriminate]. cbn [getkey bind] in H.
  destruct (total_attenuation (params s) pd) as [pa|] eqn:Et; [|discriminate].
  cbn [bind] in H.
  destruct (rvr s bt) as [e|]; [|discriminate]. cbn [getkey bind] in H.
  destruct (comprehension _ (enumerate (throughput_received e))) as [rows|] eqn:Er;
    [|discriminate].
  cbn [bind] in H. injection H as <-.
  exists e, pd, pa, rows.
  split; [reflexivity|]. split; [reflexivity|]. split; [exact Et|].
  split; [reflexivity|]. exact (comprehension_Ret _ _ _ Er).
Qed.

Lemma Forall2_Forall_r {A B} (R : A -> B -> Prop) (P : B -> Prop)
    (l : list A) (l' : list B) :
  Forall2 R l l' -> (forall x y, R x y -> P y) -> Forall P l'.
Proof.
  induction 1 as [|a b l l' Hab H IH]; intros HP; constructor; eauto.
Qed.

Lemma limits_loop_keys (s : self) (results : performance_results)
    (range : list Z) (tl : Z -> option limits) (bt : Z) :
  limits_loop s results range (fun _ => None) = Ret tl ->
  ~ In bt range -> tl bt = None.
Proof.
  intros H Hn. exact (limits_loop_outside s results range bt Hn _ _ H).
Qed.

End LimitsShape.

(** X3.  When [get_throughput_limits] returns, the result has an entry
    exactly for the bt attenuations of [bt_atten_range]; each entry holds one
    attenuation, one lower and one upper limit per measured throughput of
    that group; the attenuation recorded for a point is the sweep's
    attenuation plus the fixed attenuation; and no lower limit is negative. *)
Theorem get_throughput_limits_shape (s : CoexPerformanceBaseTest.self)
    (fs : CoexPerformanceBaseTest.filesystem) (path : string)
    (tl : Z -> option CoexPerformanceBaseTest.limits) :
  CoexPerformanceBaseTest.get_throughput_limits s fs path = Ret tl ->
  forall bt,
    (In bt (CoexPerformanceBaseTest.bt_atten_range s) ->
     exists e l,
       CoexPerformanceBaseTest.rvr s bt = Some e /\ tl bt = Some l /\
       let n := List.length (CoexPerformanceBaseTest.throughput_received e) in
       List.length (CoexPerformanceBaseTest.limits_attenuation l) = n /\
       List.length (CoexPerformanceBaseTest.lower_limit l) = n /\
       List.length (CoexPerformanceBaseTest.upper_limit l) = n /\
       (n <= List.length (CoexPerformanceBaseTest.attenuation e))%nat /\
       (forall idx current_att,
           nth_error (CoexPerformanceBaseTest.limits_attenuation l) idx
             = Some current_att ->
           exists att,
             nth_error (CoexPerformanceBaseTest.attenuation e) idx = Some att /\
             current_att = att + CoexPerformanceBaseTest.fixed_attenuation e) /\
       Forall (fun lower => 0 <= lower)
         (CoexPerformanceBaseTest.lower_limit l)) /\
    (~ In bt (CoexPerformanceBaseTest.bt_atten_range s) -> tl bt = None).
Proof.
  unfold CoexPerformanceBaseTest.get_throughput_limits. intros H bt.
  destruct (load (fs path)) as [results|]; [|discriminate]. cbn [bind] in H.
  split; [|exact (limits_loop_keys _ _ _ _ _ H)].
  intros Hin.
  destruct (limits_loop_inside _ _ _ _ Hin _ _ H) as (l & Hl & Hg).
  destruct (group_limits_rows _ _ _ _ Hg)
    as (e & pd & pa & rows & He & _ & _ & -> & Hrows).
  exists e. eexists. split; [exact He|]. split; [exact Hl|].
  cbn [CoexPerformanceBaseTest.limits_attenuation
       CoexPerformanceBaseTest.lower_limit CoexPerformanceBaseTest.upper_limit].
  pose proof (Forall2_length_eq _ _ _ Hrows) as Hlen.
  unfold enumerate in Hlen. rewrite enumerate_from_length in Hlen.
  rewrite !length_map.
  split; [auto|]. split; [auto|]. split; [auto|]. split; [|split].
  - destruct (CoexPerformanceBaseTest.throughput_received e) as [|c cs] eqn:Et;
      [cbn; lia|].
    assert (Hlast : (List.length cs < List.length (c :: cs))%nat) by (cbn; lia).
    destruct (nth_error_lt (enumerate (c :: cs)) (List.length cs)) as [p Hp].
    { unfold enumerate. rewrite enumerate_from_length. exact Hlast. }
    destruct (nth_error_lt rows (List.length cs)) as [row Hrow].
    { rewrite <- Hlen. exact Hlast. }
    pose proof (Forall2_nth_error _ _ _ _ _ _ Hrows Hp Hrow) as Hpt.
    unfold enumerate in Hp. rewrite enumerate_from_nth_error in Hp.
    destruct (nth_error (c :: cs) (List.length cs)); [|discriminate].
    injection Hp as <-. cbn [fst] in Hpt.
    apply point_limits_attenuation in Hpt. cbn in *. lia.
  - intros idx ca Hca. rewrite nth_error_map in Hca.
    destruct (nth_error rows idx) as [[ca' [lo hi]]|] eqn:Erow; [|discriminate].
    cbn in Hca. injection Hca as ->.
    assert (Hidx : (idx < List.length rows)%nat)
      by (apply nth_error_Some; congruence).
    destruct (nth_error_lt (enumerate (CoexPerformanceBaseTest.throughput_received e))
                idx) as [p Hp].
    { unfold enumerate. rewrite enumerate_from_length. lia. }
    pose proof (Forall2_nth_error _ _ _ _ _ _ Hrows Hp Erow) as Hpt.
    unfold enumerate in Hp. rewrite enumerate_from_nth_error in Hp.
    destruct (nth_error (CoexPerformanceBaseTest.throughput_received e) idx);
      [|discriminate].
    injection Hp as <-. cbn [fst] in Hpt.
    destruct (coex_point_limits_shape _ _ _ _ _ _ _ _ Hpt)
      as (att & c0 & clast & Hatt & Hca & _).
    exists att. auto.
  - apply Forall_map.
    apply (Forall2_Forall_r _ _ _ _ Hrows).
    intros p [ca [lo hi]] Hpt.
    destruct (coex_point_limits_shape _ _ _ _ _ _ _ _ Hpt)
      as (att & c0 & clast & _ & _ & -> & _).
    cbn. apply lower_of_nonneg.
Qed.

Lemma get_throughput_limits_shape_witness :
  exists e l,
    CoexPerformanceBaseTest.rvr (Identity.self_with 1) 0%Z = Some e /\
    Identity.computed (Identity.self_with 1) 0%Z = Some l /\
    let n := List.length (CoexPerformanceBaseTest.throughput_received e) in
    List.length (CoexPerformanceBaseTest.limits_attenuation l) = n /\
    List.length (CoexPerformanceBaseTest.lower_limit l) = n /\
    List.length (CoexPerformanceBaseTest.upper_limit l) = n /\
    (n <= List.length (CoexPerformanceBaseTest.attenuation e))%nat /\
    (forall idx current_att,
        nth_error (CoexPerformanceBaseTest.limits_attenuation l) idx
          = Some current_att ->
        exists att,
          nth_error (CoexPerformanceBaseTest.attenuation e) idx = Some att /\
          current_att = att + CoexPerformanceBaseTest.fixed_attenuation e) /\
    Forall (fun lower => 0 <= lower) (CoexPerformanceBaseTest.lower_limit l).
Proof.
  exact (proj1 (get_throughput_limits_shape (Identity.self_with 1)
                  Identity.files "results/test_performance.json"
                  (Identity.computed (Identity.self_with 1)) eq_refl 0%Z)
           (or_introl eq_refl)).
Defined.

(** ** Test parameters without a fixed attenuation *)

Section NoFixedAttenuation.
Import CoexPerformanceBaseTest.

Lemma limits_loop_raises (s : self) (results : performance_results)
    (range : list Z) (bt : Z) :
  In bt range ->
  (exists e, group_limits s results bt = Raise e) ->
  forall acc, exists e, limits_loop s results range acc = Raise e.
Proof.
  induction range as [|b rest IH]; intros Hin Hr acc; [contradiction|].
  cbn [limits_loop].
  destruct (group_limits s results b) as [l|e] eqn:Eg; cbn [bind]; [|eauto].
  destruct Hin as [->|Hin].
  - destruct Hr as [e Hr]. congruence.
  - now apply IH.
Qed.

Lemma group_limits_without_fixed (s : self) (results : performance_results)
    (bt : Z) (e : rvr_entry) :
  has_fixed_attenuation (params s) = false ->
  rvr s bt = Some e ->
  throughput_received e <> [] ->
  exists e', group_limits s results bt = Raise e'.
Proof.
  intros Hfix He Hne. unfold group_limits.
  destruct (results bt) as [pd|]; cbn [getkey bind]; [|eauto].
  unfold total_attenuation. rewrite Hfix. cbn [bind]. rewrite He.
  cbn [getkey bind].
  destruct (throughput_received e) as [|c cs]; [congruence|].
  cbn [enumerate enumerate_from comprehension fst].
  unfold point_limits at 1.
  destruct (getitem (attenuation e) 0) as [att|]; cbn [bind iterate]; eauto.
Qed.

End NoFixedAttenuation.

(** X4.  When the test parameters have no ["fixed_attenuation"] and some
    group of the sweep has a measured throughput, the coexistence check never
    compares anything: whatever the baseline files are, it logs the
    "performance file not found" warning and returns [None]. *)
Theorem no_fixed_attenuation_no_comparison (s : CoexPerformanceBaseTest.self)
    (fs : CoexPerformanceBaseTest.filesystem) (bt : Z)
    (e : CoexPerformanceBaseTest.rvr_entry) :
  CoexPerformanceBaseTest.has_fixed_attenuation
    (CoexPerformanceBaseTest.params s) = false ->
  In bt (CoexPerformanceBaseTest.bt_atten_range s) ->
  CoexPerformanceBaseTest.rvr s bt = Some e ->
  CoexPerformanceBaseTest.throughput_received e <> [] ->
  CoexPerformanceBaseTest.throughput_pass_fail_check s fs =
    ([CoexPerformanceBaseTest.WarningNoPerformanceFile], None).
Proof.
  intros Hfix Hin He Hne.
  apply throughput_pass_fail_check_unavailable.
  destruct (available_or_unavailable s fs) as [[tl Hav]|Hun]; [|exact Hun].
  exfalso. destruct Hav as (files & path & _ & _ & Hl).
  unfold CoexPerformanceBaseTest.get_throughput_limits in Hl.
  destruct (load (fs path)) as [results|]; [|discriminate]. cbn [bind] in Hl.
  destruct (limits_loop_raises s results _ bt Hin
              (group_limits_without_fixed s results bt e Hfix He Hne)
              (fun _ => None)) as [e' He'].
  congruence.
Qed.

(** The coexistence sweep of [Identity] run without a fixed attenuation in
    the test parameters. *)
Definition self_without_fixed : CoexPerformanceBaseTest.self :=
  {| CoexPerformanceBaseTest.params :=
       {| CoexPerformanceBaseTest.abs_tolerance := 5;
          CoexPerformanceBaseTest.pct_tolerance := 10;
          CoexPerformanceBaseTest.failure_count_tolerance := 1;
          CoexPerformanceBaseTest.has_fixed_attenuation := false |};
     CoexPerformanceBaseTest.current_test_name := "test_performance";
     CoexPerformanceBaseTest.performance_files_list :=
       Some ["results/test_performance.json"%string];
     CoexPerformanceBaseTest.bt_atten_range := [0%Z];
     CoexPerformanceBaseTest.rvr :=
       fun bt => if Z.eqb bt 0 then Some Identity.entry else None |}.

Lemma no_fixed_attenuation_no_comparison_witness :
  CoexPerformanceBaseTest.throughput_pass_fail_check self_without_fixed
    Identity.files
  = ([CoexPerformanceBaseTest.WarningNoPerformanceFile], None).
Proof.
  refine (no_fixed_attenuation_no_comparison self_without_fixed Identity.files
            0%Z Identity.entry eq_refl (or_introl eq_refl) eq_refl _).
  discriminate.
Defined.

(** ** The failure count and its tolerance *)

Section Tolerance.
Import CoexPerformanceBaseTest.

(** The same test object with another [failure_count_tolerance]. *)
Definition with_tolerance (s : self) (tolerance : Z) : self :=
  {| params :=
       {| abs_tolerance := abs_tolerance (params s);
          pct_tolerance := pct_tolerance (params s);
          failure_count_tolerance := tolerance;
          has_fixed_attenuation := has_fixed_attenuation (params s) |};
     current_test_name := current_test_name s;
     performance_files_list := performance_files_list s;
     bt_atten_range := bt_atten_range s;
     rvr := rvr s |}.

Lemma limits_loop_with_tolerance (s : self) (t : Z)
    (results : performance_results) (range : list Z) :
  forall acc,
    limits_loop (with_tolerance s t) results range acc =
    limits_loop s results range acc.
Proof.
  induction range as [|bt rest IH]; intros acc; [reflexivity|].
  cbn [limits_loop].
  change (group_limits (with_tolerance s t) results bt)
    with (group_limits s results bt).
  destruct (group_limits s results bt); cbn [bind]; [apply IH|reflexivity].
Qed.

Lemma reference_available_with_tolerance (s : self) (t : Z) (fs : filesystem)
    (tl : Z -> option limits) :
  reference_available s fs tl -> reference_available (with_tolerance s t) fs tl.
Proof.
  intros (files & path & Hf & Hp & Hl). exists files, path.
  split; [exact Hf|]. split; [exact Hp|].
  unfold get_throughput_limits in *.
  destruct (load (fs path)); [|exact Hl]. cbn [bind] in *.
  change (bt_atten_range (with_tolerance s t)) with (bt_atten_range s).
  rewrite limits_loop_with_tolerance. exact Hl.
Qed.

Lemma total_failures_with_tolerance (s : self) (t : Z)
    (tl : Z -> option limits) (range : list Z) :
  total_failures (with_tolerance s t) tl range = total_failures s tl range.
Proof.
  induction range as [|bt rest IH]; [reflexivity|].
  cbn [total_failures]. rewrite IH. reflexivity.
Qed.

(** The number of measured points of the groups of [range]. *)
Fixpoint measured_points (s : self) (range : list Z) : Z :=
  match range with
  | [] => 0%Z
  | bt :: rest =>
      (match rvr s bt with
       | Some e => Z.of_nat (List.length (throughput_received e))
       | None => 0
       end + measured_points s rest)%Z
  end.

Lemma total_failures_bound (s : self) (tl : Z -> option limits)
    (range : list Z) :
  (total_failures s tl range <= measured_points s range)%Z.
Proof.
  induction range as [|bt rest IH]; cbn [total_failures measured_points]; [lia|].
  assert (H : (group_failures s tl bt <=
               match rvr s bt with
               | Some e => Z.of_nat (List.length (throughput_received e))
               | None => 0
               end)%Z).
  { unfold group_failures. destruct (rvr s bt) as [e|]; [|lia].
    destruct (tl bt) as [l|]; [|lia].
    unfold failures.
    pose proof (filter_length_bound (out_of_band l)
                  (enumerate (throughput_received e))) as Hb.
    unfold enumerate in Hb at 2. rewrite enumerate_from_length in Hb. lia. }
  lia.
Qed.

End Tolerance.

(** X5.  The coexistence verdict is monotone in [failure_count_tolerance]:
    when the check returns [False] with some tolerance, it returns [False]
    with every smaller tolerance, all else unchanged. *)
Theorem failing_stays_failing_with_smaller_tolerance
    (s : CoexPerformanceBaseTest.self) (fs : CoexPerformanceBaseTest.filesystem)
    (tolerance tolerance' : Z) :
  (tolerance <= tolerance')%Z ->
  snd (CoexPerformanceBaseTest.throughput_pass_fail_check
         (with_tolerance s tolerance') fs) = Some false ->
  snd (CoexPerformanceBaseTest.throughput_pass_fail_check
         (with_tolerance s tolerance) fs) = Some false.
Proof.
  intros Hle Hfail.
  destruct (available_or_unavailable s fs) as [[tl Hav]|Hun].
  - destruct (throughput_pass_fail_check_available _ _ _
                (reference_available_with_tolerance s tolerance' fs tl Hav))
      as [Hv' _].
    destruct (throughput_pass_fail_check_available _ _ _
                (reference_available_with_tolerance s tolerance fs tl Hav))
      as [Hv _].
    rewrite Hv' in Hfail. rewrite Hv.
    change (CoexPerformanceBaseTest.bt_atten_range (with_tolerance s tolerance'))
      with (CoexPerformanceBaseTest.bt_atten_range s) in Hfail.
    change (CoexPerformanceBaseTest.bt_atten_range (with_tolerance s tolerance))
      with (CoexPerformanceBaseTest.bt_atten_range s).
    rewrite total_failures_with_tolerance in *.
    cbn [with_tolerance CoexPerformanceBaseTest.params
         CoexPerformanceBaseTest.failure_count_tolerance] in *.
    destruct (CoexPerformanceBaseTest.bt_atten_range s); [discriminate|].
    destruct (Z.geb_spec (total_failures s tl (z :: l)) tolerance');
      [|discriminate].
    destruct (Z.geb_spec (total_failures s tl (z :: l)) tolerance);
      [reflexivity|lia].
  - assert (Hun' : reference_unavailable (with_tolerance s tolerance') fs).
    { destruct (available_or_unavailable (with_tolerance s tolerance') fs)
        as [[tl Hav]|H]; [|exact H].
      exfalso.
      pose proof (throughput_pass_fail_check_unavailable s fs Hun) as Hw.
      destruct Hav as (files & path & Hf & Hp & Hl).
      assert (Hav0 : reference_available s fs tl).
      { exists files, path. split; [exact Hf|]. split; [exact Hp|].
        unfold CoexPerformanceBaseTest.get_throughput_limits in *.
        destruct (load (fs path)); [|exact Hl]. cbn [bind] in *.
        change (CoexPerformanceBaseTest.bt_atten_range
                  (with_tolerance s tolerance'))
          with (CoexPerformanceBaseTest.bt_atten_range s) in Hl.
        rewrite limits_loop_with_tolerance in Hl. exact Hl. }
      destruct (throughput_pass_fail_check_available s fs tl Hav0) as [_ Hnw].
      rewrite Hw in Hnw. apply Hnw. now left. }
    rewrite (throughput_pass_fail_check_unavailable _ _ Hun') in Hfail.
    discriminate.
Qed.

Lemma failing_stays_failing_with_smaller_tolerance_witness :
  snd (CoexPerformanceBaseTest.throughput_pass_fail_check
         (with_tolerance Repeated.coex_self 0) Repeated.coex_files) = Some false.
Proof.
  refine (failing_stays_failing_with_smaller_tolerance Repeated.coex_self
            Repeated.coex_files 0 1 _ eq_refl).
  discriminate.
Defined.

(** X6.  The check cannot fail a sweep when [failure_count_tolerance]
    exceeds the number of measured points of the sweep: it then returns
    [None]. *)
Theorem tolerance_above_measured_points_never_fails
    (s : CoexPerformanceBaseTest.self) (fs : CoexPerformanceBaseTest.filesystem) :
  (measured_points s (CoexPerformanceBaseTest.bt_atten_range s) <
   CoexPerformanceBaseTest.failure_count_tolerance
     (CoexPerformanceBaseTest.params s))%Z ->
  snd (CoexPerformanceBaseTest.throughput_pass_fail_check s fs) = None.
Proof.
  intros Hlt.
  destruct (available_or_unavailable s fs) as [[tl Hav]|Hun].
  - destruct (throughput_pass_fail_check_available _ _ _ Hav) as [Hv _].
    rewrite Hv.
    pose proof (total_failures_bound s tl
                  (CoexPerformanceBaseTest.bt_atten_range s)) as Hb.
    destruct (CoexPerformanceBaseTest.bt_atten_range s); [reflexivity|].
    destruct (Z.geb_spec (total_failures s tl (z :: l))
                (CoexPerformanceBaseTest.failure_count_tolerance
                   (CoexPerformanceBaseTest.params s))); [lia|reflexivity].
  - now rewrite (throughput_pass_fail_check_unavailable _ _ Hun).
Qed.

Lemma tolerance_above_measured_points_never_fails_witness :
  snd (CoexPerformanceBaseTest.throughput_pass_fail_check
         (with_tolerance Repeated.coex_self 5) Repeated.coex_files) = None.
Proof.
  refine (tolerance_above_measured_points_never_fails
            (with_tolerance Repeated.coex_self 5) Repeated.coex_files _).
  reflexivity.
Defined.

(** ** A golden file with fewer than two points *)

(** X7.  With a golden file of fewer than two attenuation points, the RvR
    check of a sweep that has a measured throughput reaches no verdict: it
    raises [IndexError] or [KeyError] at the first point. *)
Theorem rvr_short_golden_raises (tp : WifiRvrTest.test_params)
    (g : WifiRvrTest.gldn_results) (gldn_att : list Q)
    (r : WifiRvrTest.rvr_result) :
  WifiRvrTest.gldn_attenuation g = Ret gldn_att ->
  (List.length gldn_att < 2)%nat ->
  WifiRvrTest.throughput_receive r <> [] ->
  exists e, lookup_error e /\
            WifiRvrTest.pass_fail_check tp (Json g) r = Raise e.
Proof.
  intros Hg Hshort Hne.
  rewrite (pass_fail_check_loaded _ _ _ _ Hg).
  destruct (WifiRvrTest.throughput_receive r) as [|c cs]; [congruence|].
  cbn [enumerate enumerate_from WifiRvrTest.check_points].
  unfold WifiRvrTest.check_point at 1.
  destruct (WifiRvrTest.point_range tp g gldn_att r 0) as [[ca [lo hi]]|e] eqn:Hr.
  - exfalso. revert Hr.
    unfold WifiRvrTest.point_range, WifiRvrTest.allowed_throughput_range.
    destruct (getitem (WifiRvrTest.attenuation r) 0) as [att|]; [|discriminate].
    cbn [bind]. unfold WifiRvrTest.closest_throughputs.
    destruct (comprehension _ _) as [l|] eqn:Ec; [|discriminate].
    cbn [bind].
    apply comprehension_Ret, Forall2_length_eq in Ec.
    destruct (closest_indeces_spec (att + WifiRvrTest.fixed_attenuation r)
                gldn_att 2) as (Hlen & _).
    rewrite Hlen in Ec.
    destruct (getitem (sort l) 0) as [c0|]; [|discriminate]. cbn [bind].
    destruct (getitem (sort l) 1) as [c1|] eqn:E1; [|discriminate].
    apply getitem_Ret_lt in E1. rewrite sort_length in E1. lia.
  - destruct (rvr_point_range_error _ _ _ _ _ _ Hr) as [Hk _].
    exists e. split; [exact Hk|]. reflexivity.
Qed.

Lemma rvr_short_golden_raises_witness :
  exists e, lookup_error e /\
            WifiRvrTest.pass_fail_check Scenario.params
              (Json {| WifiRvrTest.gldn_attenuation_key := Some [10];
                       WifiRvrTest.gldn_fixed_attenuation_key := Some 0;
                       WifiRvrTest.gldn_throughput_receive_key := Some [100] |})
              (Scenario.sweep 100) = Raise e.
Proof.
  refine (rvr_short_golden_raises Scenario.params
            {| WifiRvrTest.gldn_attenuation_key := Some [10];
               WifiRvrTest.gldn_fixed_attenuation_key := Some 0;
               WifiRvrTest.gldn_throughput_receive_key := Some [100] |}
            [10 + 0] (Scenario.sweep 100) eq_refl _ _).
  - cbn. lia.
  - discriminate.
Defined.

(** ** What [_recv] returns *)

Section Strip.
Import SocketInstrument.

(** The character is one of [chars]. *)
Definition terminator (chars : str) (c : N) : Prop :=
  existsb (N.eqb c) chars = true.

Lemma terminator_In (chars : str) (c : N) : terminator chars c <-> In c chars.
Proof.
  unfold terminator. rewrite existsb_exists. split.
  - intros (x & Hx & He). apply N.eqb_eq in He. now subst.
  - intros H. exists c. split; [exact H|apply N.eqb_refl].
Qed.

Lemma lstrip_spec (chars s : str) :
  exists prefix,
    s = prefix ++ lstrip chars s /\
    Forall (terminator chars) prefix /\
    match lstrip chars s with
    | [] => True
    | c :: _ => ~ terminator chars c
    end.
Proof.
  induction s as [|c cs IH].
  - exists []. repeat split. constructor.
  - cbn [lstrip]. destruct (existsb (N.eqb c) chars) eqn:E.
    + destruct IH as (prefix & Heq & Hall & Hhead).
      exists (c :: prefix). split; [cbn; congruence|].
      split; [constructor; assumption|exact Hhead].
    + exists []. split; [reflexivity|]. split; [constructor|].
      unfold terminator. congruence.
Qed.

Lemma rstrip_spec (chars s : str) :
  exists suffix,
    s = rstrip chars s ++ suffix /\
    Forall (terminator chars) suffix /\
    forall body c, rstrip chars s = body ++ [c] -> ~ terminator chars c.
Proof.
  unfold rstrip.
  destruct (lstrip_spec chars (rev s)) as (prefix & Heq & Hall & Hhead).
  exists (rev prefix). split; [|split].
  - rewrite <- rev_app_distr, <- Heq. symmetry. apply rev_involutive.
  - apply Forall_forall. intros c Hc. apply in_rev in Hc.
    rewrite Forall_forall in Hall. now apply Hall.
  - intros body c Hb.
    assert (Hr : lstrip chars (rev s) = c :: rev body).
    { rewrite <- (rev_involutive (lstrip chars (rev s))), Hb, rev_app_distr.
      reflexivity. }
    rewrite Hr in Hhead. exact Hhead.
Qed.

End Strip.

(** X8.  The text returned by [_recv] is the text accumulated by the read
    loop without a trailing run of terminator characters: what is cut off
    consists of characters of [_escseq] only, and what is returned does not
    end with such a character. *)
Theorem recv_strips_trailing_terminators (fuel : nat)
    (inst inst' : SocketInstrument.instrument) (sk : SocketInstrument.socket)
    (resp : SocketInstrument.str) :
  SocketInstrument._socket inst = Some sk ->
  SocketInstrument._recv fuel inst = Some (inl resp, inst') ->
  exists raw sk' suffix,
    SocketInstrument.recv_loop fuel (SocketInstrument._socket_buffer_size inst)
      (SocketInstrument._codefmt inst) [] sk = Some (Ret raw, sk') /\
    raw = resp ++ suffix /\
    Forall (fun c => In c (SocketInstrument._escseq inst)) suffix /\
    forall body c, resp = body ++ [c] -> ~ In c (SocketInstrument._escseq inst).
Proof.
  intros Hs H. unfold SocketInstrument._recv in H. rewrite Hs in H.
  destruct (SocketInstrument.recv_loop fuel _ _ [] sk) as [[r sk']|];
    [|discriminate].
  destruct r as [raw|e].
  - injection H as <- <-.
    destruct (rstrip_spec (SocketInstrument._escseq inst) raw)
      as (suffix & Heq & Hall & Hend).
    exists raw, sk', suffix. split; [reflexivity|]. split; [exact Heq|]. split.
    + apply Forall_forall. intros c Hc. apply terminator_In.
      rewrite Forall_forall in Hall. now apply Hall.
    + intros body c Hb Hin. apply (Hend body c Hb). now apply terminator_In.
  - destruct (@handle_recorded SocketInstrument.str
                SocketInstrument.TimeoutReceiving
                SocketInstrument.ErrorReceiving e
                (SocketInstrument.with_socket inst (Some sk'))) as [r0 Hh].
    rewrite Hh in H. discriminate.
Qed.

(** X9.  The first read shorter than the buffer ends the message.  When the
    first segment of ASCII bytes that arrives is shorter than the buffer,
    [_recv] returns that segment alone (stripped) after one [recv], and
    whatever the network delivers afterwards stays queued for the next
    receive. *)
Theorem recv_stops_at_first_short_read (inst : SocketInstrument.instrument)
    (sk : SocketInstrument.socket) (data : list Byte.byte)
    (rest : list SocketInstrument.arrival) (fuel : nat) :
  SocketInstrument._socket inst = Some sk ->
  SocketInstrument._codefmt inst = SocketInstrument.utf_8 ->
  SocketInstrument.incoming sk = SocketInstrument.Segment data :: rest ->
  (List.length data < SocketInstrument._socket_buffer_size inst)%nat ->
  ascii_bytes data ->
  (0 < fuel)%nat ->
  let resp :=
    SocketInstrument.rstrip (SocketInstrument._escseq inst)
      (map Byte.to_N data) in
  SocketInstrument._recv fuel inst =
    Some (inl resp,
          SocketInstrument.logging
            (SocketInstrument.with_socket inst
               (Some {| SocketInstrument.incoming := rest;
                        SocketInstrument.peer := SocketInstrument.peer sk;
                        SocketInstrument.deliveries :=
                          SocketInstrument.deliveries sk;
                        SocketInstrument.calls :=
                          SocketInstrument.calls sk ++
                          [SocketInstrument.CallRecv
                             (SocketInstrument._socket_buffer_size inst)] |}))
            (SocketInstrument.DebugReceived resp)).
Proof.
  intros Hs Hcodec Hq Hshort Hascii Hfuel resp.
  destruct fuel as [|fuel]; [lia|].
  unfold SocketInstrument._recv. rewrite Hs, Hcodec.
  cbn [SocketInstrument.recv_loop]. unfold SocketInstrument.recv. rewrite Hq.
  rewrite (firstn_all2 data) by lia.
  rewrite (skipn_all2 data) by lia.
  cbn [SocketInstrument.decode SocketInstrument.utf_8].
  rewrite (utf8_decode_ascii _ Hascii), length_map.
  destruct (Nat.ltb_spec (List.length data)
              (SocketInstrument._socket_buffer_size inst)); [|lia].
  reflexivity.
Qed.

Lemma recv_strips_trailing_terminators_witness :
  exists raw sk' suffix,
    SocketInstrument.recv_loop 1 1024 SocketInstrument.utf_8 []
      Link.answering_peer = Some (Ret raw, sk') /\
    raw = [49%N] ++ suffix /\
    Forall (fun c => In c [10%N]) suffix /\
    forall body c, [49%N] = body ++ [c] -> ~ In c [10%N].
Proof.
  exact (recv_strips_trailing_terminators 1
           (Link.connected Link.answering_peer) _ Link.answering_peer [49%N]
           eq_refl eq_refl).
Defined.

Lemma recv_stops_at_first_short_read_witness :
  SocketInstrument._recv 1
    (Link.connected
       {| SocketInstrument.incoming :=
            [SocketInstrument.Segment [Byte.x31];
             SocketInstrument.Segment [Byte.x32; Byte.x0a]];
          SocketInstrument.peer := SocketInstrument.Silent;
          SocketInstrument.deliveries := [];
          SocketInstrument.calls := [] |})
  = Some (inl [49%N],
          SocketInstrument.logging
            (SocketInstrument.with_socket
               (Link.connected
                  {| SocketInstrument.incoming :=
                       [SocketInstrument.Segment [Byte.x31];
                        SocketInstrument.Segment [Byte.x32; Byte.x0a]];
                     SocketInstrument.peer := SocketInstrument.Silent;
                     SocketInstrument.deliveries := [];
                     SocketInstrument.calls := [] |})
               (Some {| SocketInstrument.incoming :=
                          [SocketInstrument.Segment [Byte.x32; Byte.x0a]];
                        SocketInstrument.peer := SocketInstrument.Silent;
                        SocketInstrument.deliveries := [];
                        SocketInstrument.calls :=
                          [] ++ [SocketInstrument.CallRecv 1024] |}))
            (SocketInstrument.DebugReceived [49%N])).
Proof.
  refine (recv_stops_at_first_short_read
            (Link.connected
               {| SocketInstrument.incoming :=
                    [SocketInstrument.Segment [Byte.x31];
                     SocketInstrument.Segment [Byte.x32; Byte.x0a]];
                  SocketInstrument.peer := SocketInstrument.Silent;
                  SocketInstrument.deliveries := [];
                  SocketInstrument.calls := [] |})
            {| SocketInstrument.incoming :=
                 [SocketInstrument.Segment [Byte.x31];
                  SocketInstrument.Segment [Byte.x32; Byte.x0a]];
               SocketInstrument.peer := SocketInstrument.Silent;
               SocketInstrument.deliveries := [];
               SocketInstrument.calls := [] |}
            [Byte.x31]
            [SocketInstrument.Segment [Byte.x32; Byte.x0a]] 1 eq_refl eq_refl
            eq_refl _ _ (le_n 1)).
  - cbn. lia.
  - repeat constructor.
Defined.

(** * CoexPerformanceBaseTest.get_atten_range *)

Module AttenRange.

(** What the function does: it returns a list or raises
    [ZeroDivisionError]. *)
Inductive outcome : Type :=
| Returns (atten_range : list Q)
| ZeroDivisionError.

(** [round(q)]: to the nearest integer, a tie going to the even one. *)
Definition round (q : Q) : Z :=
  let f := Qfloor q in
  let d := q - inject_Z f in
  if Qltb d (1 # 2) then f
  else if Qltb (1 # 2) d then (f + 1)%Z
  else if Z.even f then f else (f + 1)%Z.

(** [range(0, n)] *)
Definition range (n : Z) : list Z := map Z.of_nat (seq 0 (Z.to_nat n)).

(** [get_atten_range(start, stop, step)] *)
Definition get_atten_range (start stop step : Q) : outcome :=
  if Qeq_bool step 0 then ZeroDivisionError
  else
    let atten_step := round ((stop - start) / step) in
    Returns (map (fun x => start + inject_Z x * step) (range atten_step)).

End AttenRange.

Example get_atten_range_tens :
  AttenRange.get_atten_range 0 30 10 = AttenRange.Returns [0 + 0 * 10; 0 + 1 * 10; 0 + 2 * 10].
Proof. reflexivity. Qed.

Section AttenRangeFacts.
Import AttenRange.

Lemma round_near (q : Q) :
  q - (1 # 2) <= inject_Z (round q) /\ inject_Z (round q) <= q + (1 # 2).
Proof.
  unfold round.
  pose proof (Qfloor_le q) as Hlo. pose proof (Qlt_floor q) as Hhi.
  rewrite inject_Z_plus in Hhi.
  change (inject_Z 1) with 1 in Hhi.
  destruct (Qltb (q - inject_Z (Qfloor q)) (1 # 2)) eqn:E1.
  - apply Qltb_lt in E1. split; lra.
  - apply Qltb_ge in E1.
    destruct (Qltb (1 # 2) (q - inject_Z (Qfloor q))) eqn:E2.
    + apply Qltb_lt in E2. rewrite inject_Z_plus.
      change (inject_Z 1) with 1. split; lra.
    + apply Qltb_ge in E2. destruct (Z.even (Qfloor q)).
      * split; lra.
      * rewrite inject_Z_plus. change (inject_Z 1) with 1. split; lra.
Qed.

Lemma Qltb_wd (a a' b b' : Q) : a == a' -> b == b' -> Qltb a b = Qltb a' b'.
Proof.
  intros Ha Hb.
  destruct (Qltb a b) eqn:E; symmetry.
  - apply Qltb_lt. apply Qltb_lt in E. now rewrite <- Ha, <- Hb.
  - apply Qltb_ge. apply Qltb_ge in E. now rewrite <- Ha, <- Hb.
Qed.

Lemma round_wd (q q' : Q) : q == q' -> round q = round q'.
Proof.
  intros H. unfold round. rewrite (Qfloor_comp _ _ H).
  assert (Hd : q - inject_Z (Qfloor q') == q' - inject_Z (Qfloor q'))
    by now rewrite H.
  rewrite (Qltb_wd _ _ _ _ Hd (Qeq_refl (1 # 2))).
  rewrite (Qltb_wd _ _ _ _ (Qeq_refl (1 # 2)) Hd).
  reflexivity.
Qed.

Lemma round_integer (k : Z) : round (inject_Z k) = k.
Proof.
  unfold round. rewrite Qfloor_Z.
  assert (H : Qltb (inject_Z k - inject_Z k) (1 # 2) = true).
  { apply Qltb_lt. lra. }
  now rewrite H.
Qed.

Lemma range_In (n x : Z) : In x (range n) <-> (0 <= x < n)%Z.
Proof.
  unfold range. rewrite in_map_iff. split.
  - intros (i & <- & Hi). apply in_seq in Hi. lia.
  - intros H. exists (Z.to_nat x). split; [lia|]. apply in_seq. lia.
Qed.

Lemma range_nth_error (n : Z) (i : nat) (x : Z) :
  nth_error (range n) i = Some x -> x = Z.of_nat i.
Proof.
  unfold range. rewrite nth_error_map.
  destruct (nth_error (seq 0 (Z.to_nat n)) i) as [j|] eqn:E; [|discriminate].
  intros [= <-].
  assert (Hi : (i < List.length (seq 0 (Z.to_nat n)))%nat)
    by (apply nth_error_Some; congruence).
  rewrite length_seq in Hi.
  pose proof (nth_error_nth _ _ 0%nat E) as Hn.
  rewrite seq_nth in Hn by exact Hi. cbn in Hn. now subst j.
Qed.

End AttenRangeFacts.

(** X10.  With a zero step [get_atten_range] raises [ZeroDivisionError].
    With a positive step it returns attenuations that start at [start],
    advance by [step], and all lie in [start, stop): the stop value is never
    generated.  When [stop - start] is a whole number [k] of steps the list
    has exactly [k] values. *)
Theorem get_atten_range_spec (start stop step : Q) :
  (step == 0 ->
   AttenRange.get_atten_range start stop step = AttenRange.ZeroDivisionError) /\
  (0 < step ->
   exists atten_range,
     AttenRange.get_atten_range start stop step =
       AttenRange.Returns atten_range /\
     (forall i v, nth_error atten_range i = Some v ->
                  v = start + inject_Z (Z.of_nat i) * step) /\
     (forall v, In v atten_range -> start <= v /\ v < stop) /\
     (forall k, (0 <= k)%Z -> stop - start == inject_Z k * step ->
                List.length atten_range = Z.to_nat k)).
Proof.
  split.
  - intros H. unfold AttenRange.get_atten_range.
    now rewrite (Qeq_eq_bool _ _ H).
  - intros Hpos. unfold AttenRange.get_atten_range.
    destruct (Qeq_bool step 0) eqn:E.
    { apply Qeq_bool_eq in E. lra. }
    clear E. eexists. split; [reflexivity|].
    set (q := (stop - start) / step).
    assert (Hq : q * step == stop - start).
    { unfold q. field. lra. }
    split; [|split].
    + intros i v Hv. rewrite nth_error_map in Hv.
      destruct (nth_error (AttenRange.range (AttenRange.round q)) i) as [x|] eqn:Ex;
        [|discriminate].
      cbn in Hv. injection Hv as <-.
      now rewrite (range_nth_error _ _ _ Ex).
    + intros v Hv. apply in_map_iff in Hv. destruct Hv as (x & <- & Hx).
      apply range_In in Hx.
      destruct (round_near q) as [_ Hhi].
      assert (Hx0 : 0 <= inject_Z x).
      { change 0 with (inject_Z 0). rewrite <- Zle_Qle. lia. }
      assert (Hx1 : inject_Z x <= inject_Z (AttenRange.round q) - 1).
      { change 1 with (inject_Z 1). unfold Qminus.
        rewrite <- inject_Z_opp, <- inject_Z_plus, <- Zle_Qle. lia. }
      split.
      * pose proof (Qmult_le_0_compat _ _ Hx0 (Qlt_le_weak _ _ Hpos)). lra.
      * assert (Hlt : inject_Z x < q) by lra.
        pose proof (Qmult_lt_compat_r _ _ step Hpos Hlt). lra.
    + intros k Hk Hdiv.
      rewrite length_map. unfold AttenRange.range.
      rewrite length_map, length_seq.
      assert (Hqk : q == inject_Z k).
      { unfold q. rewrite Hdiv. field. lra. }
      now rewrite (round_wd _ _ Hqk), round_integer.
Qed.

Lemma get_atten_range_spec_witness :
  exists atten_range,
    AttenRange.get_atten_range 0 30 10 = AttenRange.Returns atten_range /\
    (forall i v, nth_error atten_range i = Some v ->
                 v = 0 + inject_Z (Z.of_nat i) * 10) /\
    (forall v, In v atten_range -> 0 <= v /\ v < 30) /\
    (forall k, (0 <= k)%Z -> 30 - 0 == inject_Z k * 10 ->
               List.length atten_range = Z.to_nat k).
Proof.
  refine (proj2 (get_atten_range_spec 0 30 10) _).
  reflexivity.
Defined.

(** * SocketInstrument: connecting and closing *)

Module Lifecycle.
Import SocketInstrument.

(** What [socket.create_connection] does. *)
Inductive connection : Type :=
| Connects (sk : socket)
| ConnectTimeout
| ConnectError.

(** What [shutdown] and [close] do on the socket. *)
Inductive closing : Type :=
| Closes
| ShutdownRaises (e : exn)
| CloseRaises (e : exn).

(** The records [_connect_socket] and [_close_socket] write themselves.
    The records of [_send] and [_recv] go to [_logger] as before; the
    records of these two methods, written after them, are returned beside
    the state. *)
Inductive record : Type :=
| DebugInstId (resp : str)
| DebugOpened
| ExceptionConnectTimeout
| ExceptionConnectError
| DebugClosed
| ExceptionClosing (e : exn).

(** What [_connect_socket] raises: its own [SocketInstrumentError], or what
    the identification query raised. *)
Inductive connect_raised : Type :=
| TimeoutConnecting
| ErrorConnecting
| FromQuery (r : raised).

(** The [except] clauses of [_connect_socket] applied to what the query
    raised: only a raw [socket.timeout] or [socket.error] is caught. *)
Definition classify (r : raised) : connect_raised * list record :=
  match r with
  | Reraised SocketTimeout => (TimeoutConnecting, [ExceptionConnectTimeout])
  | Reraised SocketError => (ErrorConnecting, [ExceptionConnectError])
  | other => (FromQuery other, [])
  end.

(** [_connect_socket(self)] *)
Definition _connect_socket (fuel : nat) (net : connection) (inst : instrument)
  : option ((unit + connect_raised) * instrument * list record) :=
  match net with
  | ConnectTimeout =>
      Some (inr TimeoutConnecting, inst, [ExceptionConnectTimeout])
  | ConnectError =>
      Some (inr ErrorConnecting, inst, [ExceptionConnectError])
  | Connects sk =>
      match _query fuel (of_string "*IDN?") (with_socket inst (Some sk)) with
      | None => None
      | Some (inl resp, inst') =>
          Some (inl tt, inst', [DebugInstId resp; DebugOpened])
      | Some (inr r, inst') =>
          Some (inr (fst (classify r)), inst', snd (classify r))
      end
  end.

(** [_close_socket(self)] *)
Definition _close_socket (os : closing) (inst : instrument)
  : (unit + exn) * instrument * list record :=
  match _socket inst with
  | None => (inl tt, inst, [])
  | Some _ =>
      match os with
      | Closes => (inl tt, with_socket inst None, [DebugClosed])
      | ShutdownRaises e => (inr e, inst, [ExceptionClosing e])
      | CloseRaises e => (inr e, inst, [ExceptionClosing e])
      end
  end.

End Lifecycle.

(** ** Closing *)

(** X11.  [_close_socket] is idempotent: once a call has returned without
    raising, the instrument has no socket and every further call returns at
    once, changes nothing, logs nothing and raises nothing, whatever the
    operating system would answer. *)
Theorem close_socket_idempotent (os os' : Lifecycle.closing)
    (inst : SocketInstrument.instrument) :
  fst (fst (Lifecycle._close_socket os inst)) = inl tt ->
  let closed := snd (fst (Lifecycle._close_socket os inst)) in
  SocketInstrument._socket closed = None /\
  Lifecycle._close_socket os' closed = (inl tt, closed, []).
Proof.
  unfold Lifecycle._close_socket.
  destruct (SocketInstrument._socket inst) as [sk|] eqn:Es.
  - destruct os; cbn [fst snd]; try discriminate.
    intros _. split; reflexivity.
  - cbn [fst snd]. intros _. split; [exact Es|]. now rewrite Es.
Qed.

Lemma close_socket_idempotent_witness :
  SocketInstrument._socket
    (snd (fst (Lifecycle._close_socket Lifecycle.Closes
                 (Link.connected Link.answering_peer)))) = None /\
  Lifecycle._close_socket (Lifecycle.ShutdownRaises SocketError)
    (snd (fst (Lifecycle._close_socket Lifecycle.Closes
                 (Link.connected Link.answering_peer))))
  = (inl tt,
     snd (fst (Lifecycle._close_socket Lifecycle.Closes
                 (Link.connected Link.answering_peer))), []).
Proof.
  exact (close_socket_idempotent Lifecycle.Closes
           (Lifecycle.ShutdownRaises SocketError)
           (Link.connected Link.answering_peer) eq_refl).
Defined.

(** X12.  After a [_close_socket] that returned, a [_query] touches no
    socket: the send raises the [AttributeError] of the missing socket,
    which is logged and re-raised unchanged, and no receive is attempted. *)
Theorem query_after_close (os : Lifecycle.closing)
    (inst : SocketInstrument.instrument) (cmd : SocketInstrument.str)
    (fuel : nat) :
  fst (fst (Lifecycle._close_socket os inst)) = inl tt ->
  let closed := snd (fst (Lifecycle._close_socket os inst)) in
  SocketInstrument._query fuel cmd closed =
    Some (inr (SocketInstrument.Reraised AttributeError),
          SocketInstrument.logging closed
            (SocketInstrument.LoggedOther AttributeError)).
Proof.
  intros H closed.
  destruct (close_socket_idempotent os os inst H) as [Hnone _].
  fold closed in Hnone.
  unfold SocketInstrument._query, SocketInstrument._send. rewrite Hnone.
  reflexivity.
Qed.

Lemma query_after_close_witness :
  SocketInstrument._query 0 (SocketInstrument.of_string "*RST")
    (snd (fst (Lifecycle._close_socket Lifecycle.Closes
                 (Link.connected Link.answering_peer))))
  = Some (inr (SocketInstrument.Reraised AttributeError),
          SocketInstrument.logging
            (snd (fst (Lifecycle._close_socket Lifecycle.Closes
                         (Link.connected Link.answering_peer))))
            (SocketInstrument.LoggedOther AttributeError)).
Proof.
  exact (query_after_close Lifecycle.Closes (Link.connected Link.answering_peer)
           (SocketInstrument.of_string "*RST") 0 eq_refl).
Defined.

(** ** Connecting *)

Section Connect.
Import SocketInstrument.

Lemma handle_classify {A} (on_timeout on_error : errmsg) (e : exn)
    (inst : instrument) :
  exists r, @handle A on_timeout on_error e inst =
              (inr r, logging inst (recorded_error r)) /\
            Lifecycle.classify r = (Lifecycle.FromQuery r, []).
Proof.
  destruct e; unfold handle;
    match goal with
    | |- exists r, (inr ?x, _) = _ /\ _ => exists x; split; reflexivity
    end.
Qed.

Lemma _send_outcome (cmd : str) (inst : instrument) (sk : socket) :
  _socket inst = Some sk ->
  (exists inst', _send cmd inst = (inl tt, inst') /\
                 exists payload,
                   encode (_codefmt inst) (cmd ++ _escseq inst) = Some payload /\
                   _socket inst' = Some (sent payload sk) /\
                   _socket_buffer_size inst' = _socket_buffer_size inst /\
                   _codefmt inst' = _codefmt inst) \/
  (exists r inst', _send cmd inst = (inr r, inst') /\
                   Lifecycle.classify r = (Lifecycle.FromQuery r, []) /\
                   (_socket inst' = Some sk \/
                    exists payload, _socket inst' = Some (sent payload sk))).
Proof.
  intros Hs. unfold _send. rewrite Hs.
  destruct (encode (_codefmt inst) (cmd ++ _escseq inst)) as [payload|] eqn:Ee.
  - unfold sendall.
    destruct (deliveries sk) as [|[| |] rest] eqn:Ed.
    + left. eexists. split; [reflexivity|]. exists payload.
      unfold sent. rewrite Ed. repeat split.
    + left. eexists. split; [reflexivity|]. exists payload.
      unfold sent. rewrite Ed. repeat split.
    + right. eexists. eexists. split; [reflexivity|]. split; [reflexivity|].
      right. exists payload. unfold sent. rewrite Ed. reflexivity.
    + right. eexists. eexists. split; [reflexivity|]. split; [reflexivity|].
      right. exists payload. unfold sent. rewrite Ed. reflexivity.
  - right. eexists. eexists. split; [reflexivity|]. split; [reflexivity|].
    left. exact Hs.
Qed.

Lemma _recv_outcome (fuel : nat) (inst : instrument) (sk : socket)
    (result : str + raised) (inst' : instrument) :
  _socket inst = Some sk ->
  _recv fuel inst = Some (result, inst') ->
  (exists sk', _socket inst' = Some sk') /\
  match result with
  | inl _ => True
  | inr r => Lifecycle.classify r = (Lifecycle.FromQuery r, [])
  end.
Proof.
  intros Hs H.
  destruct (_recv_effect _ _ _ _ _ Hs H) as (sk' & n & Hsk' & _ & _).
  split; [eauto|].
  destruct result as [resp|r]; [exact I|].
  unfold _recv in H. rewrite Hs in H.
  destruct (recv_loop fuel _ _ [] sk) as [[[raw|e] sk0]|]; try discriminate.
  destruct (@handle_classify str TimeoutReceiving ErrorReceiving e
              (with_socket inst (Some sk0))) as (r0 & Hh & Hc).
  rewrite Hh in H. injection H as <- <-. exact Hc.
Qed.

Lemma _query_outcome (fuel : nat) (cmd : str) (inst : instrument) (sk : socket)
    (result : str + raised) (inst' : instrument) :
  _socket inst = Some sk ->
  _query fuel cmd inst = Some (result, inst') ->
  (exists sk', _socket inst' = Some sk') /\
  match result with
  | inl _ => True
  | inr r => Lifecycle.classify r = (Lifecycle.FromQuery r, [])
  end.
Proof.
  intros Hs H. unfold _query in H.
  destruct (_send_outcome (cmd ++ of_string ";*OPC?") inst sk Hs)
    as [(inst1 & Hsend & payload & _ & Hs1 & _)|(r & inst1 & Hsend & Hc & Hs1)];
    rewrite Hsend in H.
  - exact (_recv_outcome _ _ _ _ _ Hs1 H).
  - injection H as <- <-. split; [|exact Hc].
    destruct Hs1 as [Hs1|[payload Hs1]]; eauto.
Qed.

End Connect.

(** X13.  [_connect_socket] reports a connection failure only for the
    connection itself.  When [create_connection] times out or fails, the
    method raises that connection error and leaves the instrument as it was.
    When the connection is made, the new socket stays installed whatever
    happens next: if the identification query fails, its send or receive
    error is raised as it is (a timeout of the query is never turned into a
    connection timeout) and the socket is not closed. *)
Theorem connect_socket_outcomes (fuel : nat) (inst : SocketInstrument.instrument) :
  Lifecycle._connect_socket fuel Lifecycle.ConnectTimeout inst =
    Some (inr Lifecycle.TimeoutConnecting, inst,
          [Lifecycle.ExceptionConnectTimeout]) /\
  Lifecycle._connect_socket fuel Lifecycle.ConnectError inst =
    Some (inr Lifecycle.ErrorConnecting, inst,
          [Lifecycle.ExceptionConnectError]) /\
  forall sk result inst' records,
    Lifecycle._connect_socket fuel (Lifecycle.Connects sk) inst =
      Some (result, inst', records) ->
    (exists sk', SocketInstrument._socket inst' = Some sk') /\
    match result with
    | inl _ =>
        exists resp,
          records = [Lifecycle.DebugInstId resp; Lifecycle.DebugOpened]
    | inr raised =>
        records = [] /\
        exists r, raised = Lifecycle.FromQuery r /\
                  SocketInstrument._query fuel
                    (SocketInstrument.of_string "*IDN?")
                    (SocketInstrument.with_socket inst (Some sk))
                  = Some (inr r, inst')
    end.
Proof.
  split; [reflexivity|]. split; [reflexivity|].
  intros sk result inst' records H. unfold Lifecycle._connect_socket in H.
  destruct (SocketInstrument._query fuel (SocketInstrument.of_string "*IDN?")
              (SocketInstrument.with_socket inst (Some sk)))
    as [[[resp|r] inst1]|] eqn:Eq; [| |discriminate].
  - injection H as <- <- <-.
    destruct (_query_outcome _ _ (SocketInstrument.with_socket inst (Some sk))
                sk _ _ eq_refl Eq) as [Hs _].
    split; [exact Hs|]. eauto.
  - destruct (_query_outcome _ _ (SocketInstrument.with_socket inst (Some sk))
                sk _ _ eq_refl Eq) as [Hs Hc].
    rewrite Hc in H. cbn [fst snd] in H. injection H as <- <- <-.
    split; [exact Hs|]. split; [reflexivity|]. eauto.
Qed.

(** X14.  A connection that is made sends one thing: the identification
    query [*IDN?;*OPC?] with the line terminator, in the configured
    encoding, as the first call on the new socket, followed by [recv] calls
    only; with a positive buffer size [_connect_socket] then ends, whatever
    the peer answers. *)
Theorem connect_socket_sends_identification
    (inst : SocketInstrument.instrument) (sk : SocketInstrument.socket)
    (payload : list Byte.byte) :
  (0 < SocketInstrument._socket_buffer_size inst)%nat ->
  SocketInstrument.decode (SocketInstrument._codefmt inst) [] = Some [] ->
  SocketInstrument.encode (SocketInstrument._codefmt inst)
    ((SocketInstrument.of_string "*IDN?" ++ SocketInstrument.of_string ";*OPC?")
       ++ SocketInstrument._escseq inst) = Some payload ->
  exists result inst' records sk' n,
    (forall fuel,
        (pending (SocketInstrument.incoming sk) < fuel)%nat ->
        Lifecycle._connect_socket fuel (Lifecycle.Connects sk) inst =
          Some (result, inst', records)) /\
    SocketInstrument._socket inst' = Some sk' /\
    SocketInstrument.calls sk' =
      SocketInstrument.calls sk ++
      SocketInstrument.CallSendall payload ::
      repeat (SocketInstrument.CallRecv
                (SocketInstrument._socket_buffer_size inst)) n.
Proof.
  intros Hpos Hempty Henc.
  set (inst0 := SocketInstrument.with_socket inst (Some sk)).
  assert (Hs0 : SocketInstrument._socket inst0 = Some sk) by reflexivity.
  pose proof (_send_connected (SocketInstrument.of_string "*IDN?"
                                 ++ SocketInstrument.of_string ";*OPC?")
                inst0 sk payload Hs0 Henc) as Hsend.
  cbv zeta in Hsend.
  destruct (hd SocketInstrument.Delivered (SocketInstrument.deliveries sk)) eqn:Ehd.
  - set (inst2 := SocketInstrument.logging
                    (SocketInstrument.with_socket inst0 (Some (sent payload sk)))
                    (SocketInstrument.DebugSent
                       (SocketInstrument.of_string "*IDN?"
                          ++ SocketInstrument.of_string ";*OPC?"))) in *.
    assert (Hs2 : SocketInstrument._socket inst2 = Some (sent payload sk))
      by reflexivity.
    destruct (_recv_terminates inst2 (sent payload sk) Hs2 Hpos Hempty)
      as [[result inst'] Hrecv].
    cbn [sent SocketInstrument.incoming] in Hrecv.
    pose proof (Hrecv _ (Nat.lt_succ_diag_r _)) as Hone.
    destruct (_recv_effect _ _ _ _ _ Hs2 Hone) as (sk' & n & Hsk' & Hcalls & _).
    destruct (_recv_outcome _ _ _ _ _ Hs2 Hone) as [_ Hc].
    destruct result as [resp|r].
    + exists (inl tt), inst', [Lifecycle.DebugInstId resp; Lifecycle.DebugOpened],
        sk', (S n).
      split; [|split; [exact Hsk'|]].
      * intros fuel Hfuel. unfold Lifecycle._connect_socket.
        unfold SocketInstrument._query. fold inst0. rewrite Hsend.
        now rewrite (Hrecv fuel Hfuel).
      * rewrite Hcalls. cbn [sent SocketInstrument.calls].
        now rewrite <- app_assoc.
    + exists (inr (Lifecycle.FromQuery r)), inst', [], sk', (S n).
      split; [|split; [exact Hsk'|]].
      * intros fuel Hfuel. unfold Lifecycle._connect_socket.
        unfold SocketInstrument._query. fold inst0. rewrite Hsend.
        rewrite (Hrecv fuel Hfuel), Hc. reflexivity.
      * rewrite Hcalls. cbn [sent SocketInstrument.calls].
        now rewrite <- app_assoc.
  - eexists. eexists. eexists. exists (sent payload sk), 0%nat.
    split.
    + intros fuel _. unfold Lifecycle._connect_socket, SocketInstrument._query.
      fold inst0. rewrite Hsend. reflexivity.
    + split; reflexivity.
  - eexists. eexists. eexists. exists (sent payload sk), 0%nat.
    split.
    + intros fuel _. unfold Lifecycle._connect_socket, SocketInstrument._query.
      fold inst0. rewrite Hsend. reflexivity.
    + split; reflexivity.
Qed.

Lemma connect_socket_sends_identification_witness :
  exists result inst' records sk' n,
    (forall fuel,
        (pending (SocketInstrument.incoming Link.answering_peer) < fuel)%nat ->
        Lifecycle._connect_socket fuel (Lifecycle.Connects Link.answering_peer)
          SocketInstrument.init = Some (result, inst', records)) /\
    SocketInstrument._socket inst' = Some sk' /\
    SocketInstrument.calls sk' =
      [] ++
      SocketInstrument.CallSendall
        [Byte.x2a; Byte.x49; Byte.x44; Byte.x4e; Byte.x3f; Byte.x3b; Byte.x2a;
         Byte.x4f; Byte.x50; Byte.x43; Byte.x3f; Byte.x0a] ::
      repeat (SocketInstrument.CallRecv 1024) n.
Proof.
  exact (connect_socket_sends_identification SocketInstrument.init
           Link.answering_peer
           [Byte.x2a; Byte.x49; Byte.x44; Byte.x4e; Byte.x3f; Byte.x3b; Byte.x2a;
            Byte.x4f; Byte.x50; Byte.x43; Byte.x3f; Byte.x0a]
           (Nat.lt_0_succ 1023) eq_refl eq_refl).
Defined.

(** A peer whose network does not take the first send in time. *)
Definition stalled_peer : SocketInstrument.socket :=
  {| SocketInstrument.incoming := [];
     SocketInstrument.peer := SocketInstrument.Silent;
     SocketInstrument.deliveries := [SocketInstrument.SendStall];
     SocketInstrument.calls := [] |}.

Lemma connect_socket_outcomes_witness :
  exists result inst' records,
    Lifecycle._connect_socket 1 (Lifecycle.Connects stalled_peer)
      SocketInstrument.init = Some (result, inst', records) /\
    (exists sk', SocketInstrument._socket inst' = Some sk') /\
    result =
      inr (Lifecycle.FromQuery
             (SocketInstrument.SocketInstrumentError
                (SocketInstrument.TimeoutSending
                   (SocketInstrument.of_string "*IDN?"
                      ++ SocketInstrument.of_string ";*OPC?")))).
Proof.
  eexists. eexists. eexists. split; [reflexivity|]. split; [|reflexivity].
  exact (proj1 (proj2 (proj2 (connect_socket_outcomes 1 SocketInstrument.init))
                  stalled_peer _ _ _ eq_refl)).
Defined.

(** * WifiRvrTest: running the sweep and saving its results *)

Module RvrSweep.
Import WifiRvrTest.

(** What the methods raise: the [ValueError] of [range] with a zero step,
    or one of the exceptions of [exn]. *)
Inductive raised : Type :=
| ValueError
| Raised (e : exn).

Inductive outcome (A : Type) : Type :=
| Done (a : A)
| Fails (r : raised).
Arguments Done {A} a.
Arguments Fails {A} r.

(** [len(range(start, stop, step))] for a non-zero step. *)
Definition range_length (start stop step : Z) : Z :=
  if (0 <? step)%Z then
    if (start <? stop)%Z then ((stop - start - 1) / step + 1)%Z else 0%Z
  else
    if (stop <? start)%Z then ((start - stop - 1) / (- step) + 1)%Z else 0%Z.

(** [list(range(start, stop, step))]; [None] is the [ValueError] of a zero
    step. *)
Definition range (start stop step : Z) : option (list Z) :=
  if (step =? 0)%Z then None
  else Some (map (fun i => (start + Z.of_nat i * step)%Z)
               (seq 0 (Z.to_nat (range_length start stop step)))).

(** [rates[k:-1]] *)
Definition slice_to_last (k : Z) (rates : list Q) : list Q :=
  let len := Z.of_nat (List.length rates) in
  let start := if (k <? 0)%Z then Z.max (len + k) 0 else Z.min k len in
  let stop := Z.max (len - 1) 0 in
  firstn (Z.to_nat (stop - start)) (skipn (Z.to_nat start) rates).

(** [math.fsum(l)] *)
Definition fsum (l : list Q) : Q := fold_right Qplus 0 l.

(** What happens at one attenuation: a call outside the [try] blocks raises
    (attenuator, iperf server, output file), or the iperf result is parsed
    into its instantaneous rates, or it cannot be parsed. *)
Inductive iperf_run : Type :=
| Aborts (e : exn)
| Parsed (instantaneous_rates : list Q)
| Unparsed.

(** The throughput recorded for one attenuation: eight times the mean of
    the rates kept, and 0 when anything in the [try] block raises, the
    division by an empty slice included. *)
Definition curr_throughput (iperf_ignored_interval : Z) (rates : option (list Q))
  : Q :=
  match rates with
  | None => 0
  | Some rates =>
      match slice_to_last iperf_ignored_interval rates with
      | [] => 0
      | kept =>
          fsum kept / inject_Z (Z.of_nat (List.length kept)) * inject_Z 8
      end
  end.

(** The loop of [rvr_test]; [world] tells what happens at each
    attenuation. *)
Fixpoint rvr_loop (iperf_ignored_interval : Z) (world : Z -> iperf_run)
    (rvr_atten_range : list Z) (rvr_result : list Q) : res (list Q) :=
  match rvr_atten_range with
  | [] => Ret rvr_result
  | atten :: rest =>
      match world atten with
      | Aborts e => Raise e
      | Parsed rates =>
          rvr_loop iperf_ignored_interval world rest
            (rvr_result ++ [curr_throughput iperf_ignored_interval (Some rates)])
      | Unparsed =>
          rvr_loop iperf_ignored_interval world rest
            (rvr_result ++ [curr_throughput iperf_ignored_interval None])
      end
  end.

(** [rvr_test(self)]; [reset] is the final setting of the attenuators to
    0 dB. *)
Definition rvr_test (iperf_ignored_interval : Z) (world : Z -> iperf_run)
    (reset : res unit) (rvr_atten_range : list Z) : res (list Q) :=
  bind (rvr_loop iperf_ignored_interval world rvr_atten_range [])
    (fun rvr_result => bind reset (fun _ => Ret rvr_result)).

(** The test parameters read by [rvr_test_func];
    [fixed_attenuation_of_channel] is
    [test_params["fixed_attenuation"][str(channel)]]. *)
Record sweep_params : Type := {
  rvr_atten_start : Z;
  rvr_atten_stop : Z;
  rvr_atten_step : Z;
  iperf_ignored_interval : Z;
  fixed_attenuation_of_channel : option Q
}.

Definition lift_res {A} (m : res A) : outcome A :=
  match m with
  | Ret a => Done a
  | Raise e => Fails (Raised e)
  end.

(** [rvr_test_func(self, channel, mode)]; [setup] is the configuration of
    the access point and the connection of the device. *)
Definition rvr_test_func (p : sweep_params) (setup : res unit)
    (world : Z -> iperf_run) (reset : res unit) : outcome rvr_result :=
  match range (rvr_atten_start p) (rvr_atten_stop p) (rvr_atten_step p) with
  | None => Fails ValueError
  | Some rvr_atten_range =>
      match setup with
      | Raise e => Fails (Raised e)
      | Ret _ =>
          match fixed_attenuation_of_channel p with
          | None => Fails (Raised KeyError)
          | Some fixed =>
              match rvr_test (iperf_ignored_interval p) world reset
                      rvr_atten_range with
              | Raise e => Fails (Raised e)
              | Ret throughput =>
                  Done {| attenuation := map inject_Z rvr_atten_range;
                          fixed_attenuation := fixed;
                          throughput_receive := throughput |}
              end
          end
      end
  end.

(** The arguments [post_process_results] hands to [bokeh_plot]. *)
Record plot : Type := {
  x_data : list (list Q);
  y_data : list (list Q);
  legends : list string
}.

(** [post_process_results(self, rvr_result)]: [saved] is the writing of the
    results file; the value is the plot and whether the warning of the
    [except] clause was logged.  The lists are filled in place, so what was
    inserted before an exception stays. *)
Definition post_process_results (test_name : string) (saved : res unit)
    (gldn_file : file gldn_results) (r : rvr_result) : res (plot * bool) :=
  bind saved (fun _ =>
  let total_attenuation :=
    map (fun att => att + fixed_attenuation r) (attenuation r) in
  let current :=
    {| x_data := [total_attenuation]; y_data := [throughput_receive r];
       legends := [test_name] |} in
  match load gldn_file with
  | Raise _ => Ret (current, true)
  | Ret g =>
      let named := "Golden Results"%string :: legends current in
      match gldn_attenuation g with
      | Raise _ =>
          Ret ({| x_data := x_data current; y_data := y_data current;
                  legends := named |}, true)
      | Ret gldn_att =>
          match getkey (gldn_throughput_receive_key g) with
          | Raise _ =>
              Ret ({| x_data := gldn_att :: x_data current;
                      y_data := y_data current; legends := named |}, true)
          | Ret gldn_throughput =>
              Ret ({| x_data := gldn_att :: x_data current;
                      y_data := gldn_throughput :: y_data current;
                      legends := named |}, false)
          end
      end
  end).

End RvrSweep.

(** ** The attenuations of a sweep *)

Lemma py_range_nth_error (start stop step : Z) (l : list Z) :
  RvrSweep.range start stop step = Some l ->
  step <> 0%Z /\
  forall i, (i < List.length l)%nat ->
            nth_error l i = Some (start + Z.of_nat i * step)%Z.
Proof.
  unfold RvrSweep.range. destruct (Z.eqb_spec step 0) as [|Hstep]; [discriminate|].
  intros H. injection H as <-. split; [exact Hstep|].
  intros i Hi. rewrite length_map, length_seq in Hi.
  rewrite nth_error_map.
  rewrite (nth_error_nth' _ 0%nat) by now rewrite length_seq.
  rewrite seq_nth by exact Hi. reflexivity.
Qed.

Lemma py_range_In (start stop step : Z) (l : list Z) (a : Z) :
  RvrSweep.range start stop step = Some l ->
  In a l <->
  exists i, (0 <= i)%Z /\ a = (start + i * step)%Z /\
            if (0 <? step)%Z then (a < stop)%Z else (stop < a)%Z.
Proof.
  unfold RvrSweep.range. destruct (Z.eqb_spec step 0) as [|Hstep]; [discriminate|].
  intros H. injection H as <-. rewrite in_map_iff.
  unfold RvrSweep.range_length.
  destruct (Z.ltb_spec 0 step) as [Hpos|Hneg].
  - split.
    + intros (i & <- & Hi). apply in_seq in Hi. exists (Z.of_nat i).
      split; [lia|]. split; [reflexivity|].
      destruct (Z.ltb_spec start stop) as [Hlt|Hge]; [|simpl in Hi; lia].
      pose proof (Z.mul_div_le (stop - start - 1) step Hpos) as Hq.
      assert (Hqn : (0 <= (stop - start - 1) / step)%Z)
        by (apply Z.div_pos; lia).
      assert (Hi' : (Z.of_nat i <= (stop - start - 1) / step)%Z) by lia.
      nia.
    + intros (i & Hi0 & -> & Hlt). exists (Z.to_nat i).
      split; [rewrite Z2Nat.id by exact Hi0; reflexivity|].
      apply in_seq. split; [lia|].
      assert (Hss : (start < stop)%Z) by nia.
      destruct (Z.ltb_spec start stop) as [_|Hge]; [|lia].
      assert (Hq : (i <= (stop - start - 1) / step)%Z)
        by (apply Z.div_le_lower_bound; [exact Hpos | lia]).
      lia.
  - assert (Hpos : (0 < - step)%Z) by lia.
    split.
    + intros (i & <- & Hi). apply in_seq in Hi. exists (Z.of_nat i).
      split; [lia|]. split; [reflexivity|].
      destruct (Z.ltb_spec stop start) as [Hlt|Hge]; [|simpl in Hi; lia].
      pose proof (Z.mul_div_le (start - stop - 1) (- step) Hpos) as Hq.
      assert (Hqn : (0 <= (start - stop - 1) / - step)%Z)
        by (apply Z.div_pos; lia).
      assert (Hi' : (Z.of_nat i <= (start - stop - 1) / - step)%Z) by lia.
      nia.
    + intros (i & Hi0 & -> & Hlt). exists (Z.to_nat i).
      split; [rewrite Z2Nat.id by exact Hi0; reflexivity|].
      apply in_seq. split; [lia|].
      assert (Hss : (stop < start)%Z) by nia.
      destruct (Z.ltb_spec stop start) as [_|Hge]; [|lia].
      assert (Hq : (i <= (start - stop - 1) / - step)%Z)
        by (apply Z.div_le_lower_bound; [exact Hpos | lia]).
      lia.
Qed.

(** No attenuation of a sweep is visited twice. *)
Lemma py_range_no_repeat (start stop step : Z) (l : list Z) (idx : nat) :
  RvrSweep.range start stop step = Some l ->
  (idx < List.length l)%nat ->
  earlier_same (map inject_Z l) idx = 0%nat.
Proof.
  intros Hr Hidx. destruct (py_range_nth_error _ _ _ _ Hr) as [Hstep Hnth].
  unfold earlier_same. rewrite filter_none; [reflexivity|].
  intros i Hi. apply in_seq in Hi.
  assert (Hi' : (i < List.length l)%nat) by lia.
  change (0 : Q) with (inject_Z 0). rewrite !map_nth.
  rewrite (nth_error_nth _ _ 0%Z (Hnth i Hi')).
  rewrite (nth_error_nth _ _ 0%Z (Hnth idx Hidx)).
  destruct (Qeq_bool _ _) eqn:E; [|reflexivity].
  apply Qeq_bool_eq in E. unfold Qeq, inject_Z in E. cbn [Qnum Qden] in E.
  exfalso. assert (Hne : (Z.of_nat i <> Z.of_nat idx)%Z) by lia. nia.
Qed.

(** ** The throughput recorded_throughput at one attenuation *)

Lemma fsum_nonneg (l : list Q) :
  (forall v, In v l -> 0 <= v) -> 0 <= RvrSweep.fsum l.
Proof.
  induction l as [|a l IH]; intros H; cbn [RvrSweep.fsum fold_right].
  - apply Qle_refl.
  - assert (Ha : 0 <= a) by (apply H; now left).
    assert (Hl : 0 <= RvrSweep.fsum l) by (apply IH; intros; apply H; now right).
    unfold RvrSweep.fsum in Hl. lra.
Qed.

Lemma slice_to_last_incl (k : Z) (rates : list Q) (v : Q) :
  In v (RvrSweep.slice_to_last k rates) -> In v rates.
Proof.
  unfold RvrSweep.slice_to_last. cbv zeta.
  match goal with
  | |- In _ (firstn ?a (skipn ?b _)) -> _ => set (n := a); set (start := b)
  end.
  intros H.
  rewrite <- (firstn_skipn start rates). apply in_or_app. right.
  rewrite <- (firstn_skipn n (skipn start rates)). apply in_or_app. now left.
Qed.

Lemma curr_throughput_nonneg (k : Z) (rates : option (list Q)) :
  (forall l v, rates = Some l -> In v l -> 0 <= v) ->
  0 <= RvrSweep.curr_throughput k rates.
Proof.
  intros H. unfold RvrSweep.curr_throughput.
  destruct rates as [l|]; [|apply Qle_refl].
  pose proof (slice_to_last_incl k l) as Hincl.
  destruct (RvrSweep.slice_to_last k l) as [|a kept] eqn:E; [apply Qle_refl|].
  assert (Hsum : 0 <= RvrSweep.fsum (a :: kept)).
  { apply fsum_nonneg. intros v Hv. apply (H l v eq_refl). now apply Hincl. }
  assert (Hlen : 0 < inject_Z (Z.of_nat (List.length (a :: kept)))).
  { unfold Qlt, inject_Z. cbn [Qnum Qden List.length]. lia. }
  apply Qmult_le_0_compat; [|discriminate].
  unfold Qdiv. apply Qmult_le_0_compat; [exact Hsum|].
  apply Qinv_le_0_compat. apply Qlt_le_weak. exact Hlen.
Qed.

(** The throughput recorded_throughput for what happened at one attenuation. *)
Definition recorded_throughput (k : Z) (run : RvrSweep.iperf_run) : Q :=
  match run with
  | RvrSweep.Parsed rates => RvrSweep.curr_throughput k (Some rates)
  | _ => 0
  end.

Lemma rvr_loop_spec (k : Z) (world : Z -> RvrSweep.iperf_run) (l : list Z) :
  forall acc out,
    RvrSweep.rvr_loop k world l acc = Ret out ->
    out = acc ++ map (fun atten => recorded_throughput k (world atten)) l /\
    forall atten e, In atten l -> world atten <> RvrSweep.Aborts e.
Proof.
  induction l as [|a l IH]; intros acc out H; cbn [RvrSweep.rvr_loop] in H.
  - injection H as <-. split; [now rewrite app_nil_r|]. intros ? ? [].
  - destruct (world a) as [e|rates|] eqn:Ew; [discriminate| |];
      apply IH in H; destruct H as [-> Hno]; cbn [map];
      rewrite <- app_assoc; cbn [app]; unfold recorded_throughput at 2; rewrite Ew;
      (split; [reflexivity|]);
      intros atten e [<-|Hin]; [congruence | now apply Hno
                                | congruence | now apply Hno].
Qed.

Lemma rvr_loop_runs (k : Z) (world : Z -> RvrSweep.iperf_run) (l : list Z) :
  (forall atten e, In atten l -> world atten <> RvrSweep.Aborts e) ->
  forall acc,
    RvrSweep.rvr_loop k world l acc =
    Ret (acc ++ map (fun atten => recorded_throughput k (world atten)) l).
Proof.
  induction l as [|a l IH]; intros Hno acc; cbn [RvrSweep.rvr_loop map].
  - now rewrite app_nil_r.
  - assert (Hl : forall atten e, In atten l -> world atten <> RvrSweep.Aborts e)
      by (intros; apply Hno; now right).
    pose proof (Hno a) as Ha. unfold recorded_throughput at 1.
    destruct (world a) as [e|rates|] eqn:Ew.
    + exfalso. exact (Ha e (or_introl eq_refl) eq_refl).
    + rewrite (IH Hl). now rewrite <- app_assoc.
    + rewrite (IH Hl). now rewrite <- app_assoc.
Qed.

Section SweepShape.
Import WifiRvrTest RvrSweep.
Variables (p : sweep_params) (setup reset : res unit)
  (world : Z -> iperf_run) (r : rvr_result).
Hypothesis returned : rvr_test_func p setup world reset = Done r.

Lemma rvr_test_func_returned :
  exists atts fixed,
    range (rvr_atten_start p) (rvr_atten_stop p) (rvr_atten_step p) = Some atts /\
    fixed_attenuation_of_channel p = Some fixed /\
    (forall atten e, In atten atts -> world atten <> Aborts e) /\
    r = {| attenuation := map inject_Z atts;
           fixed_attenuation := fixed;
           throughput_receive :=
             map (fun atten =>
                    recorded_throughput (iperf_ignored_interval p) (world atten))
               atts |}.
Proof.
  unfold rvr_test_func in returned.
  destruct (range _ _ _) as [atts|]; [|discriminate].
  destruct setup as [[]|]; [|discriminate].
  destruct (fixed_attenuation_of_channel p) as [fixed|]; [|discriminate].
  unfold rvr_test in returned.
  destruct (rvr_loop _ world atts []) as [out|] eqn:El;
    cbn [Py.bind] in returned; [|discriminate].
  destruct reset as [[]|]; cbn [Py.bind] in returned; [|discriminate].
  injection returned as <-.
  apply rvr_loop_spec in El. destruct El as [-> Hno].
  exists atts, fixed. repeat split; auto.
Qed.

Lemma rvr_test_func_nonneg :
  (forall atten rates v,
      world atten = Parsed rates -> In v rates -> 0 <= v) ->
  forall v, In v (throughput_receive r) -> 0 <= v.
Proof.
  intros Hrates v Hv.
  destruct rvr_test_func_returned as (atts & fixed & _ & _ & _ & ->).
  cbn [throughput_receive] in Hv. apply in_map_iff in Hv.
  destruct Hv as (atten & <- & _). unfold recorded_throughput.
  destruct (world atten) as [e|rates|] eqn:Ew; try apply Qle_refl.
  apply curr_throughput_nonneg. intros l v [= <-] Hv.
  exact (Hrates atten rates v Ew Hv).
Qed.

End SweepShape.

(** The JSON object [post_process_results] writes for a sweep, read back as
    a golden file. *)
Definition saved_results (r : WifiRvrTest.rvr_result)
  : WifiRvrTest.gldn_results :=
  {| WifiRvrTest.gldn_attenuation_key := Some (WifiRvrTest.attenuation r);
     WifiRvrTest.gldn_fixed_attenuation_key :=
       Some (WifiRvrTest.fixed_attenuation r);
     WifiRvrTest.gldn_throughput_receive_key :=
       Some (WifiRvrTest.throughput_receive r) |}.

(** A golden file from which [post_process_results] gets both curves. *)
Definition golden_complete (gldn_file : file WifiRvrTest.gldn_results) : Prop :=
  exists g gldn_att gldn_throughput,
    load gldn_file = Ret g /\
    WifiRvrTest.gldn_attenuation g = Ret gldn_att /\
    WifiRvrTest.gldn_throughput_receive_key g = Some gldn_throughput.

(** One legend per curve, and one list of abscissas per list of ordinates. *)
Definition in_step (pl : RvrSweep.plot) : Prop :=
  List.length (RvrSweep.legends pl) = List.length (RvrSweep.x_data pl) /\
  List.length (RvrSweep.x_data pl) = List.length (RvrSweep.y_data pl).

Module Sweep.
Import RvrSweep.

Definition params : sweep_params :=
  {| rvr_atten_start := 0; rvr_atten_stop := 30; rvr_atten_step := 10;
     iperf_ignored_interval := 1; fixed_attenuation_of_channel := Some 3 |}.

(** Five one-second samples at 0 dB, two at 10 dB, no result at 20 dB. *)
Definition world (atten : Z) : iperf_run :=
  if (atten =? 0)%Z then Parsed [1; 10; 12; 14; 5]
  else if (atten =? 10)%Z then Parsed [6; 7]
  else Unparsed.

Definition run : outcome WifiRvrTest.rvr_result :=
  rvr_test_func params (Ret tt) world (Ret tt).

End Sweep.

(** X15.  A sweep returned by [rvr_test_func] holds the attenuations
    [start + i * step] that lie before [stop] (after it for a negative
    step), each once, with the fixed attenuation of the channel and one
    throughput per attenuation: eight times the mean of the rates kept
    where iperf gave a result, 0 where it did not.  When no rate is negative,
    no throughput is. *)
Theorem rvr_test_func_sweep (p : RvrSweep.sweep_params) (setup reset : res unit)
    (world : Z -> RvrSweep.iperf_run) (r : WifiRvrTest.rvr_result) :
  RvrSweep.rvr_test_func p setup world reset = RvrSweep.Done r ->
  exists atts : list Z,
    WifiRvrTest.attenuation r = map inject_Z atts /\
    (forall a,
        In a atts <->
        exists i, (0 <= i)%Z /\
          a = (RvrSweep.rvr_atten_start p + i * RvrSweep.rvr_atten_step p)%Z /\
          if (0 <? RvrSweep.rvr_atten_step p)%Z
          then (a < RvrSweep.rvr_atten_stop p)%Z
          else (RvrSweep.rvr_atten_stop p < a)%Z) /\
    (forall idx, (idx < List.length atts)%nat ->
                 earlier_same (WifiRvrTest.attenuation r) idx = 0%nat) /\
    RvrSweep.fixed_attenuation_of_channel p =
      Some (WifiRvrTest.fixed_attenuation r) /\
    WifiRvrTest.throughput_receive r =
      map (fun atten =>
             recorded_throughput (RvrSweep.iperf_ignored_interval p)
               (world atten)) atts /\
    ((forall atten rates v,
         world atten = RvrSweep.Parsed rates -> In v rates -> 0 <= v) ->
     forall v, In v (WifiRvrTest.throughput_receive r) -> 0 <= v).
Proof.
  intros H.
  pose proof (rvr_test_func_nonneg p setup reset world r H) as Hnn.
  destruct (rvr_test_func_returned p setup reset world r H)
    as (atts & fixed & Hr & Hf & _ & ->).
  exists atts. cbn [WifiRvrTest.attenuation WifiRvrTest.fixed_attenuation
                    WifiRvrTest.throughput_receive] in *.
  split; [reflexivity|].
  split; [intros a; exact (py_range_In _ _ _ _ a Hr)|].
  split; [intros idx Hidx; exact (py_range_no_repeat _ _ _ _ idx Hr Hidx)|].
  split; [exact Hf|]. split; [reflexivity|exact Hnn].
Qed.

Lemma rvr_test_func_sweep_witness :
  exists r, Sweep.run = RvrSweep.Done r /\
    WifiRvrTest.attenuation r = [0; 10; 20] /\
    Forall2 Qeq (WifiRvrTest.throughput_receive r) [96; 0; 0] /\
    exists atts : list Z,
      WifiRvrTest.attenuation r = map inject_Z atts /\
      (forall a,
          In a atts <->
          exists i, (0 <= i)%Z /\ a = (0 + i * 10)%Z /\ (a < 30)%Z).
Proof.
  eexists. split; [reflexivity|]. split; [reflexivity|].
  split; [repeat (constructor; [reflexivity|]); constructor|].
  destruct (rvr_test_func_sweep Sweep.params (Ret tt) (Ret tt) Sweep.world _
              eq_refl) as (atts & Ha & Hin & _).
  exists atts. split; [exact Ha | exact Hin].
Defined.

(** X16.  A sweep returned by [rvr_test_func] passes [pass_fail_check]
    against the results file written for it, when it has at least two
    points, [abs_tolerance >= 0] and iperf reported no negative rate: the
    attenuations of a sweep are distinct and its throughputs are not
    negative, so every point lies in the band of its own neighbourhood. *)
Theorem rerun_against_saved_results_passes (p : RvrSweep.sweep_params)
    (setup reset : res unit) (world : Z -> RvrSweep.iperf_run)
    (tp : WifiRvrTest.test_params) (r : WifiRvrTest.rvr_result) :
  RvrSweep.rvr_test_func p setup world reset = RvrSweep.Done r ->
  0 <= WifiRvrTest.abs_tolerance tp ->
  (2 <= List.length (WifiRvrTest.attenuation r))%nat ->
  (forall atten rates v,
      world atten = RvrSweep.Parsed rates -> In v rates -> 0 <= v) ->
  WifiRvrTest.pass_fail_check tp (Json (saved_results r)) r = Raise TestPass.
Proof.
  intros H Habs H2 Hrates.
  pose proof (rvr_test_func_nonneg p setup reset world r H Hrates) as Hnn.
  destruct (rvr_test_func_returned p setup reset world r H)
    as (atts & fixed & Hr & _ & _ & ->).
  cbn [WifiRvrTest.attenuation WifiRvrTest.throughput_receive] in H2, Hnn.
  apply (rvr_identity_passes tp (map inject_Z atts)
           (map (fun atten =>
                   recorded_throughput (RvrSweep.iperf_ignored_interval p)
                     (world atten)) atts) fixed Habs).
  - now rewrite !length_map.
  - exact H2.
  - exact Hnn.
  - intros idx Hidx. rewrite length_map in Hidx.
    rewrite (py_range_no_repeat _ _ _ _ idx Hr Hidx). lia.
Qed.

Lemma rerun_against_saved_results_passes_witness :
  exists r, Sweep.run = RvrSweep.Done r /\
    WifiRvrTest.pass_fail_check Scenario.params (Json (saved_results r)) r
    = Raise TestPass.
Proof.
  eexists. split; [reflexivity|].
  refine (rerun_against_saved_results_passes Sweep.params (Ret tt) (Ret tt)
            Sweep.world Scenario.params _ eq_refl _ _ _).
  - discriminate.
  - apply Nat.leb_le. reflexivity.
  - intros atten rates v Hw Hv. unfold Sweep.world in Hw.
    destruct (atten =? 0)%Z.
    + injection Hw as <-. cbn in Hv.
      repeat (destruct Hv as [<-|Hv]; [discriminate|]). destruct Hv.
    + destruct (atten =? 10)%Z; [|discriminate].
      injection Hw as <-. cbn in Hv.
      repeat (destruct Hv as [<-|Hv]; [discriminate|]). destruct Hv.
Defined.

(** X17.  When the results file is written, [post_process_results] always
    hands a plot to [bokeh_plot], and the measured sweep is its last curve.
    No warning is logged exactly when the golden file gives both golden
    curves.  The legends and the two lists of curves are in step exactly
    when the golden file gives both curves or cannot be loaded at all: a
    golden file that is loaded but lacks a key leaves the legend
    "Golden Results" without its curve.  A golden file that cannot be loaded
    costs a warning here and makes [pass_fail_check] raise. *)
Theorem post_process_results_plot (test_name : string)
    (gldn_file : file WifiRvrTest.gldn_results) (r : WifiRvrTest.rvr_result) :
  exists pl warned,
    RvrSweep.post_process_results test_name (Ret tt) gldn_file r
      = Ret (pl, warned) /\
    last (RvrSweep.x_data pl) [] =
      map (fun att => att + WifiRvrTest.fixed_attenuation r)
        (WifiRvrTest.attenuation r) /\
    last (RvrSweep.y_data pl) [] = WifiRvrTest.throughput_receive r /\
    last (RvrSweep.legends pl) EmptyString = test_name /\
    (warned = false <-> golden_complete gldn_file) /\
    (in_step pl <->
     golden_complete gldn_file \/ exists e, load gldn_file = Raise e) /\
    (forall e tp, load gldn_file = Raise e ->
                  warned = true /\
                  WifiRvrTest.pass_fail_check tp gldn_file r = Raise e).
Proof.
  unfold RvrSweep.post_process_results, golden_complete, in_step.
  cbn [Py.bind].
  destruct (load gldn_file) as [g|e0] eqn:El.
  - destruct (WifiRvrTest.gldn_attenuation g) as [gldn_att|e1] eqn:Eg.
    + destruct (WifiRvrTest.gldn_throughput_receive_key g) as [thr|] eqn:Et;
        cbn [getkey]; eexists; eexists; (split; [reflexivity|]);
        cbn [RvrSweep.x_data RvrSweep.y_data RvrSweep.legends last List.length];
        (split; [reflexivity|]); (split; [reflexivity|]);
        (split; [reflexivity|]); (split; [|split]).
      * split; [intros _; exists g, gldn_att, thr; auto | reflexivity].
      * split; [intros _; left; exists g, gldn_att, thr; auto|].
        intros _. split; reflexivity.
      * intros e tp He. discriminate He.
      * split; [discriminate|].
        intros (g' & a' & t' & Hg & Ha & Ht). injection Hg as <-. congruence.
      * split; [intros [_ Hy]; discriminate Hy|].
        intros [(g' & a' & t' & Hg & Ha & Ht)|[e He]]; [|discriminate He].
        injection Hg as <-. congruence.
      * intros e tp He. discriminate He.
    + eexists; eexists; (split; [reflexivity|]).
      cbn [RvrSweep.x_data RvrSweep.y_data RvrSweep.legends last List.length].
      (split; [reflexivity|]); (split; [reflexivity|]);
        (split; [reflexivity|]); (split; [|split]).
      * split; [discriminate|].
        intros (g' & a' & t' & Hg & Ha & Ht). injection Hg as <-. congruence.
      * split; [intros [Hx _]; discriminate Hx|].
        intros [(g' & a' & t' & Hg & Ha & Ht)|[e He]]; [|discriminate He].
        injection Hg as <-. congruence.
      * intros e tp He. discriminate He.
  - eexists; eexists; (split; [reflexivity|]).
    cbn [RvrSweep.x_data RvrSweep.y_data RvrSweep.legends last List.length].
    (split; [reflexivity|]); (split; [reflexivity|]);
      (split; [reflexivity|]); (split; [|split]).
    + split; [discriminate|].
      intros (g' & a' & t' & Hg & _). discriminate Hg.
    + split; [intros _; right; eauto|]. intros _. split; reflexivity.
    + intros e tp He. injection He as <-. split; [reflexivity|].
      unfold WifiRvrTest.pass_fail_check. rewrite El. reflexivity.
Qed.

(** X18.  The throughput recorded at one attenuation leaves out the first
    [iperf_ignored_interval] samples and the last one: with [k >= 0] samples
    ignored it is eight times the mean of the samples between them, and it
    is 0, without any error, when iperf gave at most [k + 1] samples. *)
Theorem curr_throughput_ignores_edges :
  (forall (k : Z) (pre mid : list Q) (final : Q),
      Z.of_nat (List.length pre) = k ->
      mid <> [] ->
      RvrSweep.curr_throughput k (Some (pre ++ mid ++ [final])) =
      RvrSweep.fsum mid / inject_Z (Z.of_nat (List.length mid)) * inject_Z 8)
  /\
  (forall (k : Z) (rates : list Q),
      (0 <= k)%Z ->
      (Z.of_nat (List.length rates) <= k + 1)%Z ->
      RvrSweep.curr_throughput k (Some rates) = 0).
Proof.
  split.
  - intros k pre mid final Hk Hmid.
    assert (Hs : RvrSweep.slice_to_last k (pre ++ mid ++ [final]) = mid).
    { unfold RvrSweep.slice_to_last. cbv zeta.
      rewrite !length_app. cbn [List.length].
      destruct (Z.ltb_spec k 0) as [Hneg|_]; [lia|].
      replace (Z.to_nat (Z.min k _)) with (List.length pre) by lia.
      match goal with
      | |- firstn ?n _ = _ => replace n with (List.length mid) by lia
      end.
      rewrite skipn_app, Nat.sub_diag, skipn_all. cbn [skipn app].
      rewrite firstn_app, Nat.sub_diag, firstn_all. cbn [firstn].
      apply app_nil_r. }
    unfold RvrSweep.curr_throughput. rewrite Hs.
    destruct mid as [|a mid]; [contradiction|reflexivity].
  - intros k rates Hk Hlen. unfold RvrSweep.curr_throughput.
    assert (Hs : RvrSweep.slice_to_last k rates = []).
    { unfold RvrSweep.slice_to_last. cbv zeta.
      destruct (Z.ltb_spec k 0) as [Hneg|_]; [lia|].
      match goal with
      | |- firstn ?n _ = _ => replace n with 0%nat by lia
      end.
      reflexivity. }
    now rewrite Hs.
Qed.

Lemma curr_throughput_ignores_edges_witness :
  RvrSweep.curr_throughput 1 (Some ([1] ++ [10; 12; 14] ++ [5])) =
    RvrSweep.fsum [10; 12; 14] / inject_Z 3 * inject_Z 8 /\
  RvrSweep.curr_throughput 1 (Some [6; 7]) = 0.
Proof.
  split.
  - refine (proj1 curr_throughput_ignores_edges 1%Z [1] [10; 12; 14] 5
              eq_refl _).
    discriminate.
  - refine (proj2 curr_throughput_ignores_edges 1%Z [6; 7] _ _).
    + discriminate.
    + discriminate.
Defined.

(** * CoexPerformanceBaseTest: recording the sweep *)

Module CoexSweep.
Import CoexPerformanceBaseTest.
Local Open Scope res_scope.

(** What happens at one Wi-Fi attenuation, after it was appended to
    [self.rvr[bt_atten]["attenuation"]]: a call raises (attenuator, iperf,
    audio analysis, the parsing of the iperf figure), or the device is found
    disconnected, or [called_func] fails, or a throughput is received. *)
Inductive step : Type :=
| Aborts (e : exn)
| Disconnected
| FuncFailed
| Received (throughput : Q).

(** The loop of [rvr_throughput] and the return after it; [position] counts
    the attenuations visited, [reset] is the final setting of the attenuators
    to 0 dB.  The value is [self.rvr[bt_atten]["attenuation"]] with
    [self.iperf_received]. *)
Fixpoint rvr_loop (fixed : Q) (world : nat -> step) (position : nat)
    (wifi_atten_range : list Q) (attenuation iperf_received : list Q)
    (reset : res unit) : res (list Q * list Q) :=
  match wifi_atten_range with
  | [] => reset ;;; Ret (attenuation, iperf_received)
  | atten :: rest =>
      let attenuation := attenuation ++ [atten + fixed] in
      match world position with
      | Aborts e => Raise e
      | Disconnected => Ret (attenuation, iperf_received)
      | FuncFailed => Ret (attenuation, iperf_received)
      | Received throughput =>
          rvr_loop fixed world (S position) rest attenuation
            (iperf_received ++ [throughput]) reset
      end
  end.

(** [rvr_throughput(self, bt_atten, called_func)], for the keys
    ["attenuation"] and ["throughput_received"]. *)
Definition rvr_throughput (fixed : Q) (world : nat -> step)
    (wifi_atten_range : list Q) (reset : res unit) : res (list Q * list Q) :=
  rvr_loop fixed world 0 wifi_atten_range [] [] reset.

(** The test bench: [self.wifi_atten_range],
    [self.test_params["fixed_attenuation"][str(self.network["channel"])]]
    where the first key exists, and what the devices do, by position in
    [self.bt_atten_range] and in [self.wifi_atten_range]. *)
Record bench : Type := {
  wifi_atten_range : list Q;
  fixed_attenuation_of_channel : option Q;
  start : res unit;
  prepare : nat -> res unit;
  world : nat -> nat -> step;
  reset : nat -> res unit
}.

(** The loop of [set_attenuation_and_run_iperf] over [self.bt_atten_range];
    the state is [self.rvr["bt_attenuation"]] with the entries
    [self.rvr[bt_atten]]. *)
Fixpoint bt_loop (tp : test_params) (b : bench) (position : nat)
    (range : list Z) (st : list Z * (Z -> option rvr_entry))
  : res (list Z * (Z -> option rvr_entry)) :=
  match range with
  | [] => Ret st
  | bt_atten :: rest =>
      fixed <- (if has_fixed_attenuation tp
                then getkey (fixed_attenuation_of_channel b)
                else Raise KeyError) ;;
      prepare b position ;;;
      out <- rvr_throughput fixed (world b position) (wifi_atten_range b)
               (reset b position) ;;
      bt_loop tp b (S position) rest
        (fst st ++ [bt_atten],
         setitem (snd st) bt_atten
           {| attenuation := fst out;
              fixed_attenuation := fixed;
              throughput_received := snd out |})
  end.

(** [set_attenuation_and_run_iperf(self, called_func)]: the new
    [self.rvr["bt_attenuation"]] and entries of [self.rvr]. *)
Definition set_attenuation_and_run_iperf (s : self) (b : bench)
  : res (list Z * (Z -> option rvr_entry)) :=
  start b ;;; bt_loop (params s) b 0 (bt_atten_range s) ([], rvr s).

End CoexSweep.

Section CoexSweepFacts.
Import CoexPerformanceBaseTest CoexSweep.

(** An entry as [rvr_throughput] leaves it: the first [n] attenuations of
    the range, each with the fixed attenuation added, and a throughput for
    all of them or for all but the last. *)
Definition recorded_entry (b : bench) (fixed : Q) (e : rvr_entry) : Prop :=
  fixed_attenuation e = fixed /\
  exists n,
    (n <= List.length (wifi_atten_range b))%nat /\
    attenuation e = map (fun atten => atten + fixed)
                      (firstn n (wifi_atten_range b)) /\
    (List.length (throughput_received e) = n \/
     S (List.length (throughput_received e)) = n).

Lemma rvr_loop_returned (fixed : Q) (world : nat -> step) (reset : res unit)
    (range : list Q) :
  forall position att rec att' rec',
    rvr_loop fixed world position range att rec reset = Ret (att', rec') ->
    exists n m,
      (n <= List.length range)%nat /\
      att' = att ++ map (fun atten => atten + fixed) (firstn n range) /\
      List.length rec' = (List.length rec + m)%nat /\
      (m = n \/ S m = n).
Proof.
  induction range as [|atten rest IH]; intros position att rec att' rec' H;
    cbn [rvr_loop] in H.
  - destruct reset as [[]|]; [|discriminate]. cbn [bind] in H.
    injection H as <- <-. exists 0%nat, 0%nat. cbn.
    rewrite app_nil_r. repeat split; auto.
  - destruct (world position) as [e| | |v].
    + discriminate.
    + injection H as <- <-. exists 1%nat, 0%nat. cbn [firstn map List.length].
      repeat split; auto; lia.
    + injection H as <- <-. exists 1%nat, 0%nat. cbn [firstn map List.length].
      repeat split; auto; lia.
    + apply IH in H. destruct H as (n & m & Hn & -> & Hlen & Hm).
      exists (S n), (S m). cbn [firstn map List.length].
      rewrite <- app_assoc. cbn [app]. rewrite Hlen, length_app.
      cbn [List.length]. repeat split; auto; lia.
Qed.

Lemma rvr_throughput_recorded (b : bench) (fixed : Q) (position : nat)
    (out : list Q * list Q) :
  rvr_throughput fixed (world b position) (wifi_atten_range b)
    (reset b position) = Ret out ->
  recorded_entry b fixed
    {| attenuation := fst out; fixed_attenuation := fixed;
       throughput_received := snd out |}.
Proof.
  destruct out as [att rec]. unfold rvr_throughput. intros H.
  apply rvr_loop_returned in H. destruct H as (n & m & Hn & Ha & Hlen & Hm).
  split; [reflexivity|]. exists n. cbn [attenuation throughput_received fst snd].
  cbn in Ha, Hlen. repeat split; auto. lia.
Qed.

Lemma bt_loop_returned (P : Q -> rvr_entry -> Prop) (tp : test_params)
    (b : bench) (range : list Z) :
  (forall fixed position out,
      rvr_throughput fixed (world b position) (wifi_atten_range b)
        (reset b position) = Ret out ->
      P fixed {| attenuation := fst out; fixed_attenuation := fixed;
                 throughput_received := snd out |}) ->
  forall position st st',
    bt_loop tp b position range st = Ret st' ->
    fst st' = fst st ++ range /\
    (forall bt, ~ In bt range -> snd st' bt = snd st bt) /\
    (forall bt, In bt range ->
       has_fixed_attenuation tp = true /\
       exists fixed e,
         fixed_attenuation_of_channel b = Some fixed /\
         snd st' bt = Some e /\ P fixed e).
Proof.
  intros HP.
  induction range as [|bt_atten rest IH]; intros position st st' H;
    cbn [bt_loop] in H.
  - injection H as <-. rewrite app_nil_r.
    split; [reflexivity|]. split; [reflexivity|]. intros bt [].
  - destruct (has_fixed_attenuation tp) eqn:Ehas; [|discriminate].
    destruct (fixed_attenuation_of_channel b) as [fixed|] eqn:Efix;
      [|discriminate].
    cbn [getkey bind] in H.
    destruct (prepare b position) as [[]|]; [|discriminate]. cbn [bind] in H.
    destruct (rvr_throughput _ _ _ _) as [out|] eqn:Eout; [|discriminate].
    cbn [bind] in H. pose proof (HP _ _ _ Eout) as Hrec.
    apply IH in H. cbn [fst snd] in H. destruct H as (Hfst & Hout & Hin).
    split; [rewrite Hfst, <- app_assoc; reflexivity|].
    split.
    + intros bt Hn. rewrite Hout by (intros Hr; apply Hn; now right).
      unfold setitem. destruct (Z.eqb_spec bt bt_atten) as [->|_]; [|reflexivity].
      exfalso. apply Hn. now left.
    + intros bt Hbt. split; [reflexivity|].
      destruct (in_dec Z.eq_dec bt rest) as [Hr|Hr].
      * destruct (Hin bt Hr) as (_ & fixed' & e & Hf & He & Hre).
        exists fixed', e. rewrite <- Hf. auto.
      * destruct Hbt as [->|Hbt]; [|contradiction].
        exists fixed. eexists. split; [reflexivity|].
        rewrite (Hout bt Hr). unfold setitem. rewrite Z.eqb_refl.
        split; [reflexivity|exact Hrec].
Qed.

Lemma rvr_loop_complete (fixed : Q) (world : nat -> step) (reset : res unit)
    (range : list Q) :
  forall position att rec att' rec',
    (forall i, (i < List.length range)%nat ->
               exists v, world (position + i)%nat = Received v /\ 0 <= v) ->
    rvr_loop fixed world position range att rec reset = Ret (att', rec') ->
    att' = att ++ map (fun atten => atten + fixed) range /\
    exists vs, rec' = rec ++ vs /\ List.length vs = List.length range /\
               forall v, In v vs -> 0 <= v.
Proof.
  induction range as [|atten rest IH]; intros position att rec att' rec' Hw H;
    cbn [rvr_loop] in H.
  - destruct reset as [[]|]; [|discriminate]. cbn [bind] in H.
    injection H as <- <-. cbn [map]. rewrite app_nil_r. split; [reflexivity|].
    exists []. rewrite app_nil_r. split; [reflexivity|].
    split; [reflexivity|]. intros v [].
  - destruct (Hw 0%nat) as (v & Hv & Hpos); [cbn; lia|].
    rewrite Nat.add_0_r in Hv. rewrite Hv in H.
    apply IH in H.
    + destruct H as (-> & vs & -> & Hlen & Hnn).
      cbn [map]. rewrite <- !app_assoc. cbn [app]. split; [reflexivity|].
      exists (v :: vs). split; [reflexivity|]. cbn [List.length].
      split; [lia|]. intros v' [<-|Hv']; auto.
    + intros i Hi. destruct (Hw (S i)) as (v' & Hv' & Hpos'); [cbn; lia|].
      exists v'. rewrite Nat.add_succ_comm. auto.
Qed.

Lemma recorded_entry_point (b : bench) (fixed : Q) (e : rvr_entry)
    (idx : nat) (current : Q) :
  recorded_entry b fixed e ->
  nth_error (throughput_received e) idx = Some current ->
  exists atten,
    nth_error (wifi_atten_range b) idx = Some atten /\
    getitem (attenuation e) idx = Ret (atten + fixed).
Proof.
  intros (_ & n & Hn & Ha & Hlen) Hcur.
  assert (Hidx : (idx < List.length (throughput_received e))%nat)
    by (apply nth_error_Some; congruence).
  assert (Hidx' : (idx < n)%nat) by lia.
  destruct (nth_error_lt (wifi_atten_range b) idx) as [atten Hatt]; [lia|].
  exists atten. split; [exact Hatt|].
  apply getitem_Some. rewrite Ha, nth_error_map, nth_error_firstn.
  destruct (Nat.ltb_spec idx n) as [_|]; [|lia]. now rewrite Hatt.
Qed.

End CoexSweepFacts.

Lemma Qeq_bool_shift (x y fixed : Q) :
  Qeq_bool (x + fixed) (y + fixed) = Qeq_bool x y.
Proof.
  destruct (Qeq_bool x y) eqn:E.
  - apply Qeq_bool_iff in E. apply Qeq_bool_iff. lra.
  - destruct (Qeq_bool (x + fixed) (y + fixed)) eqn:E'; [|reflexivity].
    apply Qeq_bool_iff in E'. assert (Hxy : x == y) by lra.
    apply Qeq_bool_iff in Hxy. congruence.
Qed.

Lemma earlier_same_shift (l : list Q) (fixed : Q) (idx : nat) :
  (idx < List.length l)%nat ->
  earlier_same (map (fun atten => atten + fixed) l) idx = earlier_same l idx.
Proof.
  intros Hidx. unfold earlier_same. f_equal. apply filter_ext_in.
  intros i Hi. apply in_seq in Hi.
  rewrite !(nth_map_total (fun atten => atten + fixed)) by lia.
  apply Qeq_bool_shift.
Qed.

Section CoexSweepResults.
Import CoexPerformanceBaseTest CoexSweep.

(** [self] once the sweep is recorded. *)
Definition after_sweep (s : self) (rvr' : Z -> option rvr_entry) : self :=
  {| params := params s;
     current_test_name := current_test_name s;
     performance_files_list := performance_files_list s;
     bt_atten_range := bt_atten_range s;
     rvr := rvr' |}.

(** The entries of [self.rvr] as [performance_baseline_check] dumps them to
    the results file, read back as a baseline. *)
Definition dumped (rvr' : Z -> option rvr_entry) : performance_results :=
  fun bt => option_map mirror (rvr' bt).

(** Every attenuation of every sweep gives a throughput, none negative. *)
Definition complete_run (b : bench) : Prop :=
  forall position i, (i < List.length (wifi_atten_range b))%nat ->
    exists v, world b position i = Received v /\ 0 <= v.

Lemma set_attenuation_and_run_iperf_returned
    (P : Q -> rvr_entry -> Prop) (s : self) (b : bench) (bts : list Z)
    (rvr' : Z -> option rvr_entry) :
  (forall fixed position out,
      rvr_throughput fixed (world b position) (wifi_atten_range b)
        (reset b position) = Ret out ->
      P fixed {| attenuation := fst out; fixed_attenuation := fixed;
                 throughput_received := snd out |}) ->
  set_attenuation_and_run_iperf s b = Ret (bts, rvr') ->
  bts = bt_atten_range s /\
  (forall bt, ~ In bt (bt_atten_range s) -> rvr' bt = rvr s bt) /\
  (forall bt, In bt (bt_atten_range s) ->
     has_fixed_attenuation (params s) = true /\
     exists fixed e,
       fixed_attenuation_of_channel b = Some fixed /\
       rvr' bt = Some e /\ P fixed e).
Proof.
  intros HP H. unfold set_attenuation_and_run_iperf in H.
  destruct (start b) as [[]|]; [|discriminate]. cbn [bind] in H.
  exact (bt_loop_returned P _ _ _ HP _ _ _ H).
Qed.

Lemma complete_run_comparable (b : bench) (fixed : Q) (position : nat)
    (out : list Q * list Q) :
  complete_run b ->
  (forall idx, (idx < List.length (wifi_atten_range b))%nat ->
               (earlier_same (wifi_atten_range b) idx < 3)%nat) ->
  rvr_throughput fixed (world b position) (wifi_atten_range b)
    (reset b position) = Ret out ->
  self_comparable
    {| attenuation := fst out; fixed_attenuation := fixed;
       throughput_received := snd out |}.
Proof.
  intros Hc Hfew H. destruct out as [att rec]. unfold rvr_throughput in H.
  apply rvr_loop_complete in H.
  - destruct H as (-> & vs & -> & Hlen & Hnn). cbn [app fst snd].
    unfold self_comparable. cbn [attenuation throughput_received].
    rewrite length_map. split; [now rewrite Hlen|]. split; [exact Hnn|].
    intros idx Hidx. rewrite earlier_same_shift by exact Hidx. now apply Hfew.
  - intros i Hi. exact (Hc position i Hi).
Qed.

End CoexSweepResults.

Module Bench.
Import CoexSweep.

(** Three Wi-Fi attenuations; at the second Bluetooth attenuation the
    device drops off the network at 20 dB. *)
Definition bench : bench :=
  {| wifi_atten_range := [0; 10; 20];
     fixed_attenuation_of_channel := Some 3;
     start := Ret tt;
     prepare := fun _ => Ret tt;
     world := fun position i =>
                if ((position =? 1) && (i =? 2))%nat then Disconnected
                else Received (inject_Z (Z.of_nat (100 - 10 * i)));
     reset := fun _ => Ret tt |}.

(** The same bench with a device that stays connected. *)
Definition steady : CoexSweep.bench :=
  {| wifi_atten_range := [0; 10; 20];
     fixed_attenuation_of_channel := Some 3;
     start := Ret tt;
     prepare := fun _ => Ret tt;
     world := fun _ i => Received (inject_Z (Z.of_nat (100 - 10 * i)));
     reset := fun _ => Ret tt |}.

Definition self : CoexPerformanceBaseTest.self :=
  {| CoexPerformanceBaseTest.params :=
       {| CoexPerformanceBaseTest.abs_tolerance := 5;
          CoexPerformanceBaseTest.pct_tolerance := 10;
          CoexPerformanceBaseTest.failure_count_tolerance := 1;
          CoexPerformanceBaseTest.has_fixed_attenuation := true |};
     CoexPerformanceBaseTest.current_test_name := "test_performance";
     CoexPerformanceBaseTest.performance_files_list :=
       Some ["results/test_performance.json"%string];
     CoexPerformanceBaseTest.bt_atten_range := [0%Z; 5%Z];
     CoexPerformanceBaseTest.rvr := fun _ => None |}.

End Bench.

(** X19.  After [set_attenuation_and_run_iperf] returns,
    [self.rvr["bt_attenuation"]] is [self.bt_atten_range], the entries of
    other keys are untouched, and every Bluetooth attenuation of the range
    has an entry with the fixed attenuation of the channel, whose
    attenuations are as many as its throughputs or one more (a sweep cut
    short by a disconnection or a failed [called_func]).  Each throughput has
    its attenuation, so the check never lacks one; the attenuation stored
    already holds the fixed attenuation, and the limits computed for the
    point add it once more. *)
Theorem recorded_sweep_shape (s : CoexPerformanceBaseTest.self)
    (b : CoexSweep.bench) (bts : list Z)
    (rvr' : Z -> option CoexPerformanceBaseTest.rvr_entry) :
  CoexSweep.set_attenuation_and_run_iperf s b = Ret (bts, rvr') ->
  bts = CoexPerformanceBaseTest.bt_atten_range s /\
  (forall bt, ~ In bt (CoexPerformanceBaseTest.bt_atten_range s) ->
              rvr' bt = CoexPerformanceBaseTest.rvr s bt) /\
  (forall bt, In bt (CoexPerformanceBaseTest.bt_atten_range s) ->
     exists fixed e,
       CoexSweep.fixed_attenuation_of_channel b = Some fixed /\
       rvr' bt = Some e /\
       CoexPerformanceBaseTest.fixed_attenuation e = fixed /\
       (List.length (CoexPerformanceBaseTest.throughput_received e)
        <= List.length (CoexPerformanceBaseTest.attenuation e)
        <= S (List.length (CoexPerformanceBaseTest.throughput_received e)))%nat /\
       forall idx current,
         nth_error (CoexPerformanceBaseTest.throughput_received e) idx
           = Some current ->
         exists atten,
           nth_error (CoexSweep.wifi_atten_range b) idx = Some atten /\
           getitem (CoexPerformanceBaseTest.attenuation e) idx
             = Ret (atten + fixed) /\
           forall tp pd pa row,
             CoexPerformanceBaseTest.point_limits tp pd pa e idx = Ret row ->
             fst row = atten + fixed + fixed).
Proof.
  intros H.
  destruct (set_attenuation_and_run_iperf_returned (recorded_entry b) s b bts
              rvr' (rvr_throughput_recorded b) H) as (Hb & Hout & Hin).
  split; [exact Hb|]. split; [exact Hout|].
  intros bt Hbt. destruct (Hin bt Hbt) as (_ & fixed & e & Hf & He & Hrec).
  exists fixed, e. split; [exact Hf|]. split; [exact He|].
  split; [exact (proj1 Hrec)|]. split.
  - destruct Hrec as (_ & n & Hn & Ha & Hlen).
    rewrite Ha, length_map, length_firstn. lia.
  - intros idx current Hcur.
    destruct (recorded_entry_point b fixed e idx current Hrec Hcur)
      as (atten & Hatt & Hget).
    exists atten. split; [exact Hatt|]. split; [exact Hget|].
    intros tp pd pa [current_att [lower upper]] Hrow.
    apply coex_point_limits_shape in Hrow.
    destruct Hrow as (att & _ & _ & Hnth & -> & _).
    apply getitem_Some in Hnth. rewrite Hget in Hnth. injection Hnth as <-.
    cbn [fst]. now rewrite (proj1 Hrec).
Qed.

Lemma recorded_sweep_shape_witness :
  exists bts rvr',
    CoexSweep.set_attenuation_and_run_iperf Bench.self Bench.bench
      = Ret (bts, rvr') /\
    bts = [0%Z; 5%Z] /\
    rvr' 5%Z =
      Some {| CoexPerformanceBaseTest.attenuation := [0 + 3; 10 + 3; 20 + 3];
              CoexPerformanceBaseTest.fixed_attenuation := 3;
              CoexPerformanceBaseTest.throughput_received :=
                [inject_Z 100; inject_Z 90] |}.
Proof.
  eexists. eexists. split; [reflexivity|].
  split; [|reflexivity].
  exact (proj1 (recorded_sweep_shape Bench.self Bench.bench _ _ eq_refl)).
Defined.

(** X20.  A run of [set_attenuation_and_run_iperf] in which every
    attenuation gave a throughput, none negative, over Wi-Fi attenuations of
    which none occurs more than three times, is within the limits computed
    from its own results file: with [abs_tolerance >= 0] the limits are
    computed for every Bluetooth attenuation and no point lies outside
    them. *)
Theorem complete_sweep_is_within_its_own_limits
    (s : CoexPerformanceBaseTest.self) (b : CoexSweep.bench) (bts : list Z)
    (rvr' : Z -> option CoexPerformanceBaseTest.rvr_entry)
    (fs : CoexPerformanceBaseTest.filesystem) (path : string) :
  CoexSweep.set_attenuation_and_run_iperf s b = Ret (bts, rvr') ->
  complete_run b ->
  (forall idx, (idx < List.length (CoexSweep.wifi_atten_range b))%nat ->
               (earlier_same (CoexSweep.wifi_atten_range b) idx < 3)%nat) ->
  0 <= CoexPerformanceBaseTest.abs_tolerance (CoexPerformanceBaseTest.params s) ->
  fs path = Json (dumped rvr') ->
  exists tl,
    CoexPerformanceBaseTest.get_throughput_limits (after_sweep s rvr') fs path
      = Ret tl /\
    total_failures (after_sweep s rvr') tl
      (CoexPerformanceBaseTest.bt_atten_range s) = 0%Z.
Proof.
  intros H Hc Hfew Habs Hfs.
  destruct (set_attenuation_and_run_iperf_returned
              (fun _ e => self_comparable e) s b bts rvr'
              (fun fixed position out =>
                 complete_run_comparable b fixed position out Hc Hfew) H)
    as (_ & _ & Hin).
  destruct (CoexPerformanceBaseTest.bt_atten_range s) as [|bt0 rest] eqn:Er.
  - exists (fun _ => None). split; [|reflexivity].
    unfold CoexPerformanceBaseTest.get_throughput_limits. rewrite Hfs.
    cbn [load bind after_sweep CoexPerformanceBaseTest.bt_atten_range].
    rewrite Er. reflexivity.
  - destruct (Hin bt0 (or_introl eq_refl)) as (Hfix & _).
    rewrite <- Er.
    apply (coex_identity_limits (after_sweep s rvr') fs path (dumped rvr') Hfs
             Hfix Habs).
    intros bt Hbt. cbn [after_sweep CoexPerformanceBaseTest.bt_atten_range] in Hbt.
    rewrite Er in Hbt.
    destruct (Hin bt Hbt) as (_ & fixed & e & _ & He & Hself).
    exists e. cbn [after_sweep CoexPerformanceBaseTest.rvr]. unfold dumped.
    rewrite He. auto.
Qed.

Lemma complete_sweep_is_within_its_own_limits_witness :
  exists bts rvr',
    CoexSweep.set_attenuation_and_run_iperf Bench.self Bench.steady
      = Ret (bts, rvr') /\
    exists tl,
      CoexPerformanceBaseTest.get_throughput_limits
        (after_sweep Bench.self rvr') (fun _ => Json (dumped rvr'))
        "results/test_performance.json" = Ret tl /\
      total_failures (after_sweep Bench.self rvr') tl [0%Z; 5%Z] = 0%Z.
Proof.
  eexists. eexists. split; [reflexivity|].
  refine (complete_sweep_is_within_its_own_limits Bench.self Bench.steady _ _
            (fun _ => Json (dumped _)) "results/test_performance.json"
            eq_refl _ _ _ eq_refl).
  - intros position i Hi. eexists. split; [reflexivity|].
    unfold Qle, inject_Z. cbn [Qnum Qden]. lia.
  - intros idx Hidx. cbn [Bench.steady CoexSweep.wifi_atten_range List.length] in *.
    destruct idx as [|[|[|idx]]]; [apply Nat.ltb_lt; reflexivity ..|lia].
  - discriminate.
Defined.
